(** * uesf/app.js: walking-distance school finder

  A shallow embedding of the search core of [src/uesf/app.js]: the
  geometric helpers ([pointInPolygon], [haversineDistance],
  [formatDistance]), the filter-and-rank steps of the submit handler,
  the request life cycle of the search form and of the address
  autocomplete, and the keyboard navigation of the suggestion list.

  JavaScript numbers are IEEE 754 binary64 values; they are modelled by
  Rocq's primitive [float], whose operations are specified against
  [SpecFloat] in [FloatAxioms]. *)

From Stdlib Require Import ZArith QArith Qabs Lqa List Bool String Ascii Lia.
From Stdlib Require Import DecimalString.
From Stdlib Require Import Floats Permutation Sorted.
Import ListNotations.
Close Scope Q_scope.

(** ** JavaScript numbers *)

Module JSNumber.

Definition number := float.

(** [a > b] and [a < b] on numbers: false as soon as one side is NaN. *)
Definition gt (a b : number) : bool := PrimFloat.ltb b a.
Definition lt (a b : number) : bool := PrimFloat.ltb a b.

(** [a !== b] on the booleans produced by two comparisons. *)
Definition bool_neq (a b : bool) : bool := xorb a b.

Definition is_NaN (a : number) : bool := PrimFloat.is_nan a.

(** [Number.isFinite]. *)
Definition isFinite (x : number) : bool :=
  match Prim2SF x with
  | S754_zero _ | S754_finite _ _ _ => true
  | _ => false
  end.

End JSNumber.
Import JSNumber.

(** ** GeoMath: point in polygon by ray casting *)

Module GeoMath.

(** A vertex or a query point is a two-element array [[x, y]]. *)
Definition point := (number * number)%type.

(** A division the evaluation went through: numerator and divisor. *)
Definition division := (number * number)%type.

(** The [intersects] expression of the loop body. JavaScript's [&&] does
    not evaluate its right operand when the left one is false, so the
    division is only reached on the second branch; the evaluation
    returns the value together with the divisions it performed. *)
Definition intersects_eval (p vi vj : point) : bool * list division :=
  let '(px, py) := p in
  let '(xi, yi) := vi in
  let '(xj, yj) := vj in
  if bool_neq (gt yi py) (gt yj py)
  then (lt px (((xj - xi) * (py - yi)) / (yj - yi) + xi)%float,
        [(((xj - xi) * (py - yi))%float, (yj - yi)%float)])
  else (false, []).

Definition intersects (p vi vj : point) : bool := fst (intersects_eval p vi vj).

(** The [for] loop: [vj] is [polygon[j]], the vertex visited just
    before (initially the last one), [rest] the vertices from index
    [i] on. The state is [inside] and the divisions performed so far. *)
Fixpoint ray_loop (p : point) (vj : point) (rest : list point)
         (st : bool * list division) : bool * list division :=
  match rest with
  | [] => st
  | vi :: rest' =>
      let '(b, ds) := intersects_eval p vi vj in
      ray_loop p vi rest'
               ((if b then negb (fst st) else fst st), snd st ++ ds)
  end.

Definition pointInPolygon_eval (p : point) (polygon : list point)
  : bool * list division :=
  match polygon with
  | [] => (false, [])
  | v :: _ => ray_loop p (last polygon v) polygon (false, [])
  end.

Definition pointInPolygon (p : point) (polygon : list point) : bool :=
  fst (pointInPolygon_eval p polygon).

Definition unit_square : list point :=
  [(0, 0); (1, 0); (1, 1); (0, 1)]%float.

End GeoMath.
Import GeoMath.

(** ** Facts about binary64 comparison *)

Section ComparisonFacts.

Lemma SFcompare_Eq_finite s1 m1 e1 s2 m2 e2 :
  SFcompare (S754_finite s1 m1 e1) (S754_finite s2 m2 e2) = Some Eq ->
  s1 = s2 /\ m1 = m2 /\ e1 = e2.
Proof.
  cbn. destruct s1, s2; try discriminate;
    destruct (Z.compare_spec e1 e2) as [He|He|He]; try discriminate;
    fold (Pos.compare m1 m2); destruct (Pos.compare_spec m1 m2);
    cbn; try discriminate; intros _; subst; auto.
Qed.

(** Two numbers that compare equal compare alike with any third one. *)
Lemma SFcompare_Eq_right a b c :
  SFcompare a b = Some Eq -> SFcompare c a = SFcompare c b.
Proof.
  intros H.
  destruct a as [sa|sa| |sa ma ea], b as [sb|sb| |sb mb eb];
    try discriminate H;
    try (destruct sa, sb; discriminate H);
    try (destruct sa; discriminate H);
    try (destruct sb; discriminate H);
    try (destruct c as [sc|sc| |sc mc ec]; reflexivity).
  - destruct sa, sb; try discriminate H; reflexivity.
  - apply SFcompare_Eq_finite in H. destruct H as (-> & -> & ->). reflexivity.
Qed.

Lemma gt_eqb_compat (a b c : number) :
  (a =? b)%float = true -> gt a c = gt b c.
Proof.
  unfold gt. rewrite eqb_spec, !ltb_spec. unfold SFeqb, SFltb.
  destruct (SFcompare (Prim2SF a) (Prim2SF b)) as [[]|] eqn:E; try discriminate.
  intros _. now rewrite (SFcompare_Eq_right _ _ (Prim2SF c) E).
Qed.

End ComparisonFacts.

(** ** Edges and parity: the loop as an exclusive-or over the edges *)

Section RayCasting.

(** The pairs [(polygon[i], polygon[j])] in the order the loop visits
    them, starting with previous vertex [vj]. *)
Fixpoint pairs_from (vj : point) (rest : list point) : list (point * point) :=
  match rest with
  | [] => []
  | vi :: rest' => (vi, vj) :: pairs_from vi rest'
  end.

Definition edges (polygon : list point) : list (point * point) :=
  match polygon with
  | [] => []
  | v :: _ => pairs_from (last polygon v) polygon
  end.

Definition straddles (p vi vj : point) : bool :=
  bool_neq (gt (snd vi) (snd p)) (gt (snd vj) (snd p)).

Definition parity (bs : list bool) : bool := fold_right xorb false bs.

Lemma parity_app bs cs : parity (bs ++ cs) = xorb (parity bs) (parity cs).
Proof.
  unfold parity. induction bs as [|b bs IH]; cbn.
  - reflexivity.
  - rewrite IH. symmetry. apply xorb_assoc.
Qed.

Lemma parity_cons b bs : parity (b :: bs) = xorb b (parity bs).
Proof. reflexivity. Qed.

Lemma parity_rev bs : parity (rev bs) = parity bs.
Proof.
  induction bs as [|b bs IH]; cbn; [reflexivity|].
  rewrite parity_app, IH. unfold parity; cbn. rewrite xorb_false_r. apply xorb_comm.
Qed.

Lemma ray_loop_fst p vj rest st :
  fst (ray_loop p vj rest st)
  = xorb (fst st)
      (parity (map (fun e => intersects p (fst e) (snd e)) (pairs_from vj rest))).
Proof.
  revert vj st. induction rest as [|vi rest IH]; intros vj st; cbn.
  - now rewrite xorb_false_r.
  - unfold intersects at 1.
    destruct (intersects_eval p vi vj) as [b ds]. rewrite IH. cbn.
    fold (parity (map (fun e => intersects p (fst e) (snd e)) (pairs_from vi rest))).
    now destruct b, (fst st), (parity _).
Qed.

Lemma pointInPolygon_parity p polygon :
  pointInPolygon p polygon
  = parity (map (fun e => intersects p (fst e) (snd e)) (edges polygon)).
Proof.
  unfold pointInPolygon, pointInPolygon_eval, edges.
  destruct polygon as [|v l]; [reflexivity|].
  now rewrite ray_loop_fst.
Qed.

Lemma ray_loop_snd p vj rest st d :
  In d (snd (ray_loop p vj rest st)) ->
  In d (snd st) \/
  exists vi vj', In (vi, vj') (pairs_from vj rest)
                 /\ In d (snd (intersects_eval p vi vj')).
Proof.
  revert vj st. induction rest as [|vi rest IH]; intros vj st; cbn.
  - auto.
  - destruct (intersects_eval p vi vj) as [b ds] eqn:E. intros H.
    apply IH in H. cbn in H. destruct H as [H|(a & b' & Hin & Hd)].
    + apply in_app_or in H. destruct H as [H|H]; [now left|].
      right. exists vi, vj. split; [now left|]. now rewrite E.
    + right. exists a, b'. auto.
Qed.

End RayCasting.

(** ** Horizontal edges and the guarded division *)

Lemma intersects_eval_division (p vi vj : point) (d : division) :
  In d (snd (intersects_eval p vi vj)) ->
  straddles p vi vj = true
  /\ d = (((fst vj - fst vi) * (snd p - snd vi))%float, (snd vj - snd vi)%float).
Proof.
  destruct p as [px py], vi as [xi yi], vj as [xj yj].
  unfold intersects_eval, straddles; cbn [fst snd].
  destruct (bool_neq (gt yi py) (gt yj py)); cbn.
  - intros [<-|[]]. auto.
  - intros [].
Qed.

Lemma straddles_equal_latitude (p vi vj : point) :
  snd vi = snd vj \/ (snd vi =? snd vj)%float = true ->
  straddles p vi vj = false.
Proof.
  unfold straddles, bool_neq. intros [H|H].
  - rewrite H. apply xorb_nilpotent.
  - rewrite (gt_eqb_compat _ _ (snd p) H). apply xorb_nilpotent.
Qed.

(** C7. An edge whose two endpoints have the same latitude never registers
    a crossing and its division is never evaluated (so no division by zero
    happens on it); every division [pointInPolygon] does perform belongs to
    an edge of the polygon whose endpoint latitudes straddle the point's
    latitude, and such an edge has endpoints of different latitude. *)
Theorem horizontal_edge_never_divides (p vi vj : point) (polygon : list point) :
  snd vi = snd vj \/ (snd vi =? snd vj)%float = true ->
  intersects_eval p vi vj = (false, [])
  /\ (forall d, In d (snd (pointInPolygon_eval p polygon)) ->
      exists ui uj,
        In (ui, uj) (edges polygon)
        /\ straddles p ui uj = true
        /\ (snd ui =? snd uj)%float = false
        /\ d = (((fst uj - fst ui) * (snd p - snd ui))%float,
                (snd uj - snd ui)%float)).
Proof.
  intros Heq. split.
  - pose proof (straddles_equal_latitude p vi vj Heq) as Hs.
    destruct p as [px py], vi as [xi yi], vj as [xj yj].
    unfold intersects_eval. unfold straddles in Hs. cbn [fst snd] in Hs.
    now rewrite Hs.
  - intros d Hd. unfold pointInPolygon_eval, edges in *.
    destruct polygon as [|v l]; [destruct Hd|].
    apply ray_loop_snd in Hd. destruct Hd as [[]|(ui & uj & Hin & Hd)].
    apply intersects_eval_division in Hd. destruct Hd as [Hs ->].
    exists ui, uj. repeat split; auto.
    destruct (snd ui =? snd uj)%float eqn:E; [|reflexivity].
    rewrite (straddles_equal_latitude p ui uj (or_intror E)) in Hs.
    discriminate.
Qed.

Definition horizontal_edge_point : point := (0.5, 1)%float.
Definition horizontal_edge_vi : point := (0, 1)%float.
Definition horizontal_edge_vj : point := (1, 1)%float.

Lemma horizontal_edge_never_divides_witness :
  intersects_eval horizontal_edge_point horizontal_edge_vi horizontal_edge_vj
  = (false, [])
  /\ (forall d, In d (snd (pointInPolygon_eval horizontal_edge_point unit_square)) ->
      exists ui uj,
        In (ui, uj) (edges unit_square)
        /\ straddles horizontal_edge_point ui uj = true
        /\ (snd ui =? snd uj)%float = false
        /\ d = (((fst uj - fst ui) * (snd horizontal_edge_point - snd ui))%float,
                (snd uj - snd ui)%float)).
Proof.
  apply (horizontal_edge_never_divides
           horizontal_edge_point horizontal_edge_vi horizontal_edge_vj unit_square).
  right. vm_compute. reflexivity.
Defined.

Lemma pairs_from_In (vj : point) (rest : list point) (a b : point) :
  In (a, b) (pairs_from vj rest) -> In a rest /\ (b = vj \/ In b rest).
Proof.
  revert vj. induction rest as [|vi rest IH]; intros vj; cbn [pairs_from].
  - intros [].
  - intros [H|H].
    + injection H as <- <-. split; [now left|now left].
    + apply IH in H. destruct H as [Ha [->|Hb]].
      * split; [now right|right; now left].
      * split; [now right|right; now right].
Qed.

Lemma edges_In (polygon : list point) (a b : point) :
  In (a, b) (edges polygon) -> In a polygon /\ In b polygon.
Proof.
  unfold edges. destruct polygon as [|v l]; [intros []|].
  intros H. apply pairs_from_In in H. destruct H as [Ha [->|Hb]]; split; auto.
  destruct (exists_last (l := v :: l) ltac:(discriminate)) as (l' & z & E).
  rewrite E, last_last. apply in_or_app. right. now left.
Qed.

(** An edge whose ends are on the same side of the point's latitude is
    not crossed. *)
Lemma intersects_same_side (p vi vj : point) :
  gt (snd vi) (snd p) = gt (snd vj) (snd p) -> intersects p vi vj = false.
Proof.
  destruct p as [px py], vi as [xi yi], vj as [xj yj]. cbn [snd]. intros E.
  unfold intersects, intersects_eval. rewrite E. unfold bool_neq.
  now rewrite xorb_nilpotent.
Qed.

(** ** Reversing the vertex order *)

Definition flip_edge (e : point * point) : point * point := (snd e, fst e).

Lemma last_cons_default (v a : point) (l : list point) :
  last (v :: l) a = last l v.
Proof.
  revert v a. induction l as [|w l IH]; intros v a; [reflexivity|].
  change (last (v :: w :: l) a) with (last (w :: l) a).
  now rewrite (IH w a), (IH w v).
Qed.

Lemma pairs_from_app (a : point) (l1 l2 : list point) :
  pairs_from a (l1 ++ l2) = pairs_from a l1 ++ pairs_from (last l1 a) l2.
Proof.
  revert a. induction l1 as [|v l1 IH]; intros a; [reflexivity|].
  cbn [app pairs_from]. rewrite IH, last_cons_default. reflexivity.
Qed.

(** Walking the reversed list visits the swapped pairs backwards. *)
Lemma pairs_from_rev (l : list point) (a b : point) :
  pairs_from b (rev l ++ [a])
  = (last l a, b) :: rev (map flip_edge (pairs_from a l)).
Proof.
  revert a. induction l as [|v l IH]; intros a; [reflexivity|].
  cbn [rev]. rewrite pairs_from_app, IH.
  cbn [pairs_from map rev app flip_edge fst snd].
  rewrite last_cons_default.
  replace (last (rev l ++ [v]) b) with v by (now rewrite last_last).
  reflexivity.
Qed.

Lemma edges_cons (v : point) (l : list point) :
  edges (v :: l) = (v, last l v) :: pairs_from v l.
Proof.
  unfold edges. cbn [pairs_from]. now rewrite last_cons_default.
Qed.

Lemma edges_rev_cons (v : point) (l : list point) :
  edges (rev (v :: l))
  = (last l v, v) :: rev (map flip_edge (pairs_from v l)).
Proof.
  cbn [rev]. unfold edges.
  destruct (rev l ++ [v]) as [|w t] eqn:E.
  - now destruct (rev l).
  - rewrite <- E, last_last. apply pairs_from_rev.
Qed.

Lemma parity_map_ext (f g : point * point -> bool) (es : list (point * point)) :
  (forall e, In e es -> f e = g e) ->
  parity (map f es) = parity (map g es).
Proof.
  intros H. f_equal. apply map_ext_in. exact H.
Qed.

Lemma pointInPolygon_rev (p : point) (polygon : list point) :
  (forall vi vj, In (vi, vj) (edges polygon) ->
                 intersects p vj vi = intersects p vi vj) ->
  pointInPolygon p (rev polygon) = pointInPolygon p polygon.
Proof.
  intros Hsym. rewrite !pointInPolygon_parity.
  destruct polygon as [|v l]; [reflexivity|].
  rewrite edges_rev_cons. rewrite edges_cons in Hsym |- *.
  cbn [map fst snd]. rewrite !parity_cons. f_equal.
  - apply (Hsym v (last l v)). now left.
  - rewrite map_rev, parity_rev, map_map.
    apply parity_map_ext. intros [vi vj] Hin. cbn.
    apply Hsym. now right.
Qed.

Definition third : number := (1 / 3)%float.
Definition sliver_triangle : list point := [(0, 0); (1, 3); (0, 3)]%float.
Definition sliver_point : point := (third, 1%float).

(** C4, as stated, fails: for the triangle (0,0), (1,3), (0,3) and the
    point (1/3, 1), which lies within one rounding error of the edge from
    (0,0) to (1,3), the two vertex orders give different answers. *)
Lemma pointInPolygon_orientation_counterexample :
  pointInPolygon sliver_point sliver_triangle = true
  /\ pointInPolygon sliver_point (rev sliver_triangle) = false.
Proof. split; vm_compute; reflexivity. Qed.

(** ** Strings as the handlers use them

    A [string] holds the UTF-8 bytes of a text, that is of a JavaScript
    string without lone surrogates. Searching for a text and cutting at
    the place found give the same result on the bytes as on the UTF-16
    code units; the length and the white space class are read off the
    bytes as follows. *)

Module JSString.

Open Scope string_scope.

Definition byte_in (lo hi : nat) (c : ascii) : bool :=
  (Nat.leb lo (nat_of_ascii c) && Nat.leb (nat_of_ascii c) hi)%bool.

Definition byte_is (n : nat) (c : ascii) : bool := Nat.eqb (nat_of_ascii c) n.

(** The white space and line terminators of ECMAScript, which [trim] and
    the class [\s] take away, by their UTF-8 bytes: U+0009 to U+000D and
    U+0020 (one byte); U+00A0 (two bytes); U+1680, U+2000 to U+200A,
    U+2028, U+2029, U+202F, U+205F, U+3000 and U+FEFF (three bytes). *)
Definition is_space1 (a : ascii) : bool :=
  (byte_in 9 13 a || byte_is 32 a)%bool.

Definition is_space2 (a b : ascii) : bool :=
  (byte_is 194 a && byte_is 160 b)%bool.

Definition is_space3 (a b c : ascii) : bool :=
  ((byte_is 225 a && byte_is 154 b && byte_is 128 c)
   || (byte_is 226 a && byte_is 128 b
       && (byte_in 128 138 c || byte_is 168 c || byte_is 169 c || byte_is 175 c))
   || (byte_is 226 a && byte_is 129 b && byte_is 159 c)
   || (byte_is 227 a && byte_is 128 b && byte_is 128 c)
   || (byte_is 239 a && byte_is 187 b && byte_is 191 c))%bool.

(** What follows the white space character [s] starts with, if it starts
    with one. *)
Definition white_space (s : string) : option string :=
  match s with
  | String a r1 =>
      if is_space1 a then Some r1
      else match r1 with
           | String b r2 =>
               if is_space2 a b then Some r2
               else match r2 with
                    | String c r3 => if is_space3 a b c then Some r3 else None
                    | EmptyString => None
                    end
           | EmptyString => None
           end
  | EmptyString => None
  end.

(** [s.replace(/^\s*/, '')] *)
Fixpoint trim_start (s : string) : string :=
  match s with
  | String a r1 =>
      if is_space1 a then trim_start r1
      else match r1 with
           | String b r2 =>
               if is_space2 a b then trim_start r2
               else match r2 with
                    | String c r3 => if is_space3 a b c then trim_start r3 else s
                    | EmptyString => s
                    end
           | EmptyString => s
           end
  | EmptyString => EmptyString
  end.

(** Nothing but white space characters. *)
Fixpoint blank (s : string) : bool :=
  match s with
  | String a r1 =>
      if is_space1 a then blank r1
      else match r1 with
           | String b r2 =>
               if is_space2 a b then blank r2
               else match r2 with
                    | String c r3 => if is_space3 a b c then blank r3 else false
                    | EmptyString => false
                    end
           | EmptyString => false
           end
  | EmptyString => true
  end.

(** The white space at the end goes: what is kept ends where only white
    space follows. *)
Fixpoint trim_end (s : string) : string :=
  match s with
  | String a rest => if blank s then EmptyString else String a (trim_end rest)
  | EmptyString => EmptyString
  end.

(** [s.trim()] *)
Definition trim (s : string) : string := trim_end (trim_start s).

(** The UTF-16 code units a byte of the text stands for: none for a
    continuation byte, two (a surrogate pair) for the first byte of a
    four-byte character, one for any other first byte. *)
Definition code_units (c : ascii) : nat :=
  if byte_in 128 191 c then 0 else if byte_in 240 255 c then 2 else 1.

(** [s.length] *)
Fixpoint utf16_length (s : string) : nat :=
  match s with
  | String c rest => code_units c + utf16_length rest
  | EmptyString => 0
  end.

(** [s.includes(sub)] *)
Definition includes (s sub : string) : bool :=
  match String.index 0 sub s with Some _ => true | None => false end.

(** [s.replace(pat, '')] with a string pattern: the first occurrence goes. *)
Definition remove_first (s pat : string) : string :=
  match String.index 0 pat s with
  | Some i =>
      String.substring 0 i s
      ++ String.substring (i + String.length pat)
                          (String.length s - (i + String.length pat)) s
  | None => s
  end.

(** [s.replace(/^,\s*/, '')] *)
Definition strip_leading_comma (s : string) : string :=
  match s with
  | String "," rest => trim_start rest
  | _ => s
  end.

Definition string_of_nat (n : nat) : string :=
  DecimalString.NilZero.string_of_uint (Nat.to_uint n).

End JSString.
Import JSString.

(** ** Data of the search

    [school] is an entry of [SFUSD_SCHOOLS]; [ranked_school] is the copy
    [{ ...school, distance }] the handler builds; [coords] is what
    [geocodeAddress] returns. *)

Record school := {
  name : string;
  address : option string;
  website : option string;
  lng : number;
  lat : number
}.

Record ranked_school := {
  facility : school;
  distance : number
}.

Record coords := {
  coords_lng : number;
  coords_lat : number;
  placeName : string
}.

(** A feature of the geocoding response. *)
Record place := {
  center : number * number;
  place_name : string;
  text : string
}.

(** A feature of the isochrone response: [geometry.coordinates], a list of
    rings. *)
Record contour := {
  coordinates : list (list point)
}.

(** The parsed body of a response: its [features] property, when present. *)
Record body (A : Type) := { features : option (list A) }.
Arguments features {A} _.

(** What [await fetch(url)] followed by [await response.json()] comes to:
    the promise rejects (transport failure, a [TypeError] with the
    browser's message), or a response arrives with its [ok] flag, status
    and, once parsed, its body. *)
Inductive response (A : Type) :=
| NetworkFailure (message : string)
| HttpResponse (ok : bool) (status : nat) (data : body A).
Arguments NetworkFailure {A} _.
Arguments HttpResponse {A} _ _ _.

Record js_error := {
  error_name : string;
  error_message : string
}.

(** An [async] function settles: it resolves with a value or rejects. *)
Inductive settled (A : Type) :=
| Resolved (v : A)
| Rejected (e : js_error).
Arguments Resolved {A} _.
Arguments Rejected {A} _.

Definition Error (msg : string) : js_error :=
  {| error_name := "Error"; error_message := msg |}.
Definition TypeError (msg : string) : js_error :=
  {| error_name := "TypeError"; error_message := msg |}.

(** ** The two clients *)

Definition geocodeAddress (r : response place) : settled coords :=
  match r with
  | NetworkFailure msg => Rejected (TypeError msg)
  | HttpResponse ok status data =>
      if negb ok
      then Rejected (Error ("Geocoding failed (HTTP " ++ string_of_nat status ++ ")"))
      else match features data with
           | None | Some [] =>
               Rejected (Error "Address not found. Please try a more specific address.")
           | Some (f :: _) =>
               Resolved {| coords_lng := fst (center f);
                           coords_lat := snd (center f);
                           placeName := place_name f |}
           end
  end.

Definition fetchIsochrone (r : response contour) : settled (list contour) :=
  match r with
  | NetworkFailure msg => Rejected (TypeError msg)
  | HttpResponse ok status data =>
      if negb ok
      then Rejected (Error ("Isochrone API failed (HTTP " ++ string_of_nat status ++ ")"))
      else match features data with
           | None | Some [] =>
               Rejected (Error "Could not generate walking distance area for this location.")
           | Some fs => Resolved fs
           end
  end.

(** ** Autocomplete suggestions *)

Record suggestion := {
  s_placeName : string;
  s_text : string;
  s_context : string
}.

Definition suggestion_of_place (f : place) : suggestion :=
  {| s_placeName := place_name f;
     s_text := text f;
     s_context := strip_leading_comma (remove_first (place_name f) (text f)) |}.

Definition fetchSuggestions (r : response place) : settled (list suggestion) :=
  match r with
  | NetworkFailure msg => Rejected (TypeError msg)
  | HttpResponse ok status data =>
      if negb ok then Resolved []
      else Resolved (map suggestion_of_place
                         (match features data with Some fs => fs | None => [] end))
  end.

(** ** Distance and ranking

    [Math.sin], [Math.cos], [Math.sqrt], [Math.atan2] and the [**]
    operator are implementation-approximated in ECMAScript: the engine's
    versions are taken as a parameter. *)

Record MathObject := {
  Math_sin : number -> number;
  Math_cos : number -> number;
  Math_sqrt : number -> number;
  Math_atan2 : number -> number -> number;
  Math_pow : number -> number -> number
}.

Definition Math_PI : number := 0x1.921fb54442d18p+1%float.

Definition ISOCHRONE_MINUTES : nat := 10.
Definition AUTOCOMPLETE_DEBOUNCE_MS : nat := 300.
Definition AUTOCOMPLETE_MIN_CHARS : nat := 3.

(** [Array.prototype.sort(comparefn)]. ECMAScript fixes the result when the
    comparator is consistent: the stable sorted permutation. It is
    modelled by a stable insertion sort, which moves an element to the
    right of another only when the comparator is positive on them.

    When the comparator is not consistent, the order of the result is
    left to the engine, and it is some permutation of the array. The
    comparator of the submit listener, a difference of distances, is not
    consistent exactly when a distance is NaN. On such an array the
    model returns one permutation, which need not be the engine's:
    whatever is stated below about the order of a sorted array is stated
    for distances that are not NaN, and what is stated for all distances
    holds of every permutation. *)
Fixpoint sort_insert {A : Type} (comparefn : A -> A -> number) (x : A) (l : list A)
  : list A :=
  match l with
  | [] => [x]
  | y :: l' =>
      if gt (comparefn x y) 0%float
      then y :: sort_insert comparefn x l'
      else x :: l
  end.

Definition array_sort {A : Type} (comparefn : A -> A -> number) (l : list A) : list A :=
  fold_right (sort_insert comparefn) [] l.

Definition by_distance (a b : ranked_school) : number :=
  (distance a - distance b)%float.

Section Ranking.

Variable M : MathObject.

Definition toRad (deg : number) : number := ((deg * Math_PI) / 180)%float.

Definition haversineDistance (lat1 lon1 lat2 lon2 : number) : number :=
  let R := 6371000%float in
  let dLat := toRad (lat2 - lat1)%float in
  let dLon := toRad (lon2 - lon1)%float in
  let a :=
    (Math_pow M (Math_sin M (dLat / 2)) 2
     + Math_cos M (toRad lat1) * Math_cos M (toRad lat2)
       * Math_pow M (Math_sin M (dLon / 2)) 2)%float in
  let c := (2 * Math_atan2 M (Math_sqrt M a) (Math_sqrt M (1 - a)))%float in
  (R * c)%float.

Definition inside_isochrone (isochronePolygon : list point) (s : school) : bool :=
  pointInPolygon (lng s, lat s) isochronePolygon.

Definition with_distance (c : coords) (s : school) : ranked_school :=
  {| facility := s;
     distance := haversineDistance (coords_lat c) (coords_lng c) (lat s) (lng s) |}.

(** Steps 3 and 4 of the submit handler. *)
Definition rank_schools (SFUSD_SCHOOLS : list school) (c : coords)
           (isochronePolygon : list point) : list ranked_school :=
  array_sort by_distance
    (map (with_distance c)
         (filter (inside_isochrone isochronePolygon) SFUSD_SCHOOLS)).

End Ranking.

(** ** The page: the module's variables and the parts of the DOM it writes *)

(** A run of the submit handler suspended at an [await]. *)
Inductive activation :=
| AwaitGeocode (query : string)
| AwaitIsochrone (query : string) (c : coords).

Record page := {
  (* address input and suggestion list *)
  addressInput_value : string;
  autocompleteList_items : list suggestion;
  autocompleteList_hidden : bool;
  activeAutocompleteIndex : Z;
  (* the debounce timer still to fire, with the query it captured *)
  autocompleteDebounceTimer : option string;
  (* suggestion requests in flight, with the query each was issued for *)
  suggestionRequests : list (nat * string);
  (* blur timeouts still to fire *)
  blurTimeouts : nat;
  (* search results *)
  statusMessage : option (string * bool);
  loadingOverlay_shown : bool;
  resultsList : list ranked_school;
  resultsHeader_hidden : bool;
  noResults_hidden : bool;
  mapLayers : option (coords * list contour * list ranked_school);
  lastSearchedAddress : string;
  (* runs of the submit handler in flight *)
  searches : list (nat * activation);
  next_id : nat
}.

(** The page as the script finds it: nothing shown, nothing in flight. *)
Definition initial_page : page := {|
  addressInput_value := "";
  autocompleteList_items := [];
  autocompleteList_hidden := true;
  activeAutocompleteIndex := (-1)%Z;
  autocompleteDebounceTimer := None;
  suggestionRequests := [];
  blurTimeouts := 0;
  statusMessage := None;
  loadingOverlay_shown := false;
  resultsList := [];
  resultsHeader_hidden := true;
  noResults_hidden := true;
  mapLayers := None;
  lastSearchedAddress := "";
  searches := [];
  next_id := 0
|}.

Definition lookup {A : Type} (id : nat) (l : list (nat * A)) : option A :=
  option_map snd (find (fun e => Nat.eqb (fst e) id) l).

Definition remove_id {A : Type} (id : nat) (l : list (nat * A)) : list (nat * A) :=
  filter (fun e => negb (Nat.eqb (fst e) id)) l.

(** *** Utilities of the script *)

Definition showLoading (show : bool) (s : page) : page :=
  {| addressInput_value := addressInput_value s;
     autocompleteList_items := autocompleteList_items s;
     autocompleteList_hidden := autocompleteList_hidden s;
     activeAutocompleteIndex := activeAutocompleteIndex s;
     autocompleteDebounceTimer := autocompleteDebounceTimer s;
     suggestionRequests := suggestionRequests s;
     blurTimeouts := blurTimeouts s;
     statusMessage := statusMessage s;
     loadingOverlay_shown := show;
     resultsList := resultsList s;
     resultsHeader_hidden := resultsHeader_hidden s;
     noResults_hidden := noResults_hidden s;
     mapLayers := mapLayers s;
     lastSearchedAddress := lastSearchedAddress s;
     searches := searches s;
     next_id := next_id s |}.

Definition setStatus (message : string) (isError : bool) (s : page) : page :=
  {| addressInput_value := addressInput_value s;
     autocompleteList_items := autocompleteList_items s;
     autocompleteList_hidden := autocompleteList_hidden s;
     activeAutocompleteIndex := activeAutocompleteIndex s;
     autocompleteDebounceTimer := autocompleteDebounceTimer s;
     suggestionRequests := suggestionRequests s;
     blurTimeouts := blurTimeouts s;
     statusMessage := match message with
                      | EmptyString => None
                      | _ => Some (message, isError)
                      end;
     loadingOverlay_shown := loadingOverlay_shown s;
     resultsList := resultsList s;
     resultsHeader_hidden := resultsHeader_hidden s;
     noResults_hidden := noResults_hidden s;
     mapLayers := mapLayers s;
     lastSearchedAddress := lastSearchedAddress s;
     searches := searches s;
     next_id := next_id s |}.

(** The three fields of the results panel and the map, set together. *)
Definition set_results (items : list ranked_school) (header_hidden none_hidden : bool)
           (layers : option (coords * list contour * list ranked_school))
           (s : page) : page :=
  {| addressInput_value := addressInput_value s;
     autocompleteList_items := autocompleteList_items s;
     autocompleteList_hidden := autocompleteList_hidden s;
     activeAutocompleteIndex := activeAutocompleteIndex s;
     autocompleteDebounceTimer := autocompleteDebounceTimer s;
     suggestionRequests := suggestionRequests s;
     blurTimeouts := blurTimeouts s;
     statusMessage := statusMessage s;
     loadingOverlay_shown := loadingOverlay_shown s;
     resultsList := items;
     resultsHeader_hidden := header_hidden;
     noResults_hidden := none_hidden;
     mapLayers := layers;
     lastSearchedAddress := lastSearchedAddress s;
     searches := searches s;
     next_id := next_id s |}.

Definition clearPreviousResults (s : page) : page :=
  set_results [] true true None s.

(** [displayOnMap]: markers for the address and each school, the isochrone
    source and its two layers. The calls into the map library are taken to
    return; what [fitBounds] does with the empty bounds of an empty ring
    is not in the source. *)
Definition displayOnMap (c : coords) (isochroneGeoJSON : list contour)
           (schools : list ranked_school) (s : page) : page :=
  set_results (resultsList s) (resultsHeader_hidden s) (noResults_hidden s)
              (Some (c, isochroneGeoJSON, schools)) s.

Definition displayResultsList (schools : list ranked_school) (s : page) : page :=
  match schools with
  | [] => set_results [] true false (mapLayers s) s
  | _ => set_results schools false true (mapLayers s) s
  end.

Definition userMessage (err : js_error) : string :=
  if includes (error_message err) "Address not found" then error_message err
  else if includes (error_message err) "Geocoding failed"
  then "Could not look up that address. Please check your input and try again."
  else if includes (error_message err) "Isochrone"
  then "Could not calculate walking distance from this location. Try a different address."
  else if (String.eqb (error_name err) "TypeError"
           && includes (error_message err) "fetch")%bool
  then "Network error. Please check your internet connection."
  else "An unexpected error occurred. Please try again.".

Definition handleError (err : js_error) (s : page) : page :=
  setStatus (userMessage err) true s.

(** The autocomplete fields, set together. *)
Definition set_autocomplete (value : string) (items : list suggestion) (hidden : bool)
           (active : Z) (s : page) : page :=
  {| addressInput_value := value;
     autocompleteList_items := items;
     autocompleteList_hidden := hidden;
     activeAutocompleteIndex := active;
     autocompleteDebounceTimer := autocompleteDebounceTimer s;
     suggestionRequests := suggestionRequests s;
     blurTimeouts := blurTimeouts s;
     statusMessage := statusMessage s;
     loadingOverlay_shown := loadingOverlay_shown s;
     resultsList := resultsList s;
     resultsHeader_hidden := resultsHeader_hidden s;
     noResults_hidden := noResults_hidden s;
     mapLayers := mapLayers s;
     lastSearchedAddress := lastSearchedAddress s;
     searches := searches s;
     next_id := next_id s |}.

(** Timers and requests in flight, set together. *)
Definition set_pending (timer : option string) (requests : list (nat * string))
           (blurs : nat) (runs : list (nat * activation)) (next : nat)
           (s : page) : page :=
  {| addressInput_value := addressInput_value s;
     autocompleteList_items := autocompleteList_items s;
     autocompleteList_hidden := autocompleteList_hidden s;
     activeAutocompleteIndex := activeAutocompleteIndex s;
     autocompleteDebounceTimer := timer;
     suggestionRequests := requests;
     blurTimeouts := blurs;
     statusMessage := statusMessage s;
     loadingOverlay_shown := loadingOverlay_shown s;
     resultsList := resultsList s;
     resultsHeader_hidden := resultsHeader_hidden s;
     noResults_hidden := noResults_hidden s;
     mapLayers := mapLayers s;
     lastSearchedAddress := lastSearchedAddress s;
     searches := runs;
     next_id := next |}.

Definition set_lastSearchedAddress (q : string) (s : page) : page :=
  {| addressInput_value := addressInput_value s;
     autocompleteList_items := autocompleteList_items s;
     autocompleteList_hidden := autocompleteList_hidden s;
     activeAutocompleteIndex := activeAutocompleteIndex s;
     autocompleteDebounceTimer := autocompleteDebounceTimer s;
     suggestionRequests := suggestionRequests s;
     blurTimeouts := blurTimeouts s;
     statusMessage := statusMessage s;
     loadingOverlay_shown := loadingOverlay_shown s;
     resultsList := resultsList s;
     resultsHeader_hidden := resultsHeader_hidden s;
     noResults_hidden := noResults_hidden s;
     mapLayers := mapLayers s;
     lastSearchedAddress := q;
     searches := searches s;
     next_id := next_id s |}.

(** ** The listeners *)

Inductive event :=
| InputEvent (value : string)       (* the user edited the field: it now holds [value] *)
| DebounceFires                     (* the 300 ms timer runs its callback *)
| SuggestionsSettle (id : nat) (r : response place)
| KeyDown (key : string)
| BlurEvent
| BlurTimeoutFires                  (* the 150 ms timer of the blur listener *)
| MouseDownSuggestion (i : nat)     (* mousedown on the i-th suggestion *)
| SubmitEvent                       (* submit event of the form *)
| GeocodeSettles (id : nat) (r : response place)
| IsochroneSettles (id : nat) (r : response contour).

Definition renderSuggestions (suggestions : list suggestion) (s : page) : page :=
  match suggestions with
  | [] => set_autocomplete (addressInput_value s) [] true (-1)%Z s
  | _ => set_autocomplete (addressInput_value s) suggestions false (-1)%Z s
  end.

(** The submit listener up to its first [await]. *)
Definition on_submit (s : page) : page :=
  let query := trim (addressInput_value s) in
  match query with
  | EmptyString => s
  | _ =>
      let s := set_autocomplete (addressInput_value s) [] true
                                (activeAutocompleteIndex s) s in
      let s := clearPreviousResults s in
      let s := showLoading true s in
      let s := setStatus "" false s in
      let s := set_lastSearchedAddress query s in
      set_pending (autocompleteDebounceTimer s) (suggestionRequests s) (blurTimeouts s)
                  (searches s ++ [(next_id s, AwaitGeocode query)]) (S (next_id s)) s
  end.

(** [selectSuggestion]; [requestSubmit] dispatches the submit event at once. *)
Definition selectSuggestion (placeName : string) (s : page) : page :=
  on_submit (set_autocomplete placeName [] true (-1)%Z s).

Definition on_input (value : string) (s : page) : page :=
  let s := set_autocomplete value (autocompleteList_items s)
                            (autocompleteList_hidden s)
                            (activeAutocompleteIndex s) s in
  (* clearTimeout *)
  let s := set_pending None (suggestionRequests s) (blurTimeouts s)
                       (searches s) (next_id s) s in
  let query := trim value in
  if Nat.ltb (utf16_length query) AUTOCOMPLETE_MIN_CHARS
  then set_autocomplete value [] true (activeAutocompleteIndex s) s
  else set_pending (Some query) (suggestionRequests s) (blurTimeouts s)
                   (searches s) (next_id s) s.

(** The timer callback up to its [await]: the request leaves. *)
Definition on_debounce (s : page) : page :=
  match autocompleteDebounceTimer s with
  | None => s
  | Some query =>
      set_pending None (suggestionRequests s ++ [(next_id s, query)]) (blurTimeouts s)
                  (searches s) (S (next_id s)) s
  end.

(** The rest of the timer callback, once [fetchSuggestions] has settled. A
    rejection is not caught: the callback's promise rejects and nothing
    else runs. *)
Definition on_suggestions (id : nat) (r : response place) (s : page) : page :=
  match lookup id (suggestionRequests s) with
  | None => s
  | Some _ =>
      let s := set_pending (autocompleteDebounceTimer s)
                           (remove_id id (suggestionRequests s)) (blurTimeouts s)
                           (searches s) (next_id s) s in
      match fetchSuggestions r with
      | Resolved suggestions => renderSuggestions suggestions s
      | Rejected _ => s
      end
  end.

Definition on_keydown (key : string) (s : page) : page :=
  if autocompleteList_hidden s then s
  else
    let items := autocompleteList_items s in
    match items with
    | [] => s
    | _ =>
        let active := activeAutocompleteIndex s in
        if String.eqb key "ArrowDown"
        then set_autocomplete (addressInput_value s) items false
               (Z.min (active + 1) (Z.of_nat (List.length items) - 1)) s
        else if String.eqb key "ArrowUp"
        then set_autocomplete (addressInput_value s) items false
               (Z.max (active - 1) 0) s
        else if (String.eqb key "Enter" && (0 <=? active)%Z)%bool
        then match nth_error items (Z.to_nat active) with
             | Some sg => selectSuggestion (s_placeName sg) s
             | None => s   (* reading [dataset] of [undefined] throws *)
             end
        else if String.eqb key "Escape"
        then set_autocomplete (addressInput_value s) items true (-1)%Z s
        else s
    end.

Definition on_blur (s : page) : page :=
  set_pending (autocompleteDebounceTimer s) (suggestionRequests s)
              (S (blurTimeouts s)) (searches s) (next_id s) s.

Definition on_blur_timeout (s : page) : page :=
  match blurTimeouts s with
  | O => s
  | S n =>
      let s := set_pending (autocompleteDebounceTimer s) (suggestionRequests s) n
                           (searches s) (next_id s) s in
      set_autocomplete (addressInput_value s) (autocompleteList_items s) true (-1)%Z s
  end.

Definition on_mousedown (i : nat) (s : page) : page :=
  if autocompleteList_hidden s then s
  else match nth_error (autocompleteList_items s) i with
       | Some sg => selectSuggestion (s_placeName sg) s
       | None => s
       end.

Section Search.

Variable M : MathObject.
Variable SFUSD_SCHOOLS : list school.

Definition undefined_length : js_error :=
  TypeError "Cannot read properties of undefined (reading 'length')".
Definition undefined_forEach : js_error :=
  TypeError "Cannot read properties of undefined (reading 'forEach')".
Definition undefined_geometry : js_error :=
  TypeError "Cannot read properties of undefined (reading 'geometry')".

(** Steps 3, 4 and 8 of the submit listener, after both requests resolved.
    Without a first ring [isochronePolygon] is [undefined]: the filter
    callback throws on the first school, or, with no school at all,
    [displayOnMap] throws after it has drawn. *)
Definition show_results (c : coords) (isochroneGeoJSON : list contour) (s : page) : page :=
  match isochroneGeoJSON with
  | [] => handleError undefined_geometry s
  | f :: _ =>
      match coordinates f with
      | [] =>
          match SFUSD_SCHOOLS with
          | [] => handleError undefined_forEach (displayOnMap c isochroneGeoJSON [] s)
          | _ => handleError undefined_length s
          end
      | isochronePolygon :: _ =>
          let schools := rank_schools M SFUSD_SCHOOLS c isochronePolygon in
          displayResultsList schools (displayOnMap c isochroneGeoJSON schools s)
      end
  end.

Definition on_geocode (id : nat) (r : response place) (s : page) : page :=
  match lookup id (searches s) with
  | Some (AwaitGeocode query) =>
      match geocodeAddress r with
      | Resolved c =>
          set_pending (autocompleteDebounceTimer s) (suggestionRequests s) (blurTimeouts s)
                      (map (fun e => if Nat.eqb (fst e) id
                                     then (id, AwaitIsochrone query c) else e)
                           (searches s))
                      (next_id s) s
      | Rejected err =>
          let s := set_pending (autocompleteDebounceTimer s) (suggestionRequests s)
                               (blurTimeouts s) (remove_id id (searches s)) (next_id s) s in
          showLoading false (handleError err s)
      end
  | _ => s
  end.

Definition on_isochrone (id : nat) (r : response contour) (s : page) : page :=
  match lookup id (searches s) with
  | Some (AwaitIsochrone query c) =>
      let s := set_pending (autocompleteDebounceTimer s) (suggestionRequests s)
                           (blurTimeouts s) (remove_id id (searches s)) (next_id s) s in
      match fetchIsochrone r with
      | Resolved isochroneGeoJSON => showLoading false (show_results c isochroneGeoJSON s)
      | Rejected err => showLoading false (handleError err s)
      end
  | _ => s
  end.

Definition step (s : page) (e : event) : page :=
  match e with
  | InputEvent value => on_input value s
  | DebounceFires => on_debounce s
  | SuggestionsSettle id r => on_suggestions id r s
  | KeyDown key => on_keydown key s
  | BlurEvent => on_blur s
  | BlurTimeoutFires => on_blur_timeout s
  | MouseDownSuggestion i => on_mousedown i s
  | SubmitEvent => on_submit s
  | GeocodeSettles id r => on_geocode id r s
  | IsochroneSettles id r => on_isochrone id r s
  end.

Definition run (s : page) (es : list event) : page := fold_left step es s.

End Search.

(** ** Sample inputs, to evaluate runs on *)

(** A stand-in for the engine's [Math] functions (small-angle
    approximations); the lemmas evaluated with it do not depend on the
    choice. *)
Definition sample_Math : MathObject := {|
  Math_sin := fun x => x;
  Math_cos := fun _ => 1%float;
  Math_sqrt := PrimFloat.sqrt;
  Math_atan2 := fun y x => (y / x)%float;
  Math_pow := fun x _ => (x * x)%float
|}.

Definition sample_schools : list school := [
  {| name := "Mission High School"; address := Some "3750 18th St";
     website := None; lng := 0.5%float; lat := 0.5%float |};
  {| name := "Lowell High School"; address := None;
     website := None; lng := 2%float; lat := 2%float |};
  {| name := "Sanchez Elementary School"; address := Some "325 Sanchez St";
     website := None; lng := 0.25%float; lat := 0.75%float |}
].

Definition sample_places : list place := [
  {| center := (0.5, 0.25)%float;
     place_name := "Mission Street, San Francisco, California";
     text := "Mission Street" |};
  {| center := (0.5, 0.5)%float;
     place_name := "Mission Bay, San Francisco, California";
     text := "Mission Bay" |};
  {| center := (2, 2)%float;
     place_name := "Mission Viejo, California";
     text := "Mission Viejo" |}
].

Definition ok_response {A : Type} (fs : list A) : response A :=
  HttpResponse true 200 {| features := Some fs |}.

(** ** The active index of the suggestion list *)

Definition index_in_range (s : page) : Prop :=
  (-1 <= activeAutocompleteIndex s
   <= Z.of_nat (List.length (autocompleteList_items s)) - 1)%Z.

(** What the listeners maintain: the index never drops below -1, and while
    the list is shown it is not empty and the index is within it. *)
Definition index_invariant (s : page) : Prop :=
  (-1 <= activeAutocompleteIndex s)%Z
  /\ (autocompleteList_hidden s = false ->
      autocompleteList_items s <> []
      /\ (activeAutocompleteIndex s
          <= Z.of_nat (List.length (autocompleteList_items s)) - 1)%Z).

Ltac page_fields :=
  cbn [addressInput_value autocompleteList_items autocompleteList_hidden
       activeAutocompleteIndex autocompleteDebounceTimer suggestionRequests
       blurTimeouts statusMessage loadingOverlay_shown resultsList
       resultsHeader_hidden noResults_hidden mapLayers lastSearchedAddress
       searches next_id
       showLoading setStatus set_results clearPreviousResults displayOnMap
       set_autocomplete set_pending set_lastSearchedAddress handleError
       List.length] in *.

Lemma index_invariant_on_submit (s : page) :
  index_invariant s -> index_invariant (on_submit s).
Proof.
  unfold index_invariant, on_submit. intros [H1 H2].
  destruct (trim (addressInput_value s)); page_fields; [auto|].
  split; [assumption|discriminate].
Qed.

Lemma index_invariant_selectSuggestion (placeName : string) (s : page) :
  index_invariant (selectSuggestion placeName s).
Proof.
  unfold selectSuggestion. apply index_invariant_on_submit.
  unfold index_invariant; page_fields. split; [lia|discriminate].
Qed.

Lemma index_invariant_renderSuggestions (l : list suggestion) (s : page) :
  index_invariant (renderSuggestions l s).
Proof.
  unfold index_invariant, renderSuggestions.
  destruct l; page_fields; (split; [lia|]); [discriminate|].
  intros _. split; [discriminate|lia].
Qed.

Lemma index_invariant_on_keydown (key : string) (s : page) :
  index_invariant s -> index_invariant (on_keydown key s).
Proof.
  intros H. pose proof H as [H1 H2]. unfold on_keydown.
  destruct (autocompleteList_hidden s) eqn:Hh; [assumption|].
  destruct (H2 eq_refl) as [Hne Hle].
  destruct (autocompleteList_items s) as [|sg items] eqn:Hitems; [assumption|].
  destruct (String.eqb key "ArrowDown").
  { unfold index_invariant; page_fields. split; [lia|].
    intros _. split; [discriminate|lia]. }
  destruct (String.eqb key "ArrowUp").
  { unfold index_invariant; page_fields. split; [lia|].
    intros _. split; [discriminate|lia]. }
  destruct (String.eqb key "Enter" && (0 <=? activeAutocompleteIndex s)%Z)%bool.
  { destruct (nth_error _ _); [apply index_invariant_selectSuggestion|].
    unfold index_invariant. rewrite Hh, Hitems. auto. }
  destruct (String.eqb key "Escape").
  { unfold index_invariant; page_fields. split; [lia|discriminate]. }
  unfold index_invariant. rewrite Hh, Hitems. auto.
Qed.

Lemma index_invariant_setStatus (msg : string) (b : bool) (s : page) :
  index_invariant s -> index_invariant (setStatus msg b s).
Proof. intros H. exact H. Qed.

Lemma index_invariant_step (M : MathObject) (SFUSD_SCHOOLS : list school)
      (s : page) (e : event) :
  index_invariant s -> index_invariant (step M SFUSD_SCHOOLS s e).
Proof.
  intros H. pose proof H as [H1 H2]. destruct e; cbn [step].
  - unfold on_input. destruct (Nat.ltb _ _); unfold index_invariant; page_fields.
    + split; [assumption|discriminate].
    + split; assumption.
  - unfold on_debounce. destruct (autocompleteDebounceTimer s); [|assumption].
    exact H.
  - unfold on_suggestions. destruct (lookup id (suggestionRequests s)); [|assumption].
    destruct (fetchSuggestions r); [apply index_invariant_renderSuggestions|exact H].
  - now apply index_invariant_on_keydown.
  - exact H.
  - unfold on_blur_timeout. destruct (blurTimeouts s); [assumption|].
    unfold index_invariant; page_fields. split; [lia|discriminate].
  - unfold on_mousedown. destruct (autocompleteList_hidden s); [assumption|].
    destruct (nth_error _ _); [apply index_invariant_selectSuggestion|assumption].
  - now apply index_invariant_on_submit.
  - unfold on_geocode. destruct (lookup id (searches s)) as [[q|q c]|]; try assumption.
    destruct (geocodeAddress r); exact H.
  - unfold on_isochrone. destruct (lookup id (searches s)) as [[q|q c]|]; try assumption.
    destruct (fetchIsochrone r) as [fs|err]; [|exact H].
    unfold show_results. destruct fs as [|f fs']; [exact H|].
    destruct (coordinates f) as [|ring rings].
    { destruct SFUSD_SCHOOLS; exact H. }
    unfold displayResultsList. destruct (rank_schools _ _ _ _); exact H.
Qed.

Lemma index_invariant_run (M : MathObject) (SFUSD_SCHOOLS : list school)
      (es : list event) (s : page) :
  index_invariant s -> index_invariant (run M SFUSD_SCHOOLS s es).
Proof.
  revert s. induction es as [|e es IH]; intros s H; [exact H|].
  cbn. apply IH. now apply index_invariant_step.
Qed.

(** Three suggestions are shown, ArrowDown is pressed three times, then the
    user shortens the text below three characters. *)
Definition stale_index_events : list event := [
  InputEvent "Mis";
  DebounceFires;
  SuggestionsSettle 0 (ok_response sample_places);
  KeyDown "ArrowDown";
  KeyDown "ArrowDown";
  KeyDown "ArrowDown";
  InputEvent "Mi"
].

(** C10, as stated, fails: the input listener empties the suggestion list
    without resetting the index, which stays at 2 with no suggestion
    rendered. *)
Lemma active_index_counterexample :
  let s := run sample_Math sample_schools initial_page stale_index_events in
  autocompleteList_items s = []
  /\ activeAutocompleteIndex s = 2%Z
  /\ ~ index_in_range s.
Proof.
  cbv zeta. repeat split; try (vm_compute; reflexivity).
  unfold index_in_range.
  replace (activeAutocompleteIndex _) with 2%Z by (vm_compute; reflexivity).
  replace (autocompleteList_items _) with (@nil suggestion) by (vm_compute; reflexivity).
  cbn. lia.
Qed.

(** C10, amended. In every state the listeners can reach, the index is at
    least -1 and, while the suggestion list is shown, it lies in
    [-1, n-1] for the n suggestions rendered; ArrowDown on a shown list
    leaves it at most n-1 and ArrowUp at least 0; rendering a list,
    selecting a suggestion, Escape on a shown list and the blur timeout
    set it to -1. *)
Theorem active_index_in_range_while_shown
        (M : MathObject) (SFUSD_SCHOOLS : list school) (es : list event) :
  let s := run M SFUSD_SCHOOLS initial_page es in
  ((-1 <= activeAutocompleteIndex s)%Z
   /\ (autocompleteList_hidden s = false -> index_in_range s))
  /\ (forall t, autocompleteList_hidden t = false ->
                autocompleteList_items t <> [] ->
        (activeAutocompleteIndex (on_keydown "ArrowDown" t)
         <= Z.of_nat (List.length (autocompleteList_items t)) - 1)%Z
        /\ (0 <= activeAutocompleteIndex (on_keydown "ArrowUp" t))%Z
        /\ activeAutocompleteIndex (on_keydown "Escape" t) = (-1)%Z)
  /\ (forall l t, activeAutocompleteIndex (renderSuggestions l t) = (-1)%Z)
  /\ (forall placeName t,
        activeAutocompleteIndex (selectSuggestion placeName t) = (-1)%Z)
  /\ (forall t, blurTimeouts t <> 0 ->
                activeAutocompleteIndex (on_blur_timeout t) = (-1)%Z).
Proof.
  cbv zeta. split; [|split; [|split; [|split]]].
  - assert (Hinit : index_invariant initial_page).
    { unfold index_invariant; cbn. split; [lia|discriminate]. }
    pose proof (index_invariant_run M SFUSD_SCHOOLS es initial_page Hinit) as [H1 H2].
    split; [exact H1|]. intros Hh. destruct (H2 Hh) as [_ Hle].
    unfold index_in_range. lia.
  - intros t Hh Hne. unfold on_keydown. rewrite Hh.
    destruct (autocompleteList_items t) as [|sg items] eqn:E; [congruence|].
    cbn [String.eqb Ascii.eqb Bool.eqb andb]. page_fields. repeat split; lia.
  - intros l t. unfold renderSuggestions. destruct l; reflexivity.
  - intros placeName t. unfold selectSuggestion, on_submit. page_fields.
    destruct (trim placeName); reflexivity.
  - intros t Hb. unfold on_blur_timeout. destruct (blurTimeouts t); [congruence|].
    reflexivity.
Qed.

(** ** Failures of the suggestion fetch *)

(** C8. On a response that is not [ok], or whose body has no [features],
    [fetchSuggestions] resolves with the empty list, and whatever the
    response the autocomplete callback leaves the status message of the
    page alone; but on a transport failure the rejection of [fetch]
    propagates: [fetchSuggestions] rejects with the [TypeError] instead of
    resolving with the empty list, and the callback, which does not catch
    it, renders nothing (the suggestions shown before stay). *)
Theorem fetchSuggestions_network_failure_rejects :
  (forall status data,
      fetchSuggestions (HttpResponse false status data) = Resolved [])
  /\ (forall status,
         fetchSuggestions (HttpResponse true status {| features := None |})
         = Resolved [])
  /\ (forall id r s, statusMessage (on_suggestions id r s) = statusMessage s)
  /\ (forall msg, fetchSuggestions (NetworkFailure msg) = Rejected (TypeError msg))
  /\ (forall msg id s,
         autocompleteList_items (on_suggestions id (NetworkFailure msg) s)
         = autocompleteList_items s
         /\ autocompleteList_hidden (on_suggestions id (NetworkFailure msg) s)
            = autocompleteList_hidden s).
Proof.
  repeat split; try reflexivity.
  - intros id r s. unfold on_suggestions.
    destruct (lookup id (suggestionRequests s)); [|reflexivity].
    destruct (fetchSuggestions r) as [l|e]; [|reflexivity].
    unfold renderSuggestions. destruct l; reflexivity.
  - unfold on_suggestions. destruct (lookup id (suggestionRequests s)); reflexivity.
  - unfold on_suggestions. destruct (lookup id (suggestionRequests s)); reflexivity.
Qed.

(** ** Suggestions of a superseded request *)

Definition superseded_by_edit_events : list event := [
  InputEvent "Mis";
  DebounceFires;
  InputEvent "Miss";
  SuggestionsSettle 0 (ok_response sample_places)
].

Definition superseded_by_blur_events : list event := [
  InputEvent "Mis";
  DebounceFires;
  BlurEvent;
  BlurTimeoutFires;
  SuggestionsSettle 0 (ok_response sample_places)
].

(** C2, as stated, fails: the request issued for "Mis" resolves after the
    user typed one more character (a newer debounce timer is pending for
    "Miss"), or after the field lost focus and the list was hidden, and
    its suggestions are rendered and shown all the same. *)
Lemma stale_suggestions_counterexample :
  (let s := run sample_Math sample_schools initial_page superseded_by_edit_events in
   addressInput_value s = "Miss"
   /\ autocompleteDebounceTimer s = Some "Miss"
   /\ autocompleteList_hidden s = false
   /\ autocompleteList_items s = map suggestion_of_place sample_places)
  /\ (let s := run sample_Math sample_schools initial_page superseded_by_blur_events in
      autocompleteList_hidden s = false
      /\ autocompleteList_items s = map suggestion_of_place sample_places).
Proof. cbv zeta. repeat split; vm_compute; reflexivity. Qed.

Lemma lookup_remove_other {A : Type} (id id' : nat) (l : list (nat * A)) :
  id' <> id -> lookup id' (remove_id id l) = lookup id' l.
Proof.
  intros Hne. unfold lookup, remove_id. f_equal.
  induction l as [|[k a] l IH]; [reflexivity|]. cbn [filter find fst].
  destruct (Nat.eqb_spec k id) as [->|Hk]; cbn [negb find fst].
  - destruct (Nat.eqb_spec id id'); [congruence|]. exact IH.
  - destruct (Nat.eqb k id'); [reflexivity|]. exact IH.
Qed.

Lemma lookup_app_l {A : Type} (id : nat) (l l' : list (nat * A)) (a : A) :
  lookup id l = Some a -> lookup id (l ++ l') = Some a.
Proof.
  unfold lookup. induction l as [|[k b] l IH]; [discriminate|].
  cbn [app find fst]. destruct (Nat.eqb k id); [auto|]. exact IH.
Qed.

(** C2, amended. An edit of the field cancels the debounce timer that has
    not fired yet and nothing else: the requests already issued stay in
    flight, as they do through blur and its timeout; and when a request
    in flight resolves, its suggestions are rendered, whatever was typed
    or dismissed since it was issued. *)
Theorem suggestions_rendered_when_request_resolves
        (s : page) (id : nat) (query : string) (r : response place)
        (suggestions : list suggestion) :
  lookup id (suggestionRequests s) = Some query ->
  fetchSuggestions r = Resolved suggestions ->
  (autocompleteList_items (on_suggestions id r s) = suggestions
   /\ autocompleteList_hidden (on_suggestions id r s)
      = match suggestions with [] => true | _ => false end
   /\ activeAutocompleteIndex (on_suggestions id r s) = (-1)%Z)
  /\ (forall value,
         suggestionRequests (on_input value s) = suggestionRequests s
         /\ autocompleteDebounceTimer (on_input value s)
            = if Nat.ltb (utf16_length (trim value)) AUTOCOMPLETE_MIN_CHARS
              then None else Some (trim value))
  /\ suggestionRequests (on_blur s) = suggestionRequests s
  /\ suggestionRequests (on_blur_timeout s) = suggestionRequests s
  /\ suggestionRequests (on_keydown "Escape" s) = suggestionRequests s.
Proof.
  intros Hid Hr. split; [|split; [|split; [|split]]].
  - unfold on_suggestions. rewrite Hid, Hr. unfold renderSuggestions.
    destruct suggestions; repeat split; reflexivity.
  - intros value. unfold on_input.
    destruct (Nat.ltb _ _); split; reflexivity.
  - reflexivity.
  - unfold on_blur_timeout. destruct (blurTimeouts s); reflexivity.
  - unfold on_keydown. destruct (autocompleteList_hidden s); [reflexivity|].
    destruct (autocompleteList_items s); reflexivity.
Qed.

Definition suggestions_in_flight : page :=
  run sample_Math sample_schools initial_page
      [InputEvent "Mis"; DebounceFires; InputEvent "Miss"].

Lemma suggestions_rendered_when_request_resolves_witness :
  autocompleteList_items
    (on_suggestions 0 (ok_response sample_places) suggestions_in_flight)
  = map suggestion_of_place sample_places.
Proof.
  apply (suggestions_rendered_when_request_resolves
           suggestions_in_flight 0 "Mis" (ok_response sample_places)
           (map suggestion_of_place sample_places)).
  - vm_compute. reflexivity.
  - reflexivity.
Defined.

(** ** Binary64 order and subtraction

    Valid binary64 numbers are ordered as their [key], an integer, is; this
    gives the usual order facts, and the sign of a rounded difference. *)

Section Binary64.

Local Open Scope Z_scope.

Lemma digits2_pos_size m : digits2_pos m = Pos.size m.
Proof. induction m; cbn; congruence. Qed.

Lemma digits2_pos_bounds m :
  2 ^ (Z.pos (digits2_pos m) - 1) <= Z.pos m < 2 ^ Z.pos (digits2_pos m).
Proof.
  induction m as [m IH|m IH|]; cbn [digits2_pos]; [| |cbn; lia];
    rewrite Pos2Z.inj_succ;
    replace (Z.succ (Z.pos (digits2_pos m)) - 1)
      with (Z.succ (Z.pos (digits2_pos m) - 1)) by lia;
    rewrite !Z.pow_succ_r by lia;
    destruct IH as [IH1 IH2]; revert IH1 IH2;
    generalize (2 ^ (Z.pos (digits2_pos m) - 1)) (2 ^ Z.pos (digits2_pos m));
    lia.
Qed.

Definition emin64 : Z := -1074.

Lemma valid_finite s m e :
  valid_binary (S754_finite s m e) = true ->
  emin64 <= e <= 971 /\ Z.pos m < 2 ^ 53 /\ (emin64 < e -> 2 ^ 52 <= Z.pos m).
Proof.
  unfold valid_binary, SpecFloat.valid_binary, bounded, canonical_mantissa, fexp, SpecFloat.emin, emin64.
  change prec with 53. change emax with 1024.
  intros H. apply andb_true_iff in H. destruct H as [H1 H2].
  apply Z.eqb_eq in H1. apply Z.leb_le in H2.
  pose proof (digits2_pos_bounds m) as [Hlo Hhi].
  set (d := Z.pos (digits2_pos m)) in *.
  assert (Hd : 0 < d) by (unfold d; lia).
  split; [lia|]. split.
  - assert (d <= 53) by lia.
    apply Z.lt_le_trans with (2 ^ d); [exact Hhi|].
    apply Z.pow_le_mono_r; lia.
  - intros He. assert (d = 53) by lia.
    replace 52 with (d - 1) by lia. exact Hlo.
Qed.

Definition magnitude (m : positive) (e : Z) : Z := Z.pos m * 2 ^ (e - emin64).

Definition key_infinity : Z := 2 ^ 2100.

(** An integer that orders the numbers as binary64 comparison does. *)
Definition key (x : spec_float) : Z :=
  match x with
  | S754_zero _ => 0
  | S754_nan => 0
  | S754_infinity s => cond_Zopp s key_infinity
  | S754_finite s m e => cond_Zopp s (magnitude m e)
  end.

Lemma magnitude_bounds s m e :
  valid_binary (S754_finite s m e) = true ->
  0 < magnitude m e < 2 ^ 2098.
Proof.
  intros H. apply valid_finite in H. destruct H as ((He1 & He2) & Hm & _).
  unfold magnitude, emin64 in *.
  assert (0 < 2 ^ (e - -1074)) by (apply Z.pow_pos_nonneg; lia).
  assert (2 ^ (e - -1074) <= 2 ^ 2045) by (apply Z.pow_le_mono_r; lia).
  change (2 ^ 2098) with (2 ^ 53 * 2 ^ 2045).
  split; [nia|].
  apply Z.lt_le_trans with (2 ^ 53 * 2 ^ (e - -1074)).
  - apply Z.mul_lt_mono_pos_r; assumption.
  - apply Z.mul_le_mono_nonneg_l; [lia|assumption].
Qed.

Lemma magnitude_lt_of_exponent s1 m1 e1 s2 m2 e2 :
  valid_binary (S754_finite s1 m1 e1) = true ->
  valid_binary (S754_finite s2 m2 e2) = true ->
  e1 < e2 -> magnitude m1 e1 < magnitude m2 e2.
Proof.
  intros H1 H2 He. apply valid_finite in H1, H2.
  destruct H1 as ((He1 & _) & Hm1 & _), H2 as (_ & _ & Hm2).
  unfold magnitude, emin64 in *.
  specialize (Hm2 ltac:(lia)).
  set (a := e1 - -1074) in *.
  assert (Ha : 0 <= a) by (unfold a; lia).
  assert (Hp : 0 < 2 ^ a) by (apply Z.pow_pos_nonneg; lia).
  assert (Hb : 2 ^ (Z.succ a) <= 2 ^ (e2 - -1074))
    by (apply Z.pow_le_mono_r; unfold a; lia).
  rewrite Z.pow_succ_r in Hb by assumption.
  apply Z.lt_le_trans with (2 ^ 53 * 2 ^ a).
  - apply Z.mul_lt_mono_pos_r; assumption.
  - apply Z.le_trans with (2 ^ 52 * 2 ^ (e2 - -1074)).
    + change (2 ^ 53) with (2 ^ 52 * 2). 
      rewrite <- Z.mul_assoc. apply Z.mul_le_mono_nonneg_l; [lia|exact Hb].
    + apply Z.mul_le_mono_nonneg_r; [lia|exact Hm2].
Qed.

Lemma magnitude_compare s1 m1 e1 s2 m2 e2 :
  valid_binary (S754_finite s1 m1 e1) = true ->
  valid_binary (S754_finite s2 m2 e2) = true ->
  (magnitude m1 e1 ?= magnitude m2 e2)
  = match e1 ?= e2 with
    | Lt => Lt
    | Gt => Gt
    | Eq => Pos.compare_cont Eq m1 m2
    end.
Proof.
  intros H1 H2. destruct (Z.compare_spec e1 e2) as [He|He|He].
  - subst e2. fold (Pos.compare m1 m2). unfold magnitude.
    pose proof (valid_finite _ _ _ H1) as ((He1 & _) & _).
    rewrite <- Zmult_compare_compat_r; [reflexivity|].
    apply Z.lt_gt. apply Z.pow_pos_nonneg; unfold emin64 in *; lia.
  - apply Z.compare_lt_iff. eapply magnitude_lt_of_exponent; eassumption.
  - apply Z.compare_gt_iff. eapply magnitude_lt_of_exponent; eassumption.
Qed.

Definition is_nan_spec (x : spec_float) : bool :=
  match x with S754_nan => true | _ => false end.

Lemma key_infinity_bound s m e :
  valid_binary (S754_finite s m e) = true -> magnitude m e < key_infinity.
Proof.
  intros H. apply magnitude_bounds in H. unfold key_infinity.
  assert (2 ^ 2098 <= 2 ^ 2100) by (apply Z.pow_le_mono_r; lia). lia.
Qed.

Lemma SFcompare_key x y :
  valid_binary x = true -> valid_binary y = true ->
  is_nan_spec x = false -> is_nan_spec y = false ->
  SFcompare x y = Some (key x ?= key y).
Proof.
  intros Hx Hy Nx Ny.
  assert (Hinf : 0 < key_infinity) by (unfold key_infinity; apply Z.pow_pos_nonneg; lia).
  destruct x as [sx|sx| |sx mx ex], y as [sy|sy| |sy my ey];
    try discriminate; cbn [SFcompare key].
  - reflexivity.
  - f_equal. destruct sy; cbn [cond_Zopp]; symmetry;
      [apply Z.compare_gt_iff|apply Z.compare_lt_iff]; lia.
  - pose proof (magnitude_bounds _ _ _ Hy). f_equal.
    destruct sy; cbn [cond_Zopp]; symmetry;
      [apply Z.compare_gt_iff|apply Z.compare_lt_iff]; lia.
  - f_equal. destruct sx; cbn [cond_Zopp]; symmetry;
      [apply Z.compare_lt_iff|apply Z.compare_gt_iff]; lia.
  - f_equal. destruct sx, sy; cbn [cond_Zopp]; symmetry;
      try apply Z.compare_refl;
      [apply Z.compare_lt_iff|apply Z.compare_gt_iff]; lia.
  - pose proof (key_infinity_bound _ _ _ Hy). pose proof (magnitude_bounds _ _ _ Hy).
    f_equal. destruct sx, sy; cbn [cond_Zopp]; symmetry;
      first [apply Z.compare_lt_iff; lia|apply Z.compare_gt_iff; lia].
  - pose proof (magnitude_bounds _ _ _ Hx). f_equal.
    destruct sx; cbn [cond_Zopp]; symmetry;
      [apply Z.compare_lt_iff|apply Z.compare_gt_iff]; lia.
  - pose proof (key_infinity_bound _ _ _ Hx). pose proof (magnitude_bounds _ _ _ Hx).
    f_equal. destruct sx, sy; cbn [cond_Zopp]; symmetry;
      first [apply Z.compare_lt_iff; lia|apply Z.compare_gt_iff; lia].
  - pose proof (magnitude_bounds _ _ _ Hx). pose proof (magnitude_bounds _ _ _ Hy).
    pose proof (magnitude_compare _ _ _ _ _ _ Hx Hy) as Hc.
    f_equal. destruct sx, sy; cbn [cond_Zopp].
    + rewrite Z.compare_opp. 
      rewrite (Z.compare_antisym (magnitude mx ex) (magnitude my ey)), Hc.
      destruct (ex ?= ey); reflexivity.
    + symmetry. apply Z.compare_lt_iff. lia.
    + symmetry. apply Z.compare_gt_iff. lia.
    + rewrite Hc. reflexivity.
Qed.

(** Rounding a positive integer never gives zero. *)

Lemma shr_1_m r : 0 <= shr_m r -> shr_m (shr_1 r) = shr_m r / 2.
Proof.
  destruct r as [m rb sb]. cbn [shr_m shr_1]. intros Hm.
  destruct m as [|[p|p|]|p]; cbn [shr_m]; try lia; try reflexivity.
  - apply Z.div_unique with 1; lia.
  - apply Z.div_unique with 0; lia.
Qed.

Lemma pow2_xO n : 2 ^ Z.pos n~0 = 2 ^ Z.pos n * 2 ^ Z.pos n.
Proof.
  replace (Z.pos n~0) with (Z.pos n + Z.pos n) by lia.
  apply Z.pow_add_r; lia.
Qed.

Lemma pow2_xI n : 2 ^ Z.pos n~1 = 2 * (2 ^ Z.pos n * 2 ^ Z.pos n).
Proof.
  replace (Z.pos n~1) with (Z.succ (Z.pos n~0)) by lia.
  rewrite Z.pow_succ_r by lia. now rewrite pow2_xO.
Qed.

Lemma iter_pos_shr_1_m n r :
  0 <= shr_m r -> shr_m (iter_pos shr_1 n r) = shr_m r / 2 ^ Z.pos n.
Proof.
  revert r. induction n as [n IH|n IH|]; intros r Hr; cbn [iter_pos].
  - assert (H1 : 0 <= shr_m (shr_1 r))
      by (rewrite shr_1_m by assumption; apply Z.div_pos; lia).
    assert (H2 : 0 <= shr_m (iter_pos shr_1 n (shr_1 r)))
      by (rewrite IH by assumption; apply Z.div_pos; [lia|apply Z.pow_pos_nonneg; lia]).
    rewrite IH, IH, shr_1_m by assumption.
    assert (Hp : 0 < 2 ^ Z.pos n) by (apply Z.pow_pos_nonneg; lia).
    rewrite !Z.div_div by lia. now rewrite pow2_xI.
  - assert (H2 : 0 <= shr_m (iter_pos shr_1 n r))
      by (rewrite IH by assumption; apply Z.div_pos; [lia|apply Z.pow_pos_nonneg; lia]).
    rewrite IH, IH by assumption.
    assert (Hp : 0 < 2 ^ Z.pos n) by (apply Z.pow_pos_nonneg; lia).
    rewrite !Z.div_div by lia. now rewrite pow2_xO.
  - rewrite shr_1_m by assumption. reflexivity.
Qed.

Lemma shr_m_record_of_loc m l : shr_m (shr_record_of_loc m l) = m.
Proof. destruct l as [|[]]; reflexivity. Qed.

Lemma shr_fexp_positive m e l :
  0 < m -> emin64 <= e ->
  0 < shr_m (fst (shr_fexp prec emax m e l))
  /\ emin64 <= snd (shr_fexp prec emax m e l).
Proof.
  intros Hm He. unfold shr_fexp, shr.
  destruct m as [|p|p]; try lia. cbn [Zdigits2].
  pose proof (digits2_pos_bounds p) as [Hlo Hhi].
  set (d := Z.pos (digits2_pos p)) in *.
  unfold fexp, SpecFloat.emin. change prec with 53. change emax with 1024.
  unfold emin64 in *.
  destruct (Z.max (d + e - 53) (3 - 1024 - 53) - e) as [|n|n] eqn:En;
    cbn [fst snd]; try (rewrite shr_m_record_of_loc; lia).
  assert (Hn : Z.pos n = d - 53) by lia.
  rewrite iter_pos_shr_1_m by (rewrite shr_m_record_of_loc; lia).
  rewrite shr_m_record_of_loc. split; [|lia].
  apply Z.lt_le_trans with 1; [lia|].
  apply Z.div_le_lower_bound; [apply Z.pow_pos_nonneg; lia|].
  rewrite Z.mul_1_r. apply Z.le_trans with (2 ^ (d - 1)); [|exact Hlo].
  apply Z.pow_le_mono_r; lia.
Qed.

Definition positive_result (x : spec_float) : Prop :=
  (exists m e, x = S754_finite false m e) \/ x = S754_infinity false.

Lemma round_nearest_even_positive m l : 0 < m -> 0 < round_nearest_even m l.
Proof.
  intros H. destruct l as [|[]]; cbn [round_nearest_even]; try lia.
  destruct (Z.even m); lia.
Qed.

Lemma binary_round_aux_positive m e l :
  0 < m -> emin64 <= e ->
  positive_result (binary_round_aux prec emax false m e l).
Proof.
  intros Hm He. unfold binary_round_aux.
  pose proof (shr_fexp_positive m e l Hm He) as [H1 H2].
  destruct (shr_fexp prec emax m e l) as [mrs' e'] eqn:E1. cbn [fst snd] in H1, H2.
  pose proof (round_nearest_even_positive (shr_m mrs') (loc_of_shr_record mrs') H1) as H3.
  pose proof (shr_fexp_positive _ e' loc_Exact H3 H2) as [H4 H5].
  destruct (shr_fexp prec emax (round_nearest_even _ _) e' loc_Exact) as [mrs'' e''].
  cbn [fst snd] in H4, H5.
  destruct (shr_m mrs'') as [|q|q]; try lia.
  destruct (e'' <=? emax - prec); [left; eauto|now right].
Qed.

Lemma binary_round_positive p e :
  emin64 <= e -> positive_result (binary_round prec emax false p e).
Proof.
  intros He. unfold binary_round.
  assert (H : emin64 <= fexp prec emax (Z.pos (digits2_pos p) + e)).
  { unfold fexp, SpecFloat.emin, emin64. change prec with 53. change emax with 1024. lia. }
  revert H. generalize (fexp prec emax (Z.pos (digits2_pos p) + e)). intros F H.
  destruct (shl_align p e F) as [mz ez] eqn:E.
  apply binary_round_aux_positive; [lia|].
  unfold shl_align in E.
  destruct (F - e); injection E as <- <-; assumption.
Qed.

Lemma Pos_iter_xO m d : Z.pos (Pos.iter xO m d) = Z.pos m * 2 ^ Z.pos d.
Proof.
  induction d as [|d IH] using Pos.peano_ind.
  - cbn. lia.
  - rewrite Pos.iter_succ, Pos2Z.inj_succ, Z.pow_succ_r by lia.
    change (Z.pos (Pos.iter xO m d)~0) with (2 * Z.pos (Pos.iter xO m d)).
    rewrite IH. lia.
Qed.

Lemma shl_align_value m e ez :
  ez <= e -> Z.pos (fst (shl_align m e ez)) = Z.pos m * 2 ^ (e - ez).
Proof.
  intros H. unfold shl_align.
  destruct (ez - e) as [|d|d] eqn:E; cbn [fst]; try lia.
  - replace (e - ez) with 0 by lia. lia.
  - rewrite Pos_iter_xO. f_equal. f_equal. lia.
Qed.

Lemma positive_result_ltb x :
  positive_result x -> SFltb (S754_zero false) x = true.
Proof. intros [(m & e & ->)| ->]; reflexivity. Qed.

Lemma binary_round_negative_ltb p e :
  SFltb (S754_zero false) (binary_round prec emax true p e) = false.
Proof.
  unfold binary_round.
  destruct (shl_align p e _) as [mz ez]. unfold binary_round_aux.
  destruct (shr_fexp prec emax (Z.pos mz) ez loc_Exact) as [mrs' e'].
  destruct (shr_fexp prec emax _ e' loc_Exact) as [mrs'' e''].
  destruct (shr_m mrs''); try reflexivity.
  destruct (e'' <=? emax - prec); reflexivity.
Qed.

Lemma SFsub_finite_positive sx mx ex sy my ey :
  valid_binary (S754_finite sx mx ex) = true ->
  valid_binary (S754_finite sy my ey) = true ->
  SFltb (S754_zero false) (SF64sub (S754_finite sx mx ex) (S754_finite sy my ey))
  = (key (S754_finite sy my ey) <? key (S754_finite sx mx ex)).
Proof.
  intros Hx Hy.
  pose proof (valid_finite _ _ _ Hx) as ((Hex & _) & _).
  pose proof (valid_finite _ _ _ Hy) as ((Hey & _) & _).
  unfold SF64sub, SFsub. cbn [key].
  set (ez := Z.min ex ey).
  assert (Hez : emin64 <= ez) by (unfold ez; lia).
  rewrite (shl_align_value mx ex ez), (shl_align_value my ey ez) by (unfold ez; lia).
  assert (Hkx : magnitude mx ex = Z.pos mx * 2 ^ (ex - ez) * 2 ^ (ez - emin64)).
  { unfold magnitude. rewrite <- Z.mul_assoc, <- Z.pow_add_r by (unfold ez; lia).
    f_equal. f_equal. lia. }
  assert (Hky : magnitude my ey = Z.pos my * 2 ^ (ey - ez) * 2 ^ (ez - emin64)).
  { unfold magnitude. rewrite <- Z.mul_assoc, <- Z.pow_add_r by (unfold ez; lia).
    f_equal. f_equal. lia. }
  rewrite Hkx, Hky.
  assert (Hp : 0 < 2 ^ (ez - emin64)) by (apply Z.pow_pos_nonneg; lia).
  set (kx := Z.pos mx * 2 ^ (ex - ez)).
  set (ky := Z.pos my * 2 ^ (ey - ez)).
  set (P := 2 ^ (ez - emin64)) in *.
  assert (Hsign : (cond_Zopp sy (ky * P) <? cond_Zopp sx (kx * P))
                  = (0 <? cond_Zopp sx kx - cond_Zopp sy ky)).
  { assert (Hkx0 : 0 < kx)
      by (unfold kx; apply Z.mul_pos_pos; [lia|apply Z.pow_pos_nonneg; unfold ez; lia]).
    assert (Hky0 : 0 < ky)
      by (unfold ky; apply Z.mul_pos_pos; [lia|apply Z.pow_pos_nonneg; unfold ez; lia]).
    clearbody kx ky P.
    destruct sx, sy; cbn [cond_Zopp];
      match goal with
      | |- _ = (0 <? ?d) => destruct (Z.ltb_spec 0 d) as [H|H]
      end;
      first [apply Z.ltb_lt; nia | apply Z.ltb_ge; nia]. }
  rewrite Hsign.
  destruct (cond_Zopp sx kx - cond_Zopp sy ky) as [|D|D]; cbn [binary_normalize].
  - reflexivity.
  - apply positive_result_ltb. now apply binary_round_positive.
  - apply binary_round_negative_ltb.
Qed.

(** [0 < x - y] exactly when [y < x]. *)
Lemma SFsub_positive x y :
  valid_binary x = true -> valid_binary y = true ->
  SFltb (S754_zero false) (SF64sub x y) = SFltb y x.
Proof.
  intros Hx Hy.
  destruct x as [sx|sx| |sx mx ex], y as [sy|sy| |sy my ey];
    try reflexivity;
    try (destruct sx; reflexivity);
    try (destruct sy; reflexivity);
    try (destruct sx, sy; reflexivity).
  rewrite SFsub_finite_positive by assumption.
  unfold SFltb. rewrite SFcompare_key by (assumption || reflexivity).
  destruct (Z.ltb_spec (key (S754_finite sy my ey)) (key (S754_finite sx mx ex))) as [H|H].
  - apply Z.compare_lt_iff in H. now rewrite H.
  - destruct (Z.compare_spec (key (S754_finite sy my ey)) (key (S754_finite sx mx ex)));
      try reflexivity; lia.
Qed.

Lemma sub_positive_iff_lt (x y : float) :
  (0 <? x - y)%float = (y <? x)%float.
Proof.
  rewrite !ltb_spec, sub_spec.
  change (Prim2SF 0%float) with (S754_zero false).
  apply SFsub_positive; apply Prim2SF_valid.
Qed.

End Binary64.

(** ** Order of numbers that are not NaN *)

Definition number_key (x : number) : Z := key (Prim2SF x).

Lemma is_NaN_spec (x : number) : is_NaN x = is_nan_spec (Prim2SF x).
Proof.
  unfold is_NaN, PrimFloat.is_nan. rewrite eqb_spec. unfold SFeqb.
  destruct (is_nan_spec (Prim2SF x)) eqn:E.
  - destruct (Prim2SF x); try discriminate. reflexivity.
  - rewrite SFcompare_key by (apply Prim2SF_valid || assumption).
    now rewrite Z.compare_refl.
Qed.

Lemma compare_number_key (x y : number) :
  is_NaN x = false -> is_NaN y = false ->
  SFcompare (Prim2SF x) (Prim2SF y) = Some (number_key x ?= number_key y)%Z.
Proof.
  rewrite !is_NaN_spec. intros Hx Hy.
  apply SFcompare_key; (apply Prim2SF_valid || assumption).
Qed.

Lemma lt_number_key (x y : number) :
  is_NaN x = false -> is_NaN y = false ->
  lt x y = (number_key x <? number_key y)%Z.
Proof.
  intros Hx Hy. unfold lt. rewrite ltb_spec. unfold SFltb, Z.ltb.
  rewrite (compare_number_key x y Hx Hy).
  destruct (number_key x ?= number_key y)%Z; reflexivity.
Qed.

Lemma leb_number_key (x y : number) :
  is_NaN x = false -> is_NaN y = false ->
  (x <=? y)%float = (number_key x <=? number_key y)%Z.
Proof.
  intros Hx Hy. rewrite leb_spec. unfold SFleb, Z.leb.
  rewrite (compare_number_key x y Hx Hy).
  destruct (number_key x ?= number_key y)%Z; reflexivity.
Qed.

Lemma eqb_number_key (x y : number) :
  is_NaN x = false -> is_NaN y = false ->
  (x =? y)%float = (number_key x =? number_key y)%Z.
Proof.
  intros Hx Hy. rewrite eqb_spec. unfold SFeqb, Z.eqb.
  rewrite (compare_number_key x y Hx Hy).
  destruct (number_key x) as [|p|p], (number_key y) as [|q|q]; try reflexivity.
  - cbn. fold (Pos.compare p q). destruct (Pos.compare_spec p q) as [->| |].
    + now rewrite Pos.eqb_refl.
    + symmetry. apply Pos.eqb_neq. lia.
    + symmetry. apply Pos.eqb_neq. lia.
  - cbn. fold (Pos.compare p q). rewrite <- Pos.compare_antisym.
    destruct (Pos.compare_spec q p) as [->| |].
    + now rewrite Pos.eqb_refl.
    + symmetry. apply Pos.eqb_neq. lia.
    + symmetry. apply Pos.eqb_neq. lia.
Qed.

Lemma eqb_NaN_l (x y : number) : is_NaN x = true -> (x =? y)%float = false.
Proof.
  rewrite is_NaN_spec, eqb_spec. intros H.
  destruct (Prim2SF x); try discriminate. reflexivity.
Qed.

Lemma eqb_NaN_r (x y : number) : is_NaN y = true -> (x =? y)%float = false.
Proof.
  rewrite is_NaN_spec, eqb_spec. intros H.
  destruct (Prim2SF y); try discriminate. now destruct (Prim2SF x).
Qed.

(** ** The stable sort *)

Section StableSort.

Context {A : Type}.
Variable comparefn : A -> A -> number.
Variable k : A -> Z.
Variable P : A -> Prop.

(** The comparator is consistent on the elements that satisfy [P]: it is
    positive exactly when the first element has the larger key. *)
Hypothesis comparefn_key :
  forall x y, P x -> P y -> gt (comparefn x y) 0%float = (k y <? k x)%Z.

Definition key_le (a b : A) : Prop := (k a <= k b)%Z.
Definition same_key (z : Z) (a : A) : bool := (k a =? z)%Z.

Lemma sort_insert_Permutation (x : A) (l : list A) :
  Permutation (sort_insert comparefn x l) (x :: l).
Proof.
  induction l as [|y l IH]; cbn [sort_insert]; [reflexivity|].
  destruct (gt (comparefn x y) 0%float); [|reflexivity].
  rewrite IH. apply perm_swap.
Qed.

Lemma array_sort_Permutation (l : list A) : Permutation (array_sort comparefn l) l.
Proof.
  induction l as [|x l IH]; cbn [array_sort fold_right]; [reflexivity|].
  fold (array_sort comparefn l). rewrite sort_insert_Permutation. now constructor.
Qed.

Lemma array_sort_Forall (l : list A) : Forall P l -> Forall P (array_sort comparefn l).
Proof.
  intros H. apply Forall_forall. intros x Hx.
  rewrite Forall_forall in H. apply H.
  now apply (Permutation_in _ (array_sort_Permutation l)).
Qed.

Lemma sort_insert_sorted (x : A) (l : list A) :
  P x -> Forall P l ->
  StronglySorted key_le l -> StronglySorted key_le (sort_insert comparefn x l).
Proof.
  intros Px Pl Hs. induction Hs as [|y l Hs IH Hy]; cbn [sort_insert].
  - repeat constructor.
  - inversion Pl as [|? ? Py Pl']; subst.
    rewrite (comparefn_key x y Px Py).
    destruct (Z.ltb_spec (k y) (k x)) as [Hlt|Hge].
    + constructor; [now apply IH|].
      apply Forall_forall. intros z Hz.
      apply (Permutation_in _ (sort_insert_Permutation x l)) in Hz.
      destruct Hz as [<-|Hz]; [unfold key_le; lia|].
      rewrite Forall_forall in Hy. now apply Hy.
    + constructor; [now constructor|].
      constructor; [exact Hge|].
      apply Forall_forall. intros z Hz. rewrite Forall_forall in Hy.
      specialize (Hy z Hz). unfold key_le in *. lia.
Qed.

Lemma array_sort_sorted (l : list A) :
  Forall P l -> StronglySorted key_le (array_sort comparefn l).
Proof.
  induction l as [|x l IH]; intros Pl; cbn [array_sort fold_right]; [constructor|].
  fold (array_sort comparefn l). inversion Pl; subst.
  apply sort_insert_sorted; auto using array_sort_Forall.
Qed.

Lemma sort_insert_stable (z : Z) (x : A) (l : list A) :
  P x -> Forall P l ->
  filter (same_key z) (sort_insert comparefn x l) = filter (same_key z) (x :: l).
Proof.
  intros Px Pl. induction l as [|y l IH]; cbn [sort_insert]; [reflexivity|].
  inversion Pl as [|? ? Py Pl']; subst.
  rewrite (comparefn_key x y Px Py).
  destruct (Z.ltb_spec (k y) (k x)) as [Hlt|Hge]; [|reflexivity].
  cbn [filter]. rewrite (IH Pl'). cbn [filter]. unfold same_key.
  destruct (Z.eqb_spec (k y) z), (Z.eqb_spec (k x) z); try reflexivity. lia.
Qed.

Lemma array_sort_stable (z : Z) (l : list A) :
  Forall P l ->
  filter (same_key z) (array_sort comparefn l) = filter (same_key z) l.
Proof.
  induction l as [|x l IH]; intros Pl; cbn [array_sort fold_right]; [reflexivity|].
  fold (array_sort comparefn l). inversion Pl; subst.
  rewrite sort_insert_stable by auto using array_sort_Forall.
  cbn [filter]. now rewrite IH.
Qed.

(** Two sorted lists with the same elements of each key, in the same
    order, are equal. *)
Lemma sorted_stable_unique (l1 l2 : list A) :
  StronglySorted key_le l1 -> StronglySorted key_le l2 ->
  (forall z, filter (same_key z) l1 = filter (same_key z) l2) ->
  l1 = l2.
Proof.
  intros H1. revert l2. induction H1 as [|a t1 Ht1 IH Ha]; intros l2 H2 Hf.
  - destruct l2 as [|b t2]; [reflexivity|].
    specialize (Hf (k b)). cbn [filter] in Hf. unfold same_key in Hf.
    rewrite Z.eqb_refl in Hf. discriminate.
  - destruct l2 as [|b t2].
    + specialize (Hf (k a)). cbn [filter] in Hf. unfold same_key in Hf.
      rewrite Z.eqb_refl in Hf. discriminate.
    + inversion H2 as [|? ? Ht2 Hb]; subst.
      assert (Hab : (k a <= k b)%Z).
      { pose proof (Hf (k b)) as Hfb. 
        assert (In b (filter (same_key (k b)) (a :: t1))) as Hin.
        { rewrite Hfb. apply filter_In. split; [now left|]. apply Z.eqb_refl. }
        apply filter_In in Hin. destruct Hin as [[<-|Hin] _]; [lia|].
        rewrite Forall_forall in Ha. exact (Ha b Hin). }
      assert (Hba : (k b <= k a)%Z).
      { pose proof (Hf (k a)) as Hfa. 
        assert (In a (filter (same_key (k a)) (b :: t2))) as Hin.
        { rewrite <- Hfa. apply filter_In. split; [now left|]. apply Z.eqb_refl. }
        apply filter_In in Hin. destruct Hin as [[<-|Hin] _]; [lia|].
        rewrite Forall_forall in Hb. exact (Hb a Hin). }
      assert (Hk : k a = k b) by lia.
      pose proof (Hf (k a)) as Hfa. cbn [filter] in Hfa. unfold same_key in Hfa.
      rewrite Hk, !Z.eqb_refl in Hfa. injection Hfa as <- Hfa. f_equal.
      apply IH; [assumption|]. intros z.
      specialize (Hf z). cbn [filter] in Hf. fold (same_key z) in Hfa.
      destruct (same_key z a) eqn:Ez; [|exact Hf].
      now injection Hf.
Qed.

End StableSort.

(** ** Filter and rank *)

Definition comparable (r : ranked_school) : Prop := is_NaN (distance r) = false.

Definition distance_le (a b : ranked_school) : Prop :=
  (distance a <=? distance b)%float = true.

Definition at_distance (d : number) (r : ranked_school) : bool :=
  (distance r =? d)%float.

Definition distance_key (r : ranked_school) : Z := number_key (distance r).

Lemma by_distance_key (x y : ranked_school) :
  comparable x -> comparable y ->
  gt (by_distance x y) 0%float = (distance_key y <? distance_key x)%Z.
Proof.
  intros Hx Hy. unfold gt, by_distance. rewrite sub_positive_iff_lt.
  now apply lt_number_key.
Qed.

Lemma StronglySorted_change {A : Type} (R R' : A -> A -> Prop) (Q : A -> Prop)
      (l : list A) :
  (forall a b, Q a -> Q b -> R a b -> R' a b) ->
  Forall Q l -> StronglySorted R l -> StronglySorted R' l.
Proof.
  intros HR HQ Hs. induction Hs as [|a l Hs IH Ha]; [constructor|].
  inversion HQ as [|? ? Qa Ql]; subst. constructor; [now apply IH|].
  rewrite Forall_forall in *. intros b Hb. apply HR; auto.
Qed.

Lemma at_distance_same_key (d : number) (l : list ranked_school) :
  is_NaN d = false -> Forall comparable l ->
  filter (at_distance d) l = filter (same_key distance_key (number_key d)) l.
Proof.
  intros Hd Hl. apply filter_ext_in. intros r Hr.
  rewrite Forall_forall in Hl. unfold at_distance, same_key, distance_key.
  apply eqb_number_key; auto. now apply Hl.
Qed.

Lemma at_distance_NaN (d : number) (l : list ranked_school) :
  is_NaN d = true -> filter (at_distance d) l = [].
Proof.
  intros Hd. induction l as [|r l IH]; [reflexivity|]. cbn [filter].
  unfold at_distance at 1. now rewrite eqb_NaN_r.
Qed.

Lemma filter_Permutation {A : Type} (f : A -> bool) (l l' : list A) :
  Permutation l l' -> Permutation (filter f l) (filter f l').
Proof.
  induction 1 as [|x l l' _ IH|x y l|l l' l'' _ IH1 _ IH2]; cbn [filter].
  - constructor.
  - destruct (f x); [now constructor|assumption].
  - destruct (f x), (f y); try reflexivity. apply perm_swap.
  - now transitivity (filter f l').
Qed.

(** When the lists hold the same elements, agreeing on every distance is
    agreeing on every key. *)
Lemma same_key_of_at_distance (l l' : list ranked_school) (z : Z) :
  Forall comparable l -> Permutation l' l ->
  (forall d, filter (at_distance d) l' = filter (at_distance d) l) ->
  filter (same_key distance_key z) l' = filter (same_key distance_key z) l.
Proof.
  intros Hl Hp Hf.
  assert (Hl' : Forall comparable l').
  { rewrite Forall_forall in *. intros r Hr. apply Hl.
    now apply (Permutation_in _ Hp). }
  destruct (filter (same_key distance_key z) l) as [|r0 t] eqn:E.
  - apply Permutation_nil. symmetry. rewrite <- E. now apply filter_Permutation.
  - assert (Hr0 : In r0 (filter (same_key distance_key z) l))
      by (rewrite E; now left).
    apply filter_In in Hr0. destruct Hr0 as [Hin Hz].
    unfold same_key in Hz. apply Z.eqb_eq in Hz. subst z.
    assert (Hc : comparable r0) by (rewrite Forall_forall in Hl; now apply Hl).
    rewrite <- E. unfold distance_key at 2 4.
    rewrite <- !at_distance_same_key by assumption. apply Hf.
Qed.

(** The schools of a run: those inside its ring, each with its distance
    from its coordinate, in the order of the catalogue. *)
Definition enclosed_schools (M : MathObject) (SFUSD_SCHOOLS : list school)
           (c : coords) (ring : list point) : list ranked_school :=
  map (with_distance M c) (filter (inside_isochrone ring) SFUSD_SCHOOLS).

Lemma rank_schools_Permutation (M : MathObject) (SFUSD_SCHOOLS : list school)
      (c : coords) (ring : list point) :
  Permutation (rank_schools M SFUSD_SCHOOLS c ring)
              (enclosed_schools M SFUSD_SCHOOLS c ring).
Proof. apply array_sort_Permutation. Qed.

(** The ranked list, when no distance is NaN: the schools inside the ring
    and no other, in ascending order of distance, those at the same
    distance in the order of the catalogue; no other arrangement of them
    is sorted and stable. *)
Lemma rank_schools_ranked (M : MathObject) (SFUSD_SCHOOLS : list school) (c : coords)
      (isochronePolygon : list point) :
  Forall comparable (enclosed_schools M SFUSD_SCHOOLS c isochronePolygon) ->
  Permutation (rank_schools M SFUSD_SCHOOLS c isochronePolygon)
              (enclosed_schools M SFUSD_SCHOOLS c isochronePolygon)
  /\ (forall s, In s (map facility (rank_schools M SFUSD_SCHOOLS c isochronePolygon))
                <-> In s SFUSD_SCHOOLS
                    /\ pointInPolygon (lng s, lat s) isochronePolygon = true)
  /\ StronglySorted distance_le (rank_schools M SFUSD_SCHOOLS c isochronePolygon)
  /\ (forall d, filter (at_distance d) (rank_schools M SFUSD_SCHOOLS c isochronePolygon)
                = filter (at_distance d)
                         (enclosed_schools M SFUSD_SCHOOLS c isochronePolygon))
  /\ (forall l,
         Permutation l (enclosed_schools M SFUSD_SCHOOLS c isochronePolygon) ->
         StronglySorted distance_le l ->
         (forall d, filter (at_distance d) l
                    = filter (at_distance d)
                             (enclosed_schools M SFUSD_SCHOOLS c isochronePolygon)) ->
         l = rank_schools M SFUSD_SCHOOLS c isochronePolygon).
Proof.
  unfold rank_schools, enclosed_schools.
  set (annotated := map (with_distance M c)
                        (filter (inside_isochrone isochronePolygon) SFUSD_SCHOOLS)).
  intros Hc.
  pose proof (array_sort_Permutation by_distance annotated) as Hperm.
  assert (Hcs : Forall comparable (array_sort by_distance annotated))
    by (apply array_sort_Forall; exact Hc).
  assert (Hsorted : StronglySorted (key_le distance_key) (array_sort by_distance annotated))
    by (apply (array_sort_sorted by_distance distance_key comparable by_distance_key);
        exact Hc).
  assert (Hstable : forall d, filter (at_distance d) (array_sort by_distance annotated)
                              = filter (at_distance d) annotated).
  { intros d. destruct (is_NaN d) eqn:Ed.
    - now rewrite !at_distance_NaN.
    - rewrite !at_distance_same_key by assumption.
      apply (array_sort_stable by_distance distance_key comparable by_distance_key).
      exact Hc. }
  split; [exact Hperm|]. split; [|split; [|split]].
  - intros s. split.
    + intros Hin. apply (Permutation_in _ (Permutation_map facility Hperm)) in Hin.
      unfold annotated in Hin. rewrite map_map in Hin. cbn [facility with_distance] in Hin.
      rewrite map_id in Hin. apply filter_In in Hin. exact Hin.
    + intros Hin.
      apply (Permutation_in _ (Permutation_sym (Permutation_map facility Hperm))).
      unfold annotated. rewrite map_map. cbn [facility with_distance].
      rewrite map_id. apply filter_In. exact Hin.
  - apply (StronglySorted_change (key_le distance_key) distance_le comparable);
      [|assumption|assumption].
    intros a b Ha Hb Hab. unfold distance_le, key_le, distance_key in *.
    rewrite leb_number_key by assumption. now apply Z.leb_le.
  - exact Hstable.
  - intros l Hl Hs Hf.
    assert (Hcl : Forall comparable l).
    { rewrite Forall_forall in *. intros r Hr. apply Hc.
      now apply (Permutation_in _ Hl). }
    apply (sorted_stable_unique distance_key).
    + apply (StronglySorted_change distance_le (key_le distance_key) comparable);
        [|assumption|assumption].
      intros a b Ha Hb Hab. unfold distance_le, key_le, distance_key in *.
      rewrite leb_number_key in Hab by assumption. now apply Z.leb_le.
    + exact Hsorted.
    + intros z.
      rewrite (same_key_of_at_distance annotated l z Hc Hl Hf).
      symmetry. apply (same_key_of_at_distance annotated _ z Hc Hperm Hstable).
Qed.

(** When no distance is NaN, the ranked list holds exactly the
    facilities whose coordinate passes [pointInPolygon] against the
    isochrone ring, each with its haversine distance from the resolved
    coordinate, in ascending order of distance, facilities at equal
    distance staying in the order of the candidate list; and it is the
    only arrangement of these facilities that is sorted and stable, so
    the same inputs always give the same ranked order. *)
Theorem rank_schools_filtered_sorted_stable
        (M : MathObject) (SFUSD_SCHOOLS : list school) (c : coords)
        (isochronePolygon : list point) :
  let candidates :=
    filter (fun s => pointInPolygon (lng s, lat s) isochronePolygon) SFUSD_SCHOOLS in
  let annotated :=
    map (fun s => {| facility := s;
                     distance := haversineDistance M (coords_lat c) (coords_lng c)
                                                   (lat s) (lng s) |})
        candidates in
  let ranked := rank_schools M SFUSD_SCHOOLS c isochronePolygon in
  Forall (fun r => is_NaN (distance r) = false) annotated ->
  Permutation ranked annotated
  /\ (forall s, In s (map facility ranked)
                <-> In s SFUSD_SCHOOLS
                    /\ pointInPolygon (lng s, lat s) isochronePolygon = true)
  /\ StronglySorted (fun a b => (distance a <=? distance b)%float = true) ranked
  /\ (forall d, filter (fun r => (distance r =? d)%float) ranked
                = filter (fun r => (distance r =? d)%float) annotated)
  /\ (forall l,
         Permutation l annotated ->
         StronglySorted (fun a b => (distance a <=? distance b)%float = true) l ->
         (forall d, filter (fun r => (distance r =? d)%float) l
                    = filter (fun r => (distance r =? d)%float) annotated) ->
         l = ranked).
Proof. exact (rank_schools_ranked M SFUSD_SCHOOLS c isochronePolygon). Qed.

Definition mission_street_coords : coords :=
  {| coords_lng := 0.5%float; coords_lat := 0.25%float;
     placeName := "Mission Street, San Francisco, California" |}.

Lemma rank_schools_filtered_sorted_stable_witness :
  StronglySorted (fun a b => (distance a <=? distance b)%float = true)
                 (rank_schools sample_Math sample_schools mission_street_coords
                               unit_square).
Proof.
  pose proof (rank_schools_filtered_sorted_stable
                sample_Math sample_schools mission_street_coords unit_square) as H.
  cbv zeta in H. apply H.
  vm_compute. repeat constructor.
Defined.

(** ** Outcome of a search run *)

Lemma userMessage_not_empty (err : js_error) : userMessage err <> "".
Proof.
  unfold userMessage.
  destruct (includes (error_message err) "Address not found") eqn:E.
  - intros H. rewrite H in E. discriminate E.
  - repeat match goal with
           | |- context [if ?b then _ else _] => destruct b
           end; discriminate.
Qed.

Lemma statusMessage_handleError (err : js_error) (s : page) :
  statusMessage (handleError err s) = Some (userMessage err, true).
Proof.
  unfold handleError, setStatus; cbn [statusMessage].
  pose proof (userMessage_not_empty err) as H.
  destruct (userMessage err); [congruence|reflexivity].
Qed.

Lemma lookup_remove_same {A : Type} (id : nat) (l : list (nat * A)) :
  lookup id (remove_id id l) = None.
Proof.
  unfold lookup, remove_id. induction l as [|[k a] l IH]; [reflexivity|].
  cbn [filter fst]. destruct (Nat.eqb_spec k id) as [->|Hk]; cbn [negb]; [exact IH|].
  cbn [find fst]. destruct (Nat.eqb_spec k id); [congruence|exact IH].
Qed.

Lemma lookup_replace {A : Type} (id : nat) (a b : A) (l : list (nat * A)) :
  lookup id l = Some a ->
  lookup id (map (fun e => if Nat.eqb (fst e) id then (id, b) else e) l) = Some b.
Proof.
  unfold lookup. induction l as [|[k x] l IH]; [discriminate|].
  cbn [map find fst]. destruct (Nat.eqb_spec k id) as [->|Hk]; cbn [find fst].
  - now rewrite Nat.eqb_refl.
  - destruct (Nat.eqb_spec k id); [congruence|exact IH].
Qed.

Lemma lookup_replace_other {A : Type} (id id' : nat) (b : A) (l : list (nat * A)) :
  id' <> id ->
  lookup id' (map (fun e => if Nat.eqb (fst e) id then (id, b) else e) l) = lookup id' l.
Proof.
  intros Hne. unfold lookup. f_equal.
  induction l as [|[k x] l IH]; [reflexivity|].
  cbn [map find fst]. destruct (Nat.eqb_spec k id) as [->|Hk]; cbn [find fst].
  - destruct (Nat.eqb_spec id id'); [congruence|exact IH].
  - destruct (Nat.eqb k id'); [reflexivity|exact IH].
Qed.

Lemma on_submit_keeps_searches (s : page) (id : nat) (a : activation) :
  lookup id (searches s) = Some a -> lookup id (searches (on_submit s)) = Some a.
Proof.
  intros Hid. unfold on_submit. destruct (trim (addressInput_value s)); [exact Hid|].
  page_fields. now apply lookup_app_l.
Qed.

(** No event takes a run out of flight but the settling of its own
    requests. *)
Lemma search_stays_in_flight (M : MathObject) (SFUSD_SCHOOLS : list school)
      (s : page) (id : nat) (a : activation) (e : event) :
  lookup id (searches s) = Some a ->
  (forall r, e <> GeocodeSettles id r) ->
  (forall r, e <> IsochroneSettles id r) ->
  lookup id (searches (step M SFUSD_SCHOOLS s e)) = Some a.
Proof.
  intros Hid Hg Hi.
  destruct e as [v | | id' r | k | | | i | | id' r | id' r]; cbn [step].
  - unfold on_input. destruct (Nat.ltb _ _); exact Hid.
  - unfold on_debounce. destruct (autocompleteDebounceTimer s); exact Hid.
  - unfold on_suggestions. destruct (lookup id' (suggestionRequests s)); [|exact Hid].
    destruct (fetchSuggestions r) as [l|]; [|exact Hid].
    unfold renderSuggestions. destruct l; exact Hid.
  - unfold on_keydown. destruct (autocompleteList_hidden s); [exact Hid|].
    destruct (autocompleteList_items s) as [|sg l] eqn:E; [exact Hid|].
    destruct (String.eqb k "ArrowDown"); [exact Hid|].
    destruct (String.eqb k "ArrowUp"); [exact Hid|].
    destruct (String.eqb k "Enter" && (0 <=? activeAutocompleteIndex s)%Z)%bool.
    + destruct (nth_error _ _); [|exact Hid].
      unfold selectSuggestion. now apply on_submit_keeps_searches.
    + destruct (String.eqb k "Escape"); exact Hid.
  - exact Hid.
  - unfold on_blur_timeout. destruct (blurTimeouts s); exact Hid.
  - unfold on_mousedown. destruct (autocompleteList_hidden s); [exact Hid|].
    destruct (nth_error _ _); [|exact Hid].
    unfold selectSuggestion. now apply on_submit_keeps_searches.
  - now apply on_submit_keeps_searches.
  - assert (Hne : id' <> id) by (intros ->; exact (Hg r eq_refl)).
    unfold on_geocode. destruct (lookup id' (searches s)) as [[q|q c]|]; try exact Hid.
    destruct (geocodeAddress r) as [c|err].
    + page_fields. now rewrite lookup_replace_other by auto.
    + unfold showLoading, handleError, setStatus.
      destruct (userMessage err); page_fields; now rewrite lookup_remove_other by auto.
  - assert (Hne : id' <> id) by (intros ->; exact (Hi r eq_refl)).
    unfold on_isochrone. destruct (lookup id' (searches s)) as [[q|q c]|]; try exact Hid.
    destruct (fetchIsochrone r) as [g|err].
    + unfold show_results.
      destruct g as [|f fs]; [|destruct (coordinates f) as [|ring rings]];
        [| destruct SFUSD_SCHOOLS |];
        unfold showLoading, handleError, setStatus, displayResultsList;
        repeat match goal with
               | |- context [match ?x with _ => _ end] => destruct x
               end; page_fields; now rewrite lookup_remove_other by auto.
    + unfold showLoading, handleError, setStatus.
      destruct (userMessage err); page_fields; now rewrite lookup_remove_other by auto.
Qed.

(** What the page shows once the isochrone request of a run has resolved
    with a first ring. *)
Lemma isochrone_resolved
      (M : MathObject) (SFUSD_SCHOOLS : list school) (s : page) (id : nat)
      (query : string) (c : coords) (r : response contour)
      (f : contour) (fs : list contour) (ring : list point) (rings : list (list point)) :
  lookup id (searches s) = Some (AwaitIsochrone query c) ->
  fetchIsochrone r = Resolved (f :: fs) ->
  coordinates f = ring :: rings ->
  let s' := on_isochrone M SFUSD_SCHOOLS id r s in
  resultsList s' = rank_schools M SFUSD_SCHOOLS c ring
  /\ mapLayers s' = Some (c, f :: fs, resultsList s')
  /\ resultsHeader_hidden s' = match resultsList s' with [] => true | _ => false end
  /\ noResults_hidden s' = match resultsList s' with [] => false | _ => true end
  /\ statusMessage s' = statusMessage s
  /\ loadingOverlay_shown s' = false
  /\ lastSearchedAddress s' = lastSearchedAddress s
  /\ lookup id (searches s') = None.
Proof.
  intros Hid Hr Hring. cbv zeta.
  unfold on_isochrone. rewrite Hid, Hr. unfold show_results. rewrite Hring.
  unfold displayResultsList.
  destruct (rank_schools M SFUSD_SCHOOLS c ring); page_fields;
    repeat split; try reflexivity; apply lookup_remove_same.
Qed.

(** What the page shows once a request of a run has failed. *)
Lemma run_failed (err : js_error) (s : page) (id : nat) :
  let s' := showLoading false
              (handleError err
                 (set_pending (autocompleteDebounceTimer s) (suggestionRequests s)
                              (blurTimeouts s) (remove_id id (searches s))
                              (next_id s) s)) in
  statusMessage s' = Some (userMessage err, true)
  /\ loadingOverlay_shown s' = false
  /\ resultsList s' = resultsList s
  /\ mapLayers s' = mapLayers s
  /\ lookup id (searches s') = None.
Proof.
  cbv zeta. split; [|repeat split; apply lookup_remove_same].
  unfold showLoading; cbn [statusMessage]. apply statusMessage_handleError.
Qed.

Definition market_street : place :=
  {| center := (2, 2)%float;
     place_name := "Market Street, San Francisco, California";
     text := "Market Street" |}.

Definition square_around_2_2 : list point :=
  [(1.5, 1.5); (2.5, 1.5); (2.5, 2.5); (1.5, 2.5)]%float.

(** Query A ("Market St") is submitted; while its geocoding request is in
    flight, suggestions for the typed text arrive and the user picks the
    first one, which submits query B ("Mission Street, ..."). *)
Definition two_searches_events : list event := [
  InputEvent "Market St";
  SubmitEvent;
  DebounceFires;
  SuggestionsSettle 1 (ok_response sample_places);
  MouseDownSuggestion 0
].

(** A's geocoding resolves while B is in flight; B's two requests resolve
    next, and A's isochrone request last. *)
Definition overlapping_searches_events : list event :=
  two_searches_events ++ [
    GeocodeSettles 0 (ok_response [market_street]);
    GeocodeSettles 2 (ok_response sample_places);
    IsochroneSettles 2 (ok_response [{| coordinates := [unit_square] |}]);
    IsochroneSettles 0 (ok_response [{| coordinates := [square_around_2_2] |}])
  ].

(** B's geocoding fails; A's two requests resolve after that. *)
Definition failure_then_result_events : list event :=
  two_searches_events ++ [
    GeocodeSettles 2 (HttpResponse false 500 {| features := None |});
    GeocodeSettles 0 (ok_response [market_street]);
    IsochroneSettles 0 (ok_response [{| coordinates := [square_around_2_2] |}])
  ].

(** C1, as stated, fails. After the later submission B has delivered its
    two schools, the superseded run A, whose two requests both resolved
    after B was submitted, delivers its own result: the page ends up
    showing A's school around A's address while the last submitted
    address is B's. And when B fails and A resolves after it, the page
    shows A's school under B's error message. *)
Lemma stale_search_counterexample :
  (let s := run sample_Math sample_schools initial_page
                (firstn 8 overlapping_searches_events) in
   map (fun r => name (facility r)) (resultsList s)
   = ["Mission High School"; "Sanchez Elementary School"])
  /\ (let s := run sample_Math sample_schools initial_page
                   overlapping_searches_events in
      lastSearchedAddress s = "Mission Street, San Francisco, California"
      /\ map (fun r => name (facility r)) (resultsList s) = ["Lowell High School"]
      /\ option_map (fun l => placeName (fst (fst l))) (mapLayers s)
         = Some "Market Street, San Francisco, California")
  /\ (let s := run sample_Math sample_schools initial_page
                   failure_then_result_events in
      lastSearchedAddress s = "Mission Street, San Francisco, California"
      /\ statusMessage s
         = Some ("Could not look up that address. Please check your input and try again.",
                 true)
      /\ map (fun r => name (facility r)) (resultsList s) = ["Lowell High School"]).
Proof.
  cbv zeta.
  split; [vm_compute; reflexivity|].
  split; [split; [vm_compute; reflexivity|split; vm_compute; reflexivity]|].
  split; [vm_compute; reflexivity|split; vm_compute; reflexivity].
Qed.

(** C1, amended. A submission neither cancels nor supersedes the runs in
    flight: whatever has been submitted since a run started, the run goes
    through its steps and writes its outcome on the page.
    - A later submission leaves the run in flight, and so does every
      event but the settling of the run's own requests.
    - When its geocoding request resolves, its isochrone request is
      issued for the coordinate found; the page is not touched.
    - When its geocoding or its isochrone request fails, its error
      message replaces the status line and the overlay is hidden; the
      result list and the map stay as they are.
    - When its isochrone request resolves with a first ring that is not
      empty, the result list and the map layers are replaced by the
      schools inside that ring with their distances from the run's
      coordinate (ranked by distance when no distance is NaN), and the
      overlay is hidden; the status line stays as it is.
    So the outcomes of overlapping runs are merged on the page. *)
Theorem search_outcome_delivered_when_run_resolves
        (M : MathObject) (SFUSD_SCHOOLS : list school)
        (s : page) (id : nat) (a : activation) :
  lookup id (searches s) = Some a ->
  lookup id (searches (on_submit s)) = Some a
  /\ (forall e,
         (forall r, e <> GeocodeSettles id r) ->
         (forall r, e <> IsochroneSettles id r) ->
         lookup id (searches (step M SFUSD_SCHOOLS s e)) = Some a)
  /\ (forall r query c,
         a = AwaitGeocode query ->
         geocodeAddress r = Resolved c ->
         let s' := on_geocode id r s in
         lookup id (searches s') = Some (AwaitIsochrone query c)
         /\ statusMessage s' = statusMessage s
         /\ loadingOverlay_shown s' = loadingOverlay_shown s
         /\ resultsList s' = resultsList s
         /\ mapLayers s' = mapLayers s)
  /\ (forall r query err,
         a = AwaitGeocode query ->
         geocodeAddress r = Rejected err ->
         let s' := on_geocode id r s in
         statusMessage s' = Some (userMessage err, true)
         /\ loadingOverlay_shown s' = false
         /\ resultsList s' = resultsList s
         /\ mapLayers s' = mapLayers s
         /\ lookup id (searches s') = None)
  /\ (forall r query c err,
         a = AwaitIsochrone query c ->
         fetchIsochrone r = Rejected err ->
         let s' := on_isochrone M SFUSD_SCHOOLS id r s in
         statusMessage s' = Some (userMessage err, true)
         /\ loadingOverlay_shown s' = false
         /\ resultsList s' = resultsList s
         /\ mapLayers s' = mapLayers s
         /\ lookup id (searches s') = None)
  /\ (forall r query c f fs ring rings,
         a = AwaitIsochrone query c ->
         fetchIsochrone r = Resolved (f :: fs) ->
         coordinates f = ring :: rings ->
         ring <> [] ->
         let s' := on_isochrone M SFUSD_SCHOOLS id r s in
         Permutation (resultsList s') (enclosed_schools M SFUSD_SCHOOLS c ring)
         /\ (Forall comparable (enclosed_schools M SFUSD_SCHOOLS c ring) ->
             resultsList s' = rank_schools M SFUSD_SCHOOLS c ring)
         /\ mapLayers s' = Some (c, f :: fs, resultsList s')
         /\ resultsHeader_hidden s' = match resultsList s' with [] => true | _ => false end
         /\ noResults_hidden s' = match resultsList s' with [] => false | _ => true end
         /\ statusMessage s' = statusMessage s
         /\ loadingOverlay_shown s' = false
         /\ lookup id (searches s') = None).
Proof.
  intros Hid. split; [|split; [|split; [|split; [|split]]]].
  - now apply on_submit_keeps_searches.
  - intros e Hg Hi. now apply search_stays_in_flight.
  - intros r query c -> Hr. cbv zeta. unfold on_geocode. rewrite Hid, Hr.
    page_fields. split; [|repeat split].
    now apply (lookup_replace id (AwaitGeocode query)).
  - intros r query err -> Hr. cbv zeta. unfold on_geocode. rewrite Hid, Hr.
    apply run_failed.
  - intros r query c err -> Hr. cbv zeta. unfold on_isochrone. rewrite Hid, Hr.
    apply run_failed.
  - intros r query c f fs ring rings -> Hr Hring _.
    destruct (isochrone_resolved M SFUSD_SCHOOLS s id query c r f fs ring rings
                Hid Hr Hring) as (H1 & H2 & H3 & H4 & H5 & H6 & _ & H8).
    cbv zeta. split; [rewrite H1; apply rank_schools_Permutation|].
    split; [intros _; exact H1|]. repeat split; assumption.
Qed.

Definition searches_overlapping : page :=
  run sample_Math sample_schools initial_page two_searches_events.

(** Run 0 awaits its geocoding response while the later run 2 is in
    flight: it goes on to its isochrone request. *)
Lemma search_outcome_delivered_when_run_resolves_witness :
  lookup 2 (searches searches_overlapping)
  = Some (AwaitGeocode "Mission Street, San Francisco, California")
  /\ lookup 0 (searches (on_geocode 0 (ok_response [market_street])
                                    searches_overlapping))
     = Some (AwaitIsochrone "Market St"
               {| coords_lng := 2%float; coords_lat := 2%float;
                  placeName := "Market Street, San Francisco, California" |}).
Proof.
  split; [vm_compute; reflexivity|].
  assert (Hid : lookup 0 (searches searches_overlapping)
                = Some (AwaitGeocode "Market St")) by (vm_compute; reflexivity).
  destruct (search_outcome_delivered_when_run_resolves sample_Math sample_schools
              searches_overlapping 0 (AwaitGeocode "Market St") Hid)
    as (_ & _ & H & _).
  exact (proj1 (H (ok_response [market_street]) "Market St" _ eq_refl eq_refl)).
Defined.

(** ** Degenerate isochrone rings *)

Definition two_vertex_ring : list point := [(0, 0); (1, 3)]%float.

Definition school_by_the_edge : school :=
  {| name := "Alvarado Elementary School"; address := None; website := None;
     lng := third; lat := 1%float |}.

Definition degenerate_ring_events : list event := [
  InputEvent "Market St";
  SubmitEvent;
  GeocodeSettles 0 (ok_response [market_street]);
  IsochroneSettles 0 (ok_response [{| coordinates := [two_vertex_ring] |}])
].

(** C9, as stated, fails: the first ring of the response has two vertices,
    and the run ends as a success: no error message, the isochrone on the
    map, and the filter and rank steps run with that ring (they even
    retain a school, within one rounding error of the segment). *)
Lemma degenerate_ring_counterexample :
  let s := run sample_Math [school_by_the_edge] initial_page degenerate_ring_events in
  List.length two_vertex_ring = 2
  /\ statusMessage s = None
  /\ loadingOverlay_shown s = false
  /\ map facility (resultsList s) = [school_by_the_edge]
  /\ option_map (fun l => snd (fst l)) (mapLayers s)
     = Some [{| coordinates := [two_vertex_ring] |}].
Proof. cbv zeta. repeat split; vm_compute; reflexivity. Qed.

Definition no_features {A : Type} (data : body A) : Prop :=
  features data = None \/ features data = Some [].

(** The responses that end a run at its isochrone step: the transport
    failed, the status is not a success, the body has no feature, or its
    first feature has no ring. *)
Definition isochrone_failure (r : response contour) : Prop :=
  (exists msg, r = NetworkFailure msg)
  \/ (exists status data, r = HttpResponse false status data)
  \/ (exists status data, r = HttpResponse true status data /\ no_features data)
  \/ (exists status f fs,
         r = HttpResponse true status {| features := Some (f :: fs) |}
         /\ coordinates f = []).

(** C9, amended. The run treats the isochrone result as a failure when
    the transport fails, the status is not a success, the response has no
    feature or its first feature has no ring: an error message is shown,
    the result list is left as it is and nothing is filtered or ranked.
    Every other response has a first ring, and when that ring has at
    least one vertex the run goes on with it as it is, whatever the
    number of its distinct vertices: no error is reported, the schools
    are filtered with that ring (and ranked by distance when no distance
    is NaN) and shown with the isochrone on the map. *)
Theorem isochrone_ring_not_validated
        (M : MathObject) (SFUSD_SCHOOLS : list school)
        (s : page) (id : nat) (query : string) (c : coords)
        (r : response contour) :
  lookup id (searches s) = Some (AwaitIsochrone query c) ->
  let s' := on_isochrone M SFUSD_SCHOOLS id r s in
  (isochrone_failure r ->
   exists err,
     statusMessage s' = Some (userMessage err, true)
     /\ loadingOverlay_shown s' = false
     /\ resultsList s' = resultsList s
     /\ lookup id (searches s') = None)
  /\ (isochrone_failure r
      \/ exists status f fs ring rings,
          r = HttpResponse true status {| features := Some (f :: fs) |}
          /\ coordinates f = ring :: rings)
  /\ (forall status f fs ring rings,
         r = HttpResponse true status {| features := Some (f :: fs) |} ->
         coordinates f = ring :: rings ->
         ring <> [] ->
         statusMessage s' = statusMessage s
         /\ loadingOverlay_shown s' = false
         /\ Permutation (resultsList s') (enclosed_schools M SFUSD_SCHOOLS c ring)
         /\ (Forall comparable (enclosed_schools M SFUSD_SCHOOLS c ring) ->
             resultsList s' = rank_schools M SFUSD_SCHOOLS c ring)
         /\ mapLayers s' = Some (c, f :: fs, resultsList s')
         /\ lookup id (searches s') = None).
Proof.
  intros Hid. cbv zeta. split; [|split].
  - intros Hfail.
    assert (Hrej : forall err, fetchIsochrone r = Rejected err ->
                     exists err',
                       statusMessage (on_isochrone M SFUSD_SCHOOLS id r s)
                       = Some (userMessage err', true)
                       /\ loadingOverlay_shown (on_isochrone M SFUSD_SCHOOLS id r s) = false
                       /\ resultsList (on_isochrone M SFUSD_SCHOOLS id r s) = resultsList s
                       /\ lookup id (searches (on_isochrone M SFUSD_SCHOOLS id r s)) = None).
    { intros err Hr. exists err. unfold on_isochrone. rewrite Hid, Hr.
      destruct (run_failed err s id) as (H1 & H2 & H3 & _ & H5). auto. }
    destruct Hfail as [[msg ->]|[(status & data & ->)|[(status & data & -> & Hd)|
                       (status & f & fs & -> & Hf)]]].
    + eapply Hrej. reflexivity.
    + eapply Hrej. reflexivity.
    + destruct data as [fs]. unfold no_features in Hd. cbn [features] in Hd.
      destruct Hd as [->| ->]; eapply Hrej; reflexivity.
    + unfold on_isochrone. rewrite Hid. cbn [fetchIsochrone negb features].
      unfold show_results. rewrite Hf.
      destruct SFUSD_SCHOOLS as [|sch rest].
      * exists undefined_forEach.
        split; [unfold showLoading; cbn [statusMessage];
                apply statusMessage_handleError|].
        page_fields. repeat split. apply lookup_remove_same.
      * exists undefined_length.
        split; [unfold showLoading; cbn [statusMessage];
                apply statusMessage_handleError|].
        page_fields. repeat split. apply lookup_remove_same.
  - destruct r as [msg|ok status [[[|f fs]|]]].
    + left. left. now exists msg.
    + destruct ok.
      * left. right; right; left. exists status, {| features := Some [] |}.
        split; [reflexivity|now right].
      * left. right; left. now exists status, {| features := Some [] |}.
    + destruct ok.
      * destruct (coordinates f) as [|ring rings] eqn:Hf.
        -- left. right; right; right. now exists status, f, fs.
        -- right. now exists status, f, fs, ring, rings.
      * left. right; left. now exists status, {| features := Some (f :: fs) |}.
    + destruct ok.
      * left. right; right; left. exists status, {| features := None |}.
        split; [reflexivity|now left].
      * left. right; left. now exists status, {| features := None |}.
  - intros status f fs ring rings -> Hring _.
    destruct (isochrone_resolved M SFUSD_SCHOOLS s id query c
                (HttpResponse true status {| features := Some (f :: fs) |})
                f fs ring rings Hid eq_refl Hring)
      as (H1 & H2 & _ & _ & H5 & H6 & _ & H8).
    split; [exact H5|]. split; [exact H6|].
    split; [rewrite H1; apply rank_schools_Permutation|].
    split; [intros _; exact H1|]. split; assumption.
Qed.

Definition awaiting_isochrone : page :=
  run sample_Math [school_by_the_edge] initial_page (firstn 3 degenerate_ring_events).

Definition market_street_coords : coords :=
  {| coords_lng := 2%float; coords_lat := 2%float;
     placeName := "Market Street, San Francisco, California" |}.

Lemma isochrone_ring_not_validated_witness :
  let r := ok_response [{| coordinates := [two_vertex_ring] |}] in
  let s' := on_isochrone sample_Math [school_by_the_edge] 0 r awaiting_isochrone in
  statusMessage s' = statusMessage awaiting_isochrone
  /\ loadingOverlay_shown s' = false
  /\ Permutation (resultsList s')
       (enclosed_schools sample_Math [school_by_the_edge] market_street_coords
                         two_vertex_ring).
Proof.
  cbv zeta.
  assert (Hid : lookup 0 (searches awaiting_isochrone)
                = Some (AwaitIsochrone "Market St" market_street_coords))
    by (vm_compute; reflexivity).
  destruct (isochrone_ring_not_validated sample_Math [school_by_the_edge]
              awaiting_isochrone 0 "Market St" market_street_coords
              (ok_response [{| coordinates := [two_vertex_ring] |}]) Hid)
    as (_ & _ & H).
  destruct (H 200 {| coordinates := [two_vertex_ring] |} [] two_vertex_ring []
              eq_refl eq_refl ltac:(discriminate)) as (H1 & H2 & H3 & _).
  split; [exact H1|]. split; [exact H2|exact H3].
Defined.

(** ** The ranked list of a successful run *)





(** ** Formatting a distance *)

Section Formatting.

Local Open Scope Z_scope.

(** Decimal digits of a natural number. *)
Definition decimal (n : Z) : string :=
  NilZero.string_of_uint (N.to_uint (Z.to_N n)).

(** The integer nearest to [v * 2^e], the larger one when two are equally
    near: the floor of [v * 2^e + 1/2]. *)
Definition round_half_up (v e : Z) : Z :=
  if 0 <=? e then v * 2 ^ e else (2 * v + 2 ^ (- e)) / 2 ^ (1 - e).

(** [Math.round]: NaN, the infinities, the zeros and the integral numbers
    are returned as they are; otherwise the nearest integer, ties toward
    +Infinity, which is [-0] for a number in [-0.5, 0). *)
Definition Math_round (x : number) : number :=
  match Prim2SF x with
  | S754_finite s m e =>
      if 0 <=? e then x
      else SF2Prim (binary_normalize prec emax
                      (round_half_up (cond_Zopp s (Z.pos m)) e) 0 s)
  | _ => x
  end.

(** The integer [m * 2^e], when it is one. *)
Definition integer_value (m : positive) (e : Z) : option Z :=
  if 0 <=? e then Some (Z.pos m * 2 ^ e)
  else if Z.pos m mod 2 ^ (- e) =? 0 then Some (Z.pos m / 2 ^ (- e))
  else None.

(** [Number::toString] in radix 10, on NaN, the infinities, the zeros and
    the integers up to 2^53 in magnitude, whose digits are their exact
    decimal expansion. The digits of the other numbers come from the
    shortest round-trip algorithm, which is not modelled: [None]. *)
Definition NumberToString (x : number) : option string :=
  match Prim2SF x with
  | S754_nan => Some "NaN"%string
  | S754_zero _ => Some "0"%string
  | S754_infinity s => Some (if s then "-Infinity" else "Infinity")%string
  | S754_finite s m e =>
      match integer_value m e with
      | Some n =>
          if n <=? 2 ^ 53
          then Some ((if s then "-" else "") ++ decimal n)%string
          else None
      | None => None
      end
  end.

(** [x.toFixed(1)]: for a finite [x] below 10^21 in magnitude, the digits
    of the integer [n] for which [n / 10 - |x|] is nearest to zero (the
    larger [n] when there are two), with a point before the last digit;
    [Number::toString] otherwise. *)
Definition toFixed1 (x : number) : option string :=
  match Prim2SF x with
  | S754_zero _ => Some "0.0"%string
  | S754_finite s m e =>
      if (if 0 <=? e then 10 ^ 21 <=? Z.pos m * 2 ^ e
          else 10 ^ 21 * 2 ^ (- e) <=? Z.pos m)
      then NumberToString x
      else
        let n := round_half_up (10 * Z.pos m) e in
        Some ((if s then "-" else "") ++ decimal (n / 10) ++ "." ++ decimal (n mod 10))%string
  | _ => NumberToString x
  end.

Definition formatDistance (meters : number) : option string :=
  if lt meters 1000%float
  then option_map (fun s => (s ++ " m")%string) (NumberToString (Math_round meters))
  else option_map (fun s => (s ++ " km")%string) (toFixed1 (meters / 1000)%float).

End Formatting.

(** *** What the digits stand for *)

(** The rational [v * 2^e]. *)
Definition dyadic (v e : Z) : Q :=
  if (0 <=? e)%Z then inject_Z (v * 2 ^ e) else Qmake v (Z.to_pos (2 ^ (- e))).

(** The exact value of a finite number (0 for the others). *)
Definition value (x : number) : Q :=
  match Prim2SF x with
  | S754_finite s m e => dyadic (cond_Zopp s (Z.pos m)) e
  | _ => 0%Q
  end.

(** [n] is the integer nearest to [q], the larger one on a tie. *)
Definition nearest_integer (q : Q) (n : Z) : Prop :=
  (inject_Z n - (1 # 2) <= q)%Q /\ (q < inject_Z n + (1 # 2))%Q.

(** An integer in decimal, with its sign. *)
Definition integer_string (n : Z) : string :=
  ((if (n <? 0)%Z then "-" else "") ++ decimal (Z.abs n))%string.

Section FormattingFacts.

Local Open Scope Z_scope.

Lemma round_half_up_nearest (v e : Z) :
  nearest_integer (dyadic v e) (round_half_up v e).
Proof.
  unfold nearest_integer, dyadic, round_half_up.
  destruct (Z.leb_spec 0 e) as [He|He].
  - unfold Qle, Qlt, Qminus, Qplus, Qopp, inject_Z; cbn [Qnum Qden]. lia.
  - set (B := 2 ^ (- e)).
    assert (HB : 0 < B) by (apply Z.pow_pos_nonneg; lia).
    replace (2 ^ (1 - e)) with (2 * B)
      by (unfold B; replace (1 - e) with (Z.succ (- e)) by lia;
          rewrite Z.pow_succ_r by lia; reflexivity).
    pose proof (Z.mul_div_le (2 * v + B) (2 * B) ltac:(lia)) as H1.
    pose proof (Z.mul_succ_div_gt (2 * v + B) (2 * B) ltac:(lia)) as H2.
    set (n := (2 * v + B) / (2 * B)) in *.
    unfold Qle, Qlt, Qminus, Qplus, Qopp, inject_Z; cbn [Qnum Qden].
    rewrite Z2Pos.id by assumption. nia.
Qed.

Lemma digits2_pos_unique (m : positive) (d : Z) :
  2 ^ (d - 1) <= Z.pos m < 2 ^ d -> Z.pos (digits2_pos m) = d.
Proof.
  intros [Hlo Hhi]. pose proof (digits2_pos_bounds m) as [Hlo' Hhi'].
  set (d' := Z.pos (digits2_pos m)) in *.
  assert (0 < d') by (unfold d'; lia).
  assert (0 < d).
  { destruct (Z.ltb_spec 0 d); [assumption|].
    rewrite (Z.pow_neg_r 2 (d - 1)) in Hlo by lia.
    destruct (Z.eq_dec d 0) as [->|]; [cbn in Hhi; lia|].
    rewrite Z.pow_neg_r in Hhi by lia. lia. }
  destruct (Z.lt_trichotomy d' d) as [Hlt|[Heq|Hgt]]; [|exact Heq|].
  - assert (2 ^ d' <= 2 ^ (d - 1)) by (apply Z.pow_le_mono_r; lia). lia.
  - assert (2 ^ d <= 2 ^ (d' - 1)) by (apply Z.pow_le_mono_r; lia). lia.
Qed.

Lemma shl_align_exponent (m : positive) (e ez : Z) :
  ez <= e -> snd (shl_align m e ez) = ez.
Proof.
  intros H. unfold shl_align.
  destruct (ez - e) eqn:E; cbn [snd]; lia.
Qed.

(** The number for a small integer is exact. *)
Lemma binary_round_small (sgn : bool) (p : positive) :
  Z.pos p < 2 ^ 53 ->
  exists mz ez,
    binary_round prec emax sgn p 0 = S754_finite sgn mz ez
    /\ valid_binary (S754_finite sgn mz ez) = true
    /\ -52 <= ez <= 0
    /\ Z.pos mz = Z.pos p * 2 ^ (- ez).
Proof.
  intros Hp. pose proof (digits2_pos_bounds p) as [Hlo Hhi].
  set (d := Z.pos (digits2_pos p)) in *.
  assert (Hd1 : 0 < d) by (unfold d; lia).
  assert (Hd : d <= 53).
  { destruct (Z.leb_spec d 53); [assumption|].
    assert (2 ^ 53 <= 2 ^ (d - 1)) by (apply Z.pow_le_mono_r; lia). lia. }
  unfold binary_round. fold d.
  assert (Hf : fexp prec emax (d + 0) = d - 53).
  { unfold fexp, SpecFloat.emin. change prec with 53. change emax with 1024. lia. }
  rewrite Hf.
  pose proof (shl_align_value p 0 (d - 53) ltac:(lia)) as Hv.
  pose proof (shl_align_exponent p 0 (d - 53) ltac:(lia)) as Hez.
  destruct (shl_align p 0 (d - 53)) as [mz ez]. cbn [fst snd] in Hv, Hez.
  subst ez.
  replace (0 - (d - 53)) with (53 - d) in Hv by lia.
  assert (Hdz : Z.pos (digits2_pos mz) = 53).
  { apply digits2_pos_unique. rewrite Hv. split.
    - replace (53 - 1) with ((d - 1) + (53 - d)) by lia.
      rewrite Z.pow_add_r by lia. apply Z.mul_le_mono_nonneg_r; [|exact Hlo].
      apply Z.pow_nonneg; lia.
    - replace 53 with (d + (53 - d)) at 2 by lia.
      rewrite Z.pow_add_r by lia. apply Z.mul_lt_mono_pos_r; [|exact Hhi].
      apply Z.pow_pos_nonneg; lia. }
  assert (Hshift : fexp prec emax (Z.pos (digits2_pos mz) + (d - 53)) - (d - 53) = 0).
  { rewrite Hdz. unfold fexp, SpecFloat.emin. change prec with 53. change emax with 1024. lia. }
  exists mz, (d - 53). split; [|split; [|split]].
  - unfold binary_round_aux, shr_fexp. cbn [Zdigits2]. rewrite Hshift.
    cbn [shr shr_record_of_loc shr_m loc_of_shr_record round_nearest_even Zdigits2].
    rewrite Hshift. cbn [shr shr_record_of_loc shr_m].
    destruct (Z.leb_spec (d - 53) (emax - prec)) as [_|H]; [reflexivity|].
    change emax with 1024 in H. change prec with 53 in H. lia.
  - unfold valid_binary, SpecFloat.valid_binary, bounded, canonical_mantissa.
    apply andb_true_iff. split.
    + apply Z.eqb_eq. lia.
    + apply Z.leb_le. change emax with 1024. change prec with 53. lia.
  - lia.
  - rewrite Hv. f_equal. f_equal. lia.
Qed.

Lemma Prim2SF_SF2Prim_zero (s : bool) : Prim2SF (SF2Prim (S754_zero s)) = S754_zero s.
Proof. now apply Prim2SF_SF2Prim. Qed.

Lemma integer_value_shifted (mz p : positive) (ez : Z) :
  -52 <= ez <= 0 -> Z.pos mz = Z.pos p * 2 ^ (- ez) ->
  integer_value mz ez = Some (Z.pos p).
Proof.
  intros Hez Hv. unfold integer_value.
  destruct (Z.leb_spec 0 ez) as [H|H].
  - assert (ez = 0) by lia. subst ez. cbn in Hv. f_equal. lia.
  - assert (0 < 2 ^ (- ez)) by (apply Z.pow_pos_nonneg; lia).
    rewrite Hv, Z.mod_mul, Z.div_mul by lia. reflexivity.
Qed.

Lemma NumberToString_integer (n : Z) (s : bool) :
  Z.abs n < 2 ^ 53 ->
  NumberToString (SF2Prim (binary_normalize prec emax n 0 s)) = Some (integer_string n).
Proof.
  intros Hn. unfold NumberToString. destruct n as [|p|p]; cbn [binary_normalize].
  - rewrite Prim2SF_SF2Prim_zero. reflexivity.
  - destruct (binary_round_small false p Hn) as (mz & ez & -> & Hvalid & Hez & Hv).
    rewrite Prim2SF_SF2Prim by exact Hvalid.
    rewrite (integer_value_shifted mz p ez Hez Hv).
    destruct (Z.leb_spec (Z.pos p) (2 ^ 53)) as [_|H]; [reflexivity|].
    cbn [Z.abs] in Hn. lia.
  - destruct (binary_round_small true p Hn) as (mz & ez & -> & Hvalid & Hez & Hv).
    rewrite Prim2SF_SF2Prim by exact Hvalid.
    rewrite (integer_value_shifted mz p ez Hez Hv).
    destruct (Z.leb_spec (Z.pos p) (2 ^ 53)) as [_|H]; [reflexivity|].
    cbn [Z.abs] in Hn. lia.
Qed.

Lemma lt_not_NaN (x y : number) :
  lt x y = true -> is_NaN x = false /\ is_NaN y = false.
Proof.
  unfold lt. rewrite ltb_spec, !is_NaN_spec. unfold SFltb.
  destruct (Prim2SF x), (Prim2SF y); try discriminate; auto.
Qed.

Lemma leb_not_NaN (x y : number) :
  (x <=? y)%float = true -> is_NaN x = false /\ is_NaN y = false.
Proof.
  rewrite leb_spec, !is_NaN_spec. unfold SFleb.
  destruct (Prim2SF x), (Prim2SF y); try discriminate; auto.
Qed.

Definition scale : Z := 2 ^ 1074.

Lemma scale_pos : 0 < scale.
Proof. unfold scale. apply Z.pow_pos_nonneg; lia. Qed.

Lemma magnitude_nonneg_exponent (m : positive) (e : Z) :
  0 <= e -> magnitude m e = Z.pos m * 2 ^ e * scale.
Proof.
  intros He. unfold magnitude, emin64, scale.
  replace (e - -1074) with (e + 1074) by lia.
  rewrite Z.pow_add_r by lia. lia.
Qed.

Lemma magnitude_neg_exponent (m : positive) (e : Z) :
  -1074 <= e < 0 -> magnitude m e * 2 ^ (- e) = Z.pos m * scale.
Proof.
  intros He. unfold magnitude, emin64, scale.
  rewrite <- Z.mul_assoc, <- Z.pow_add_r by lia.
  replace (e - -1074 + - e) with 1074 by lia. reflexivity.
Qed.

Lemma key_1000 : number_key 1000%float = 1000 * scale.
Proof. vm_compute. reflexivity. Qed.

Lemma key_minus_2_53 : number_key (-9007199254740992)%float = - (2 ^ 53 * scale).
Proof. vm_compute. reflexivity. Qed.

Lemma key_1e21 : number_key 1e21%float = 10 ^ 21 * scale.
Proof. vm_compute. reflexivity. Qed.

Lemma key_infinity_large : 2 ^ 53 * scale < key_infinity /\ 10 ^ 21 * scale < key_infinity.
Proof. split; vm_compute; reflexivity. Qed.

Lemma formatDistance_below_1000 (meters : number) :
  lt meters 1000%float = true ->
  (-9007199254740992 <=? meters)%float = true ->
  exists n,
    formatDistance meters = Some (integer_string n ++ " m")%string
    /\ nearest_integer (value meters) n.
Proof.
  intros Hlt Hge.
  destruct (lt_not_NaN _ _ Hlt) as [Hnan N1000].
  destruct (leb_not_NaN _ _ Hge) as [Nlow _].
  rewrite (lt_number_key _ _ Hnan N1000), key_1000 in Hlt.
  rewrite (leb_number_key _ _ Nlow Hnan), key_minus_2_53 in Hge.
  apply Z.ltb_lt in Hlt. apply Z.leb_le in Hge.
  pose proof scale_pos as HS. pose proof key_infinity_large as [HI _].
  unfold formatDistance, lt. fold (lt meters 1000%float).
  assert (Hlt' : lt meters 1000%float = true)
    by (rewrite (lt_number_key _ _ Hnan N1000), key_1000; now apply Z.ltb_lt).
  rewrite Hlt'. unfold Math_round, value.
  pose proof (Prim2SF_valid meters) as Hvalid.
  rewrite is_NaN_spec in Hnan. unfold number_key in Hlt, Hge.
  destruct (Prim2SF meters) as [s|s| |s m e] eqn:E; cbn [key] in Hlt, Hge.
  - exists 0. unfold NumberToString. rewrite E. split; [reflexivity|].
    unfold nearest_integer, Qle, Qlt; cbn. lia.
  - exfalso. destruct s; cbn [cond_Zopp] in *; lia.
  - discriminate Hnan.
  - exists (round_half_up (cond_Zopp s (Z.pos m)) e).
    split; [|apply round_half_up_nearest].
    pose proof (valid_finite _ _ _ Hvalid) as ((He1 & He2) & Hm & _).
    unfold emin64 in He1.
    destruct (Z.leb_spec 0 e) as [He|He].
    + unfold NumberToString. rewrite E. unfold integer_value, round_half_up.
      destruct (Z.leb_spec 0 e) as [_|]; [|lia].
      rewrite (magnitude_nonneg_exponent m e He) in Hlt, Hge.
      assert (Hpow : 0 < 2 ^ e) by (apply Z.pow_pos_nonneg; lia).
      assert (Hv : 0 < Z.pos m * 2 ^ e) by (apply Z.mul_pos_pos; lia).
      set (v := Z.pos m * 2 ^ e) in *.
      assert (Hb : v <= 2 ^ 53) by (destruct s; cbn [cond_Zopp] in *; nia).
      destruct (Z.leb_spec v (2 ^ 53)) as [_|]; [|lia].
      cbn [option_map]. f_equal. f_equal. unfold integer_string.
      destruct s; cbn [cond_Zopp].
      * replace (- Z.pos m * 2 ^ e) with (- v) by (unfold v; lia).
        destruct (Z.ltb_spec (- v) 0); [|lia].
        now rewrite Z.abs_opp, Z.abs_eq by lia.
      * fold v. destruct (Z.ltb_spec v 0); [lia|].
        now rewrite Z.abs_eq by lia.
    + rewrite NumberToString_integer; [reflexivity|].
      pose proof (round_half_up_nearest (cond_Zopp s (Z.pos m)) e) as Hn.
      unfold round_half_up in *. destruct (Z.leb_spec 0 e) as [|_]; [lia|].
      set (B := 2 ^ (- e)).
      assert (HB : 2 <= B).
      { unfold B. change 2 with (2 ^ 1) at 1. apply Z.pow_le_mono_r; lia. }
      replace (2 ^ (1 - e)) with (2 * B)
        by (unfold B; replace (1 - e) with (Z.succ (- e)) by lia;
            rewrite Z.pow_succ_r by lia; reflexivity).
      clear Hn.
      pose proof (Z.mul_div_le (2 * cond_Zopp s (Z.pos m) + B) (2 * B) ltac:(lia)) as H1.
      pose proof (Z.mul_succ_div_gt (2 * cond_Zopp s (Z.pos m) + B) (2 * B) ltac:(lia)) as H2.
      set (n := (2 * cond_Zopp s (Z.pos m) + B) / (2 * B)) in *.
      assert (Hvb : - 2 ^ 53 < cond_Zopp s (Z.pos m) < 2 ^ 53)
        by (destruct s; cbn [cond_Zopp]; lia).
      clearbody n B. change (2 ^ 53) with 9007199254740992 in *. nia.
Qed.

Definition one_decimal (n : Z) : string :=
  (decimal (n / 10) ++ "." ++ decimal (n mod 10))%string.

Lemma round_half_up_tenths_nearest (v e : Z) :
  nearest_integer (10 * dyadic v e)%Q (round_half_up (10 * v) e).
Proof.
  unfold nearest_integer, dyadic, round_half_up.
  destruct (Z.leb_spec 0 e) as [He|He].
  - unfold Qle, Qlt, Qminus, Qplus, Qopp, Qmult, inject_Z; cbn [Qnum Qden]. lia.
  - set (B := 2 ^ (- e)).
    assert (HB : 0 < B) by (apply Z.pow_pos_nonneg; lia).
    replace (2 ^ (1 - e)) with (2 * B)
      by (unfold B; replace (1 - e) with (Z.succ (- e)) by lia;
          rewrite Z.pow_succ_r by lia; reflexivity).
    pose proof (Z.mul_div_le (2 * (10 * v) + B) (2 * B) ltac:(lia)) as H1.
    pose proof (Z.mul_succ_div_gt (2 * (10 * v) + B) (2 * B) ltac:(lia)) as H2.
    set (n := (2 * (10 * v) + B) / (2 * B)) in *.
    unfold Qle, Qlt, Qminus, Qplus, Qopp, Qmult, inject_Z; cbn [Qnum Qden].
    rewrite Pos2Z.inj_mul, Z2Pos.id by assumption. nia.
Qed.

Lemma round_half_up_nonneg (v e : Z) : 0 <= v -> 0 <= round_half_up v e.
Proof.
  intros Hv. unfold round_half_up. destruct (Z.leb_spec 0 e).
  - apply Z.mul_nonneg_nonneg; [assumption|apply Z.pow_nonneg; lia].
  - assert (0 < 2 ^ (- e)) by (apply Z.pow_pos_nonneg; lia).
    assert (0 < 2 ^ (1 - e)) by (apply Z.pow_pos_nonneg; lia).
    apply Z.div_pos; lia.
Qed.

Lemma binary_round_aux_sign (s : bool) (m e : Z) (l : location) :
  match binary_round_aux prec emax s m e l with
  | S754_zero s' | S754_infinity s' | S754_finite s' _ _ => s' = s
  | S754_nan => True
  end.
Proof.
  unfold binary_round_aux.
  destruct (shr_fexp prec emax m e l) as [mrs' e'].
  destruct (shr_fexp prec emax _ e' loc_Exact) as [mrs'' e''].
  destruct (shr_m mrs''); try exact I; try reflexivity.
  destruct (e'' <=? emax - prec); reflexivity.
Qed.

Lemma formatDistance_at_least_1000 (meters : number) :
  (1000 <=? meters)%float = true ->
  lt (meters / 1000)%float 1e21%float = true ->
  exists n,
    (0 <= n)%Z
    /\ formatDistance meters = Some (one_decimal n ++ " km")%string
    /\ nearest_integer (10 * value (meters / 1000)%float)%Q n.
Proof.
  intros Hge Hq.
  destruct (leb_not_NaN _ _ Hge) as [N1000 Hnan].
  destruct (lt_not_NaN _ _ Hq) as [Hqnan N1e21].
  pose proof scale_pos as HS. pose proof key_infinity_large as [_ HI].
  assert (Hlt : lt meters 1000%float = false).
  { rewrite (lt_number_key _ _ Hnan N1000).
    rewrite (leb_number_key _ _ N1000 Hnan) in Hge.
    apply Z.leb_le in Hge. apply Z.ltb_ge. exact Hge. }
  rewrite (leb_number_key _ _ N1000 Hnan), key_1000 in Hge. apply Z.leb_le in Hge.
  rewrite (lt_number_key _ _ Hqnan N1e21), key_1e21 in Hq. apply Z.ltb_lt in Hq.
  unfold formatDistance. rewrite Hlt. unfold toFixed1, value.
  set (q := (meters / 1000)%float) in *.
  pose proof (Prim2SF_valid q) as Hvalid.
  assert (Hsign : match Prim2SF q with
                  | S754_zero s | S754_infinity s | S754_finite s _ _ => s = false
                  | S754_nan => True
                  end).
  { unfold q. rewrite div_spec. unfold number_key in Hge.
    change (Prim2SF 1000%float) with (S754_finite false 8796093022208000 (-43)).
    destruct (Prim2SF meters) as [s|s| |s m e]; cbn [key] in Hge;
      try (exfalso; lia); try exact I.
    - destruct s; [exfalso; cbn [cond_Zopp] in Hge; lia|reflexivity].
    - destruct s.
      + exfalso. cbn [cond_Zopp] in Hge.
        assert (0 <= magnitude m e)
          by (unfold magnitude; apply Z.mul_nonneg_nonneg; [lia|apply Z.pow_nonneg; lia]).
        lia.
      + unfold SF64div, SFdiv.
        destruct (SFdiv_core_binary prec emax (Z.pos m) e (Z.pos 8796093022208000) (-43))
          as [[mz ez] lz].
        apply (binary_round_aux_sign (xorb false false) mz ez lz). }
  rewrite is_NaN_spec in Hqnan. unfold number_key in Hq.
  destruct (Prim2SF q) as [s|s| |s m e] eqn:E; cbn [key] in Hq.
  - exists 0. split; [lia|]. split; [reflexivity|].
    unfold nearest_integer, Qle, Qlt; cbn. lia.
  - exfalso. subst s. cbn [cond_Zopp] in Hq. lia.
  - discriminate Hqnan.
  - subst s. cbn [cond_Zopp] in Hq |- *.
    exists (round_half_up (10 * Z.pos m) e).
    split; [apply round_half_up_nonneg; lia|].
    split; [|apply round_half_up_tenths_nearest].
    pose proof (valid_finite _ _ _ Hvalid) as ((He1 & He2) & Hm & _).
    unfold emin64 in He1.
    assert (Hcheck : (if 0 <=? e then 10 ^ 21 <=? Z.pos m * 2 ^ e
                      else 10 ^ 21 * 2 ^ (- e) <=? Z.pos m) = false).
    { destruct (Z.leb_spec 0 e) as [He|He].
      - rewrite (magnitude_nonneg_exponent m e He) in Hq. apply Z.leb_gt. nia.
      - pose proof (magnitude_neg_exponent m e ltac:(lia)) as Hmag.
        assert (0 < 2 ^ (- e)) by (apply Z.pow_pos_nonneg; lia).
        apply Z.leb_gt. nia. }
    rewrite Hcheck. reflexivity.
Qed.

End FormattingFacts.





(** For every number below 1000 and not below -2^53,
    [formatDistance] returns the integer nearest to it (the larger one on
    a tie) in decimal, followed by " m"; for every number at or above 1000
    whose quotient by 1000 is below 10^21, it returns that quotient with
    one decimal place, the digits of the integer nearest to ten times the
    quotient with a point before the last one, followed by " km"; 999
    gives "999 m", 1000 gives "1.0 km" and 1500 gives "1.5 km". *)
Theorem formatDistance_rounds_and_suffixes (meters : number) :
  (lt meters 1000%float = true ->
   (-9007199254740992 <=? meters)%float = true ->
   exists n,
     formatDistance meters = Some (integer_string n ++ " m")
     /\ nearest_integer (value meters) n)
  /\ ((1000 <=? meters)%float = true ->
      lt (meters / 1000)%float 1e21%float = true ->
      exists n,
        (0 <= n)%Z
        /\ formatDistance meters = Some (one_decimal n ++ " km")
        /\ nearest_integer (10 * value (meters / 1000)%float)%Q n)
  /\ formatDistance 999%float = Some "999 m"
  /\ formatDistance 1000%float = Some "1.0 km"
  /\ formatDistance 1500%float = Some "1.5 km".
Proof.
  split; [exact (formatDistance_below_1000 meters)|].
  split; [exact (formatDistance_at_least_1000 meters)|].
  split; [vm_compute; reflexivity|].
  split; vm_compute; reflexivity.
Qed.

Lemma formatDistance_rounds_and_suffixes_witness :
  (exists n,
      formatDistance 999.5%float = Some (integer_string n ++ " m")
      /\ nearest_integer (value 999.5%float) n)
  /\ (exists n,
         (0 <= n)%Z
         /\ formatDistance 1250%float = Some (one_decimal n ++ " km")
         /\ nearest_integer (10 * value (1250 / 1000)%float)%Q n).
Proof.
  split.
  - apply (proj1 (formatDistance_rounds_and_suffixes 999.5%float));
      vm_compute; reflexivity.
  - apply (proj1 (proj2 (formatDistance_rounds_and_suffixes 1250%float)));
      vm_compute; reflexivity.
Defined.

(** ** How far a rounded result is from the exact one *)

Section RoundingError.

Local Open Scope Z_scope.

(** Where [num / den] lies between two integers: on one, or below, at or
    above the middle. *)
Definition loc_of_rem (rem den : Z) : location :=
  if rem =? 0 then loc_Exact else loc_Inexact (2 * rem ?= den).

(** The record holds the integer part of [num / den] and the place of the
    rest. *)
Definition holds (r : shr_record) (num den : Z) : Prop :=
  shr_m r = num / den
  /\ loc_of_shr_record r = loc_of_rem (num mod den) den.

Lemma holds_record_of_loc (m : Z) (l : location) (num den : Z) :
  m = num / den -> l = loc_of_rem (num mod den) den ->
  holds (shr_record_of_loc m l) num den.
Proof.
  intros -> ->. unfold holds. split; [apply shr_m_record_of_loc|].
  destruct (loc_of_rem (num mod den) den) as [|[]]; reflexivity.
Qed.

Lemma shr_1_record (m : Z) (rr sr : bool) :
  0 <= m ->
  shr_1 {| shr_m := m; shr_r := rr; shr_s := sr |}
  = {| shr_m := m / 2; shr_r := m mod 2 =? 1; shr_s := orb rr sr |}.
Proof.
  intros Hm. cbn [shr_1]. destruct m as [|[p|p|]|p]; try lia.
  - reflexivity.
  - replace (Z.pos p~1 / 2) with (Z.pos p) by (apply Z.div_unique with 1; lia).
    replace (Z.pos p~1 mod 2) with 1 by (apply Z.mod_unique with (Z.pos p); lia).
    reflexivity.
  - replace (Z.pos p~0 / 2) with (Z.pos p) by (apply Z.div_unique with 0; lia).
    replace (Z.pos p~0 mod 2) with 0 by (apply Z.mod_unique with (Z.pos p); lia).
    reflexivity.
  - reflexivity.
Qed.

Lemma shr_1_holds (r : shr_record) (num den : Z) :
  0 <= num -> 0 < den -> holds r num den -> holds (shr_1 r) num (2 * den).
Proof.
  intros Hnum Hden [Hm Hl].
  pose proof (Z.div_mod num den ltac:(lia)) as Hdm.
  pose proof (Z.mod_pos_bound num den Hden) as Hrem.
  assert (Hm0 : 0 <= num / den) by (apply Z.div_pos; lia).
  set (m := num / den) in *. set (rem := num mod den) in *.
  assert (Hk : num / (2 * den) = m / 2 /\ num mod (2 * den) = (m mod 2) * den + rem).
  { pose proof (Z.div_mod m 2 ltac:(lia)) as H2.
    pose proof (Z.mod_pos_bound m 2 ltac:(lia)) as Hb.
    apply Z.div_mod_unique with (b := 2 * den).
    - left. apply Z.mod_pos_bound. lia.
    - left. nia.
    - rewrite <- Z.div_mod by lia. nia. }
  destruct Hk as [Hk1 Hk2]. unfold holds. rewrite Hk1, Hk2.
  destruct r as [mr rr sr]. cbn [shr_m] in Hm. subst mr.
  unfold loc_of_rem in *. cbn [loc_of_shr_record] in Hl.
  assert (Hs : orb rr sr = negb (rem =? 0)).
  { destruct (Z.eqb_spec rem 0); destruct rr, sr; try discriminate Hl; reflexivity. }
  clear Hl.
  assert (Hcases : shr_1 {| shr_m := m; shr_r := rr; shr_s := sr |}
                   = {| shr_m := m / 2; shr_r := m mod 2 =? 1; shr_s := orb rr sr |})
    by (now apply shr_1_record).
  rewrite Hcases, Hs. cbn [shr_m loc_of_shr_record]. split; [reflexivity|].
  pose proof (Z.mod_pos_bound m 2 ltac:(lia)) as Hb.
  destruct (Z.eqb_spec (m mod 2) 1) as [E|E].
  - rewrite E. destruct (Z.eqb_spec rem 0) as [R|R]; cbn [negb].
    + destruct (Z.eqb_spec (1 * den + rem) 0); [lia|].
      f_equal. symmetry. apply Z.compare_eq_iff. lia.
    + destruct (Z.eqb_spec (1 * den + rem) 0); [lia|].
      f_equal. symmetry. apply Z.compare_gt_iff. lia.
  - assert (E0 : m mod 2 = 0) by lia. rewrite E0.
    destruct (Z.eqb_spec rem 0) as [R|R]; cbn [negb].
    + destruct (Z.eqb_spec (0 * den + rem) 0); [reflexivity|lia].
    + destruct (Z.eqb_spec (0 * den + rem) 0); [lia|].
      f_equal. symmetry. apply Z.compare_lt_iff. lia.
Qed.

Lemma iter_pos_shr_1_holds (n : positive) (r : shr_record) (num den : Z) :
  0 <= num -> 0 < den -> holds r num den ->
  holds (iter_pos shr_1 n r) num (2 ^ Z.pos n * den).
Proof.
  intros Hnum. revert r den.
  induction n as [n IH|n IH|]; intros r den Hden H; cbn [iter_pos].
  - assert (Hp : 0 < 2 ^ Z.pos n) by (apply Z.pow_pos_nonneg; lia).
    rewrite pow2_xI.
    replace (2 * (2 ^ Z.pos n * 2 ^ Z.pos n) * den)
      with (2 ^ Z.pos n * (2 ^ Z.pos n * (2 * den))) by ring.
    apply IH; [nia|]. apply IH; [lia|]. now apply shr_1_holds.
  - assert (Hp : 0 < 2 ^ Z.pos n) by (apply Z.pow_pos_nonneg; lia).
    rewrite pow2_xO.
    replace (2 ^ Z.pos n * 2 ^ Z.pos n * den)
      with (2 ^ Z.pos n * (2 ^ Z.pos n * den)) by ring.
    apply IH; [nia|]. now apply IH.
  - change (2 ^ 1) with 2. now apply shr_1_holds.
Qed.

(** Rounding to nearest moves the integer part by at most a half. *)
Lemma round_nearest_even_holds (r : shr_record) (num den : Z) :
  0 <= num -> 0 < den -> holds r num den ->
  let m := round_nearest_even (shr_m r) (loc_of_shr_record r) in
  2 * Z.abs (m * den - num) <= den /\ num / den <= m <= num / den + 1.
Proof.
  intros Hnum Hden [Hm Hl]. cbv zeta. rewrite Hm, Hl.
  pose proof (Z.div_mod num den ltac:(lia)) as Hdm.
  pose proof (Z.mod_pos_bound num den Hden) as Hrem.
  set (q := num / den) in *. set (rem := num mod den) in *.
  unfold loc_of_rem. destruct (Z.eqb_spec rem 0) as [R|R]; cbn [round_nearest_even].
  - split; [nia|lia].
  - destruct (Z.compare_spec (2 * rem) den) as [C|C|C].
    + destruct (Z.even q); split; nia.
    + split; nia.
    + split; nia.
Qed.

Lemma shr_fexp_holds (m e : Z) (l : location) (num den : Z) :
  0 <= num -> 0 < den ->
  m = num / den -> l = loc_of_rem (num mod den) den ->
  e <= fexp prec emax (Zdigits2 m + e) ->
  exists r,
    shr_fexp prec emax m e l = (r, fexp prec emax (Zdigits2 m + e))
    /\ holds r num (2 ^ (fexp prec emax (Zdigits2 m + e) - e) * den).
Proof.
  intros Hnum Hden Hm Hl He. unfold shr_fexp, shr.
  set (er := fexp prec emax (Zdigits2 m + e)) in *.
  pose proof (holds_record_of_loc m l num den Hm Hl) as H.
  destruct (er - e) as [|p|p] eqn:E; try lia.
  - exists (shr_record_of_loc m l). split; [f_equal; lia|].
    now rewrite Z.pow_0_r, Z.mul_1_l.
  - exists (iter_pos shr_1 p (shr_record_of_loc m l)). split; [f_equal; lia|].
    now apply iter_pos_shr_1_holds.
Qed.

Lemma Zdigits2_bounds (m : Z) :
  0 < m -> 2 ^ (Zdigits2 m - 1) <= m < 2 ^ Zdigits2 m /\ 0 < Zdigits2 m.
Proof.
  destruct m as [|p|p]; try lia. intros _. cbn [Zdigits2].
  split; [apply digits2_pos_bounds|lia].
Qed.

Lemma Zdigits2_le (m : Z) (d : Z) : 0 <= d -> 0 <= m < 2 ^ d -> Zdigits2 m <= d.
Proof.
  intros Hd [H0 Hm]. destruct (Z.eq_dec m 0) as [->|Hne]; [cbn; lia|].
  destruct (Zdigits2_bounds m ltac:(lia)) as [[Hlo _] Hpos].
  destruct (Z.le_gt_cases (Zdigits2 m) d) as [|Hgt]; [assumption|].
  assert (2 ^ d <= 2 ^ (Zdigits2 m - 1)) by (apply Z.pow_le_mono_r; lia). lia.
Qed.

(** What [binary_round_aux] returns, by the magnitude [R] of the result
    in units of [2^emin64]. *)
Definition rounds_to (s : bool) (R : Z) (z : spec_float) : Prop :=
  (z = S754_zero s /\ R = 0)
  \/ (exists m e, z = S754_finite s m e /\ R = magnitude m e)
  \/ (z = S754_infinity s /\ 2 ^ 2098 <= R).

(** Rounding [num / den * 2^e]: the result is within half a unit of the
    last place of the exact value, and that unit is [2^emin64] or at most
    [2^-52] times the exact value. *)
Lemma binary_round_aux_error (s : bool) (m e : Z) (l : location) (num den : Z) :
  0 <= num -> 0 < den ->
  m = num / den -> l = loc_of_rem (num mod den) den ->
  e <= fexp prec emax (Zdigits2 m + e) ->
  let er := fexp prec emax (Zdigits2 m + e) in
  let den' := 2 ^ (er - e) * den in
  let P := 2 ^ (er - emin64) in
  exists R,
    0 <= R
    /\ 2 * Z.abs (R * den' - num * P) <= den' * P
    /\ (er = emin64 \/ 2 ^ 52 * den' <= num)
    /\ rounds_to s R (binary_round_aux prec emax s m e l).
Proof.
  intros Hnum Hden Hm Hl He. cbv zeta.
  destruct (shr_fexp_holds m e l num den Hnum Hden Hm Hl He) as (r & Hr & Hh).
  set (er := fexp prec emax (Zdigits2 m + e)) in *.
  assert (Her : emin64 <= er).
  { unfold er, fexp, SpecFloat.emin, emin64. change prec with 53. change emax with 1024. lia. }
  assert (Hn : 0 < 2 ^ (er - e)) by (apply Z.pow_pos_nonneg; lia).
  set (den' := 2 ^ (er - e) * den) in *.
  assert (Hden' : 0 < den') by (unfold den'; nia).
  assert (HP : 0 < 2 ^ (er - emin64)) by (apply Z.pow_pos_nonneg; lia).
  set (P := 2 ^ (er - emin64)) in *.
  pose proof (round_nearest_even_holds r num den' Hnum Hden' Hh) as [Herr Hm''].
  cbv zeta in Herr, Hm''.
  set (m'' := round_nearest_even (shr_m r) (loc_of_shr_record r)) in *.
  assert (Hm0 : 0 <= m / 2 ^ (er - e)) by (apply Z.div_pos; [subst m; apply Z.div_pos|]; lia).
  assert (Hm' : num / den' = m / 2 ^ (er - e)).
  { unfold den'. rewrite Z.mul_comm, <- Z.div_div by lia. now rewrite <- Hm. }
  (* the integer part after the shift has at most 53 digits, and exactly
     53 above the least exponent *)
  assert (Hdig : num / den' < 2 ^ 53 /\ (er = emin64 \/ 2 ^ 52 <= num / den')).
  { rewrite Hm'.
    destruct (Z.eq_dec m 0) as [Hz|Hnz].
    - rewrite Hz, Z.div_0_l by lia. split; [lia|]. left.
      unfold er. rewrite Hz. cbn [Zdigits2]. revert He. unfold er. rewrite Hz.
      cbn [Zdigits2]. unfold fexp, SpecFloat.emin, emin64.
      change prec with 53. change emax with 1024. lia.
    - assert (Hmpos : 0 < m) by (subst m; pose proof (Z.div_pos num den); lia).
      destruct (Zdigits2_bounds m Hmpos) as [[Hlo Hhi] Hd].
      set (d := Zdigits2 m) in *.
      assert (Hcase : er = d + e - 53 \/ (er = emin64 /\ d + e - 53 <= emin64)).
      { unfold er, fexp, SpecFloat.emin, emin64.
        change prec with 53. change emax with 1024. lia. }
      split.
      + apply Z.div_lt_upper_bound; [lia|].
        rewrite <- Z.pow_add_r by lia.
        apply Z.lt_le_trans with (2 ^ d); [exact Hhi|].
        apply Z.pow_le_mono_r; lia.
      + destruct Hcase as [Hc|[Hc _]]; [|now left].
        destruct (Z.eq_dec er emin64); [now left|right].
        apply Z.div_le_lower_bound; [lia|].
        rewrite <- Z.pow_add_r by lia.
        apply Z.le_trans with (2 ^ (d - 1)); [|exact Hlo].
        apply Z.pow_le_mono_r; lia. }
  destruct Hdig as [Hhi53 Hlo52].
  exists (m'' * P).
  assert (Hm''0 : 0 <= m'') by (pose proof (Z.div_pos num den'); lia).
  split; [nia|]. split.
  { replace (m'' * P * den' - num * P) with ((m'' * den' - num) * P) by ring.
    rewrite Z.abs_mul, (Z.abs_eq P) by lia. nia. }
  split.
  { destruct Hlo52 as [->|H52]; [now left|right].
    pose proof (Z.mul_div_le num den' Hden'). nia. }
  (* the second normalisation *)
  unfold rounds_to, binary_round_aux. rewrite Hr. fold m''.
  destruct (Z.eq_dec m'' 0) as [Hz|Hnz].
  - rewrite Hz. left.
    assert (E : shr_fexp prec emax 0 er loc_Exact
                = ({| shr_m := 0; shr_r := false; shr_s := false |}, er)).
    { unfold shr_fexp, shr. cbn [Zdigits2 shr_record_of_loc].
      assert (Hle : fexp prec emax (0 + er) - er <= 0).
      { unfold fexp, SpecFloat.emin, emin64 in *.
        change prec with 53. change emax with 1024. lia. }
      destruct (fexp prec emax (0 + er) - er); try lia; reflexivity. }
    rewrite E. cbn [shr_m]. split; [reflexivity|lia].
  - assert (Hpos : 0 < m'') by lia.
    destruct (Zdigits2_bounds m'' Hpos) as [[Hlo'' Hhi''] Hd''].
    destruct (Z.eq_dec m'' (2 ^ 53)) as [Hcarry|Hnc].
    + (* the mantissa has become 2^53: one more shift *)
      assert (Hd54 : Zdigits2 m'' = 54).
      { rewrite Hcarry. reflexivity. }
      assert (E : shr_fexp prec emax m'' er loc_Exact
                  = ({| shr_m := 2 ^ 52; shr_r := false; shr_s := false |}, er + 1)).
      { unfold shr_fexp, shr. rewrite Hd54.
        replace (fexp prec emax (54 + er) - er) with 1
          by (unfold fexp, SpecFloat.emin, emin64 in *;
              change prec with 53; change emax with 1024; lia).
        rewrite Hcarry. reflexivity. }
      rewrite E. cbn [shr_m]. change (2 ^ 52) with (Z.pos (2 ^ 52)%positive).
      cbv iota.
      destruct (Z.leb_spec (er + 1) (emax - prec)) as [Hfin|Hinf].
      * right; left. exists (2 ^ 52)%positive, (er + 1). split; [reflexivity|].
        unfold magnitude, P. rewrite Hcarry.
        replace (er + 1 - emin64) with (Z.succ (er - emin64)) by lia.
        rewrite Z.pow_succ_r by lia.
        change (Z.pos (2 ^ 52)) with (2 ^ 52). change (2 ^ 53) with (2 ^ 52 * 2). ring.
      * right; right. split; [reflexivity|].
        rewrite Hcarry. unfold P. change emax with 1024 in Hinf. change prec with 53 in Hinf.
        rewrite <- Z.pow_add_r by lia. apply Z.pow_le_mono_r; unfold emin64; lia.
    + assert (Hlt : m'' < 2 ^ 53) by lia.
      assert (Hd53 : Zdigits2 m'' <= 53) by (apply Zdigits2_le; lia).
      assert (E : shr_fexp prec emax m'' er loc_Exact
                  = ({| shr_m := m''; shr_r := false; shr_s := false |}, er)).
      { unfold shr_fexp, shr. cbn [shr_record_of_loc].
        assert (Hle : fexp prec emax (Zdigits2 m'' + er) - er <= 0).
        { unfold fexp, SpecFloat.emin, emin64 in *.
          change prec with 53. change emax with 1024. lia. }
        destruct (fexp prec emax (Zdigits2 m'' + er) - er); try lia; reflexivity. }
      rewrite E. cbn [shr_m].
      destruct m'' as [|p|p]; try lia.
      destruct (Z.leb_spec er (emax - prec)) as [Hfin|Hinf].
      * right; left. exists p, er. split; [reflexivity|]. reflexivity.
      * right; right. split; [reflexivity|].
        change emax with 1024 in Hinf. change prec with 53 in Hinf.
        destruct Hlo52 as [Hmin|H52]; [unfold emin64 in *; lia|].
        apply Z.le_trans with (2 ^ 52 * P); [|nia].
        unfold P. rewrite <- Z.pow_add_r by lia.
        apply Z.pow_le_mono_r; unfold emin64; lia.
Qed.

Lemma fexp_cases (x : Z) :
  fexp prec emax x = x - 53 /\ emin64 <= x - 53
  \/ fexp prec emax x = emin64 /\ x - 53 <= emin64.
Proof.
  unfold fexp, SpecFloat.emin, emin64. change prec with 53. change emax with 1024. lia.
Qed.

(** A valid number is normal (53 digits) or has the least exponent. *)
Lemma valid_digits (s : bool) (m : positive) (e : Z) :
  valid_binary (S754_finite s m e) = true ->
  emin64 <= e <= 971
  /\ Zdigits2 (Z.pos m) <= 53
  /\ (Zdigits2 (Z.pos m) = 53 \/ e = emin64).
Proof.
  unfold valid_binary, SpecFloat.valid_binary, bounded, canonical_mantissa.
  intros H. apply andb_true_iff in H. destruct H as [H1 H2].
  apply Z.eqb_eq in H1. apply Z.leb_le in H2.
  change emax with 1024 in H2. change prec with 53 in H2.
  cbn [Zdigits2]. destruct (fexp_cases (Z.pos (digits2_pos m) + e)) as [[E L]|[E L]];
    rewrite E in H1; unfold emin64 in *; lia.
Qed.

Lemma magnitude_pos (m : positive) (e : Z) : emin64 <= e -> 0 < magnitude m e.
Proof.
  intros H. unfold magnitude.
  assert (0 < 2 ^ (e - emin64)) by (apply Z.pow_pos_nonneg; lia). nia.
Qed.

(** The product. *)
Lemma SFmul_finite_error (sx : bool) (mx : positive) (ex : Z)
      (sy : bool) (my : positive) (ey : Z) :
  valid_binary (S754_finite sx mx ex) = true ->
  valid_binary (S754_finite sy my ey) = true ->
  exists R,
    0 <= R
    /\ rounds_to (xorb sx sy) R (SF64mul (S754_finite sx mx ex) (S754_finite sy my ey))
    /\ 2 ^ 53 * Z.abs (R * scale - magnitude mx ex * magnitude my ey)
       <= magnitude mx ex * magnitude my ey + 2 ^ 52 * scale.
Proof.
  intros Hx Hy.
  destruct (valid_digits _ _ _ Hx) as (Hex & Hdx & Hnx).
  destruct (valid_digits _ _ _ Hy) as (Hey & Hdy & Hny).
  destruct (Zdigits2_bounds (Z.pos mx) ltac:(lia)) as [[Hxlo Hxhi] Hdx0].
  destruct (Zdigits2_bounds (Z.pos my) ltac:(lia)) as [[Hylo Hyhi] Hdy0].
  destruct (Zdigits2_bounds (Z.pos (mx * my)) ltac:(lia)) as [[Hlo Hhi] Hd0].
  set (m := Z.pos (mx * my)) in *. set (e := ex + ey).
  assert (Hm : m = Z.pos mx * Z.pos my) by reflexivity.
  assert (He : e <= fexp prec emax (Zdigits2 m + e)).
  { destruct (fexp_cases (Zdigits2 m + e)) as [[E L]|[E L]]; rewrite E.
    - destruct (Z.le_gt_cases 53 (Zdigits2 m)) as [|Hsmall]; [lia|].
      (* fewer than 53 digits: both factors have the least exponent *)
      assert (Zdigits2 (Z.pos mx) < 53).
      { destruct (Z.lt_ge_cases (Zdigits2 (Z.pos mx)) 53) as [|Hbig]; [assumption|].
        assert (2 ^ 52 <= Z.pos mx)
          by (apply Z.le_trans with (2 ^ (Zdigits2 (Z.pos mx) - 1));
              [apply Z.pow_le_mono_r; lia|assumption]).
        assert (m < 2 ^ 52)
          by (apply Z.lt_le_trans with (2 ^ Zdigits2 m);
              [assumption|apply Z.pow_le_mono_r; lia]).
        nia. }
      assert (Zdigits2 (Z.pos my) < 53).
      { destruct (Z.lt_ge_cases (Zdigits2 (Z.pos my)) 53) as [|Hbig]; [assumption|].
        assert (2 ^ 52 <= Z.pos my)
          by (apply Z.le_trans with (2 ^ (Zdigits2 (Z.pos my) - 1));
              [apply Z.pow_le_mono_r; lia|assumption]).
        assert (m < 2 ^ 52)
          by (apply Z.lt_le_trans with (2 ^ Zdigits2 m);
              [assumption|apply Z.pow_le_mono_r; lia]).
        nia. }
      unfold e, emin64 in *. lia.
    - destruct Hnx as [Hnx|Hnx], Hny as [Hny|Hny].
      + (* both normal: at least 105 digits *)
        assert (2 ^ 104 <= m).
        { rewrite Hnx in Hxlo. rewrite Hny in Hylo.
          change (2 ^ 104) with (2 ^ (53 - 1) * 2 ^ (53 - 1)). nia. }
        assert (104 < Zdigits2 m).
        { destruct (Z.lt_ge_cases 104 (Zdigits2 m)) as [|Hs]; [assumption|].
          assert (2 ^ Zdigits2 m <= 2 ^ 104) by (apply Z.pow_le_mono_r; lia). lia. }
        unfold e, emin64 in *. lia.
      + assert (2 ^ 52 <= m).
        { rewrite Hnx in Hxlo. change (53 - 1) with 52 in Hxlo. nia. }
        assert (52 < Zdigits2 m).
        { destruct (Z.lt_ge_cases 52 (Zdigits2 m)) as [|Hs]; [assumption|].
          assert (2 ^ Zdigits2 m <= 2 ^ 52) by (apply Z.pow_le_mono_r; lia). lia. }
        unfold e, emin64 in *. lia.
      + assert (2 ^ 52 <= m).
        { rewrite Hny in Hylo. change (53 - 1) with 52 in Hylo. nia. }
        assert (52 < Zdigits2 m).
        { destruct (Z.lt_ge_cases 52 (Zdigits2 m)) as [|Hs]; [assumption|].
          assert (2 ^ Zdigits2 m <= 2 ^ 52) by (apply Z.pow_le_mono_r; lia). lia. }
        unfold e, emin64 in *. lia.
      + unfold e, emin64 in *. lia. }
  destruct (binary_round_aux_error (xorb sx sy) m e loc_Exact m 1
              ltac:(lia) ltac:(lia)
              ltac:(now rewrite Z.div_1_r)
              ltac:(now rewrite Z.mod_1_r)
              He) as (R & HR0 & Herr & Hrel & Hres).
  cbv zeta in Herr, Hrel.
  set (er := fexp prec emax (Zdigits2 m + e)) in *.
  assert (Her : emin64 <= er) by (destruct (fexp_cases (Zdigits2 m + e)) as [[E L]|[E L]]; unfold er; lia).
  exists R. split; [exact HR0|]. split; [exact Hres|].
  rewrite !Z.mul_1_r in Herr, Hrel.
  unfold magnitude, scale.
  set (n := er - e) in *.
  assert (Hn : 0 <= n) by (unfold n; lia).
  (* G is the weight of a unit of the product's mantissa, times [scale] *)
  set (G := 2 ^ (e - emin64 - emin64)).
  assert (HG : 0 < G) by (apply Z.pow_pos_nonneg; unfold e, emin64 in *; lia).
  assert (HKK : Z.pos mx * 2 ^ (ex - emin64) * (Z.pos my * 2 ^ (ey - emin64)) = m * G).
  { unfold G, e. replace (ex + ey - emin64 - emin64) with ((ex - emin64) + (ey - emin64)) by lia.
    rewrite Z.pow_add_r by lia. rewrite Hm. ring. }
  assert (HPS : 2 ^ (er - emin64) * 2 ^ 1074 = 2 ^ n * G).
  { unfold G, n. rewrite <- !Z.pow_add_r by (unfold e, emin64 in *; lia).
    f_equal. unfold emin64. lia. }
  rewrite HKK.
  assert (H2n : 0 < 2 ^ n) by (apply Z.pow_pos_nonneg; lia).
  assert (HS : 0 < 2 ^ 1074) by (apply Z.pow_pos_nonneg; lia).
  assert (HP : 0 < 2 ^ (er - emin64)) by (apply Z.pow_pos_nonneg; lia).
  set (P := 2 ^ (er - emin64)) in *. set (S := 2 ^ 1074) in *. set (N := 2 ^ n) in *.
  assert (Hmain : 2 * Z.abs (R * S - m * G) <= P * S).
  { assert (E : (R * N - m * P) * S = N * (R * S - m * G)) by (rewrite Z.mul_sub_distr_r, <- (Z.mul_assoc m P S), HPS; ring).
    assert (E2 : 2 * Z.abs ((R * N - m * P) * S) <= N * P * S).
    { rewrite Z.abs_mul, (Z.abs_eq S) by lia. nia. }
    rewrite E, Z.abs_mul, (Z.abs_eq N) in E2 by lia. nia. }
  destruct Hrel as [Hmin|Hnorm].
  - assert (P = 1) by (unfold P; rewrite Hmin; reflexivity).
    change (2 ^ 53) with (2 * 2 ^ 52). nia.
  - assert (2 ^ 52 * (P * S) <= m * G) by (rewrite HPS; nia).
    change (2 ^ 53) with (2 * 2 ^ 52). nia.
Qed.

(** Zero or finite. *)
Definition SFfinite (z : spec_float) : bool :=
  match z with
  | S754_zero _ | S754_finite _ _ _ => true
  | _ => false
  end.

Lemma rounds_to_key (s : bool) (R : Z) (z : spec_float) :
  rounds_to s R z -> R < 2 ^ 2098 ->
  SFfinite z = true /\ key z = cond_Zopp s R.
Proof.
  intros [[-> ->]|[(m & e & -> & ->)|[_ Hbig]]] Hlt.
  - split; [reflexivity|]. now destruct s.
  - split; reflexivity.
  - lia.
Qed.

Lemma Zdigits2_unique (m d : Z) :
  0 < m -> 2 ^ (d - 1) <= m < 2 ^ d -> Zdigits2 m = d.
Proof.
  intros Hm H. destruct m as [|p|p]; try lia. cbn [Zdigits2].
  now apply digits2_pos_unique.
Qed.

(** Rounding an integer multiple of [2^e], for [e] not below the least
    exponent: no absolute error. *)
Lemma binary_round_error (s : bool) (m : positive) (e : Z) :
  emin64 <= e ->
  exists R,
    0 <= R
    /\ rounds_to s R (binary_round prec emax s m e)
    /\ 2 ^ 53 * Z.abs (R - magnitude m e) <= magnitude m e.
Proof.
  intros He. unfold binary_round.
  destruct (Zdigits2_bounds (Z.pos m) ltac:(lia)) as [[Hlo Hhi] Hd0].
  change (Z.pos (digits2_pos m)) with (Zdigits2 (Z.pos m)).
  set (d := Zdigits2 (Z.pos m)) in *.
  set (F := fexp prec emax (d + e)).
  assert (HF : emin64 <= F) by (destruct (fexp_cases (d + e)) as [[E L]|[E L]]; unfold F; lia).
  (* the aligned mantissa and exponent *)
  assert (Halign : exists mz ez,
             shl_align m e F = (mz, ez)
             /\ emin64 <= ez <= e
             /\ Z.pos mz = Z.pos m * 2 ^ (e - ez)
             /\ ez <= fexp prec emax (Zdigits2 (Z.pos mz) + ez)).
  { destruct (Z.le_gt_cases e F) as [Hle|Hgt].
    - exists m, e. split.
      + unfold shl_align. destruct (F - e) eqn:E; try lia; reflexivity.
      + split; [lia|]. split; [rewrite Z.sub_diag; lia|exact Hle].
    - exists (fst (shl_align m e F)), F.
      split; [rewrite <- (shl_align_exponent m e F) at 3 by lia;
              now destruct (shl_align m e F)|].
      split; [lia|]. split; [apply shl_align_value; lia|].
      rewrite shl_align_value by lia.
      assert (Hk : 0 < 2 ^ (e - F)) by (apply Z.pow_pos_nonneg; lia).
      rewrite (Zdigits2_unique (Z.pos m * 2 ^ (e - F)) (d + (e - F))); [|nia|].
      + replace (d + (e - F) + F) with (d + e) by lia. apply Z.le_refl.
      + replace (d + (e - F) - 1) with ((d - 1) + (e - F)) by lia.
        rewrite !Z.pow_add_r by lia. nia. }
  destruct Halign as (mz & ez & -> & Hez & Hmz & Hcanon).
  destruct (binary_round_aux_error s (Z.pos mz) ez loc_Exact (Z.pos mz) 1
              ltac:(lia) ltac:(lia)
              ltac:(now rewrite Z.div_1_r)
              ltac:(now rewrite Z.mod_1_r)
              Hcanon) as (R & HR0 & Herr & Hrel & Hres).
  cbv zeta in Herr, Hrel.
  set (er := fexp prec emax (Zdigits2 (Z.pos mz) + ez)) in *.
  exists R. split; [exact HR0|]. split; [exact Hres|].
  rewrite !Z.mul_1_r in Herr, Hrel.
  assert (HT : magnitude m e = Z.pos mz * 2 ^ (ez - emin64)).
  { unfold magnitude. rewrite Hmz, <- Z.mul_assoc, <- Z.pow_add_r by lia.
    f_equal. f_equal. lia. }
  rewrite HT.
  assert (HP : 2 ^ (er - emin64) = 2 ^ (er - ez) * 2 ^ (ez - emin64)).
  { rewrite <- Z.pow_add_r by lia. f_equal. lia. }
  assert (HN : 0 < 2 ^ (er - ez)) by (apply Z.pow_pos_nonneg; lia).
  assert (HQ : 0 < 2 ^ (ez - emin64)) by (apply Z.pow_pos_nonneg; lia).
  rewrite HP in Herr.
  set (N := 2 ^ (er - ez)) in *. set (W := 2 ^ (ez - emin64)) in *.
  set (T := Z.pos mz * W).
  assert (Hmain : 2 * Z.abs (R - T) <= N * W).
  { assert (E : R * N - Z.pos mz * (N * W) = N * (R - T)) by (unfold T; ring).
    rewrite E, Z.abs_mul, (Z.abs_eq N) in Herr by lia. nia. }
  destruct Hrel as [Hmin|Hnorm].
  - assert (ez = er) by lia.
    assert (N = 1) by (unfold N; replace (er - ez) with 0 by lia; reflexivity).
    assert (W = 1) by (unfold W; replace (ez - emin64) with 0 by lia; reflexivity).
    assert (R = T) by lia. subst R. rewrite Z.sub_diag. cbn [Z.abs]. unfold T. nia.
  - assert (2 ^ 52 * (N * W) <= T) by (unfold T; nia).
    change (2 ^ 53) with (2 * 2 ^ 52). nia.
Qed.

(** Rounding the integer [D] times [2^ez]. *)
Lemma binary_normalize_error (D ez : Z) :
  emin64 <= ez ->
  let K := D * 2 ^ (ez - emin64) in
  let z := binary_normalize prec emax D ez false in
  2 ^ 2097 <= Z.abs K
  \/ (SFfinite z = true /\ 2 ^ 53 * Z.abs (key z - K) <= Z.abs K).
Proof.
  intros Hez. cbv zeta.
  assert (HW : 0 < 2 ^ (ez - emin64)) by (apply Z.pow_pos_nonneg; lia).
  destruct D as [|p|p]; cbn [binary_normalize].
  - right. split; [reflexivity|]. cbn. lia.
  - destruct (binary_round_error false p ez Hez) as (R & HR0 & Hres & Herr).
    fold (magnitude p ez). pose proof (magnitude_pos p ez Hez) as HT.
    destruct (Z.lt_ge_cases R (2 ^ 2098)) as [Hlt|Hge].
    + right. destruct (rounds_to_key _ _ _ Hres Hlt) as [Hf Hk].
      split; [exact Hf|]. rewrite Hk. cbn [cond_Zopp].
      rewrite (Z.abs_eq (magnitude p ez)) by lia. exact Herr.
    + left. rewrite (Z.abs_eq (magnitude p ez)) by lia.
      change (2 ^ 2098) with (2 * 2 ^ 2097) in Hge.
      assert (0 < 2 ^ 53) by (apply Z.pow_pos_nonneg; lia). lia.
  - destruct (binary_round_error true p ez Hez) as (R & HR0 & Hres & Herr).
    pose proof (magnitude_pos p ez Hez) as HT.
    replace (Z.neg p * 2 ^ (ez - emin64)) with (- magnitude p ez)
      by (unfold magnitude; lia).
    destruct (Z.lt_ge_cases R (2 ^ 2098)) as [Hlt|Hge].
    + right. destruct (rounds_to_key _ _ _ Hres Hlt) as [Hf Hk].
      split; [exact Hf|]. rewrite Hk. cbn [cond_Zopp].
      replace (- R - - magnitude p ez) with (- (R - magnitude p ez)) by ring.
      rewrite !Z.abs_opp, (Z.abs_eq (magnitude p ez)) by lia. exact Herr.
    + left. rewrite Z.abs_opp, (Z.abs_eq (magnitude p ez)) by lia.
      change (2 ^ 2098) with (2 * 2 ^ 2097) in Hge.
      assert (0 < 2 ^ 53) by (apply Z.pow_pos_nonneg; lia). lia.
Qed.

Lemma key_aligned (s : bool) (m : positive) (e ez : Z) :
  emin64 <= ez <= e ->
  key (S754_finite s m e)
  = cond_Zopp s (Z.pos (fst (shl_align m e ez))) * 2 ^ (ez - emin64).
Proof.
  intros H. cbn [key]. unfold magnitude. rewrite shl_align_value by lia.
  replace (e - emin64) with ((e - ez) + (ez - emin64)) by lia.
  rewrite Z.pow_add_r by lia. destruct s; cbn [cond_Zopp]; ring.
Qed.

(** The difference: within [2^-53] of the exact one, relatively. *)
Lemma SFsub_error (x y : spec_float) :
  valid_binary x = true -> valid_binary y = true ->
  SFfinite x = true -> SFfinite y = true ->
  let K := key x - key y in
  2 ^ 2097 <= Z.abs K
  \/ (SFfinite (SF64sub x y) = true
      /\ 2 ^ 53 * Z.abs (key (SF64sub x y) - K) <= Z.abs K).
Proof.
  intros Hx Hy Fx Fy. cbv zeta.
  assert (H53 : 0 < 2 ^ 53) by (apply Z.pow_pos_nonneg; lia).
  destruct x as [sx|sx| |sx mx ex], y as [sy|sy| |sy my ey]; try discriminate.
  - right. split; [now destruct sx, sy|]. destruct sx, sy; cbn; lia.
  - right. split; [reflexivity|]. cbn [SF64sub SFsub key].
    replace (cond_Zopp (negb sy) (magnitude my ey) - (0 - cond_Zopp sy (magnitude my ey)))
      with 0 by (destruct sy; cbn [negb cond_Zopp]; ring).
    cbn [Z.abs]. lia.
  - right. split; [reflexivity|]. cbn [SF64sub SFsub].
    replace (key (S754_finite sx mx ex) - (key (S754_finite sx mx ex) - key (S754_zero sy)))
      with 0 by (cbn [key]; ring).
    cbn [Z.abs]. lia.
  - destruct (valid_digits _ _ _ Hx) as (Hex & _).
    destruct (valid_digits _ _ _ Hy) as (Hey & _).
    unfold SF64sub, SFsub. set (ez := Z.min ex ey).
    rewrite (key_aligned sx mx ex ez), (key_aligned sy my ey ez) by (unfold ez; lia).
    rewrite <- Z.mul_sub_distr_r.
    apply binary_normalize_error. unfold ez. lia.
Qed.

(** The sum. *)
Lemma SFadd_error (x y : spec_float) :
  valid_binary x = true -> valid_binary y = true ->
  SFfinite x = true -> SFfinite y = true ->
  let K := key x + key y in
  2 ^ 2097 <= Z.abs K
  \/ (SFfinite (SF64add x y) = true
      /\ 2 ^ 53 * Z.abs (key (SF64add x y) - K) <= Z.abs K).
Proof.
  intros Hx Hy Fx Fy. cbv zeta.
  assert (H53 : 0 < 2 ^ 53) by (apply Z.pow_pos_nonneg; lia).
  destruct x as [sx|sx| |sx mx ex], y as [sy|sy| |sy my ey]; try discriminate.
  - right. split; [now destruct sx, sy|]. destruct sx, sy; cbn; lia.
  - right. split; [reflexivity|]. cbn [SF64add SFadd].
    replace (key (S754_finite sy my ey) - (key (S754_zero sx) + key (S754_finite sy my ey)))
      with 0 by (cbn [key]; ring).
    cbn [Z.abs]. lia.
  - right. split; [reflexivity|]. cbn [SF64add SFadd].
    replace (key (S754_finite sx mx ex) - (key (S754_finite sx mx ex) + key (S754_zero sy)))
      with 0 by (cbn [key]; ring).
    cbn [Z.abs]. lia.
  - destruct (valid_digits _ _ _ Hx) as (Hex & _).
    destruct (valid_digits _ _ _ Hy) as (Hey & _).
    unfold SF64add, SFadd. set (ez := Z.min ex ey).
    rewrite (key_aligned sx mx ex ez), (key_aligned sy my ey ez) by (unfold ez; lia).
    rewrite <- Z.mul_add_distr_r.
    apply binary_normalize_error. unfold ez. lia.
Qed.

Lemma new_location_rem (den rem : Z) :
  0 < den -> 0 <= rem < den -> new_location den rem = loc_of_rem rem den.
Proof.
  intros Hden Hrem. unfold new_location, new_location_even, new_location_odd, loc_of_rem.
  destruct (Z.even den) eqn:Ev; [reflexivity|].
  destruct (Z.eqb_spec rem 0); [reflexivity|]. f_equal.
  assert (Hodd : Z.odd den = true) by (rewrite <- Z.negb_even, Ev; reflexivity).
  apply Z.odd_spec in Hodd. destruct Hodd as [k Hk].
  destruct (Z.compare_spec (2 * rem + 1) den) as [C|C|C];
    symmetry; [apply Z.compare_lt_iff|apply Z.compare_lt_iff|apply Z.compare_gt_iff]; lia.
Qed.

(** The quotient. *)
Lemma SFdiv_finite_error (sx : bool) (mx : positive) (ex : Z)
      (sy : bool) (my : positive) (ey : Z) :
  valid_binary (S754_finite sx mx ex) = true ->
  valid_binary (S754_finite sy my ey) = true ->
  exists R,
    0 <= R
    /\ rounds_to (xorb sx sy) R (SF64div (S754_finite sx mx ex) (S754_finite sy my ey))
    /\ 2 ^ 53 * Z.abs (R * magnitude my ey - magnitude mx ex * scale)
       <= magnitude mx ex * scale + 2 ^ 52 * magnitude my ey.
Proof.
  intros Hx Hy.
  destruct (valid_digits _ _ _ Hx) as (Hex & Hdx & Hnx).
  destruct (valid_digits _ _ _ Hy) as (Hey & Hdy & Hny).
  destruct (Zdigits2_bounds (Z.pos mx) ltac:(lia)) as [[Hxlo Hxhi] Hdx0].
  destruct (Zdigits2_bounds (Z.pos my) ltac:(lia)) as [[Hylo Hyhi] Hdy0].
  unfold SF64div, SFdiv, SFdiv_core_binary.
  set (d1 := Zdigits2 (Z.pos mx)) in *. set (d2 := Zdigits2 (Z.pos my)) in *.
  set (F := fexp prec emax (d1 + ex - (d2 + ey))).
  set (e' := Z.min F (ex - ey)).
  set (sh := ex - ey - e').
  assert (Hsh : 0 <= sh) by (unfold sh, e'; lia).
  set (m' := match sh with
             | 0 => Z.pos mx
             | Z.pos _ => Z.shiftl (Z.pos mx) sh
             | Z.neg _ => 0
             end).
  assert (Hm' : m' = Z.pos mx * 2 ^ sh).
  { unfold m'. destruct sh as [|p|p] eqn:E; try lia.
    apply Z.shiftl_mul_pow2. lia. }
  assert (H2sh : 0 < 2 ^ sh) by (apply Z.pow_pos_nonneg; lia).
  assert (Hm'0 : 0 < m') by (rewrite Hm'; nia).
  pose proof (Z.mod_pos_bound m' (Z.pos my) ltac:(lia)) as Hrem.
  assert (Hdiv : Z.div_eucl m' (Z.pos my) = (m' / Z.pos my, m' mod Z.pos my)).
  { unfold Z.div, Z.modulo. now destruct (Z.div_eucl m' (Z.pos my)). }
  rewrite Hdiv. rewrite new_location_rem by lia.
  set (q := m' / Z.pos my).
  assert (Hq0 : 0 <= q) by (apply Z.div_pos; lia).
  assert (Hcanon : e' <= fexp prec emax (Zdigits2 q + e')).
  { destruct (Z.le_gt_cases e' emin64) as [Hle|Hgt].
    - destruct (fexp_cases (Zdigits2 q + e')) as [[E L]|[E L]]; lia.
    - (* above the least exponent the quotient has 53 digits *)
      assert (HF : F = d1 + ex - (d2 + ey) - 53 /\ e' = F).
      { destruct (fexp_cases (d1 + ex - (d2 + ey))) as [[E L]|[E L]];
          fold F in E; unfold e' in *; lia. }
      destruct HF as [HF He'].
      assert (Hshv : sh = 53 - d1 + d2) by (unfold sh; lia).
      assert (Hq52 : 2 ^ 52 <= q).
      { apply Z.div_le_lower_bound; [lia|].
        rewrite Hm', Hshv.
        apply Z.le_trans with (2 ^ 52 * 2 ^ d2); [nia|].
        replace (53 - d1 + d2) with ((52 + d2) - (d1 - 1)) by lia.
        assert (Hsplit : 2 ^ (d1 - 1) * 2 ^ (52 + d2 - (d1 - 1)) = 2 ^ 52 * 2 ^ d2).
        { rewrite <- !Z.pow_add_r by lia. f_equal. lia. }
        assert (0 < 2 ^ (52 + d2 - (d1 - 1))) by (apply Z.pow_pos_nonneg; lia).
        nia. }
      assert (52 < Zdigits2 q).
      { destruct (Zdigits2_bounds q ltac:(lia)) as [[_ Hqhi] _].
        destruct (Z.lt_ge_cases 52 (Zdigits2 q)) as [|Hs]; [assumption|].
        assert (2 ^ Zdigits2 q <= 2 ^ 52) by (apply Z.pow_le_mono_r; lia). lia. }
      destruct (fexp_cases (Zdigits2 q + e')) as [[E L]|[E L]]; lia. }
  destruct (binary_round_aux_error (xorb sx sy) q e'
              (loc_of_rem (m' mod Z.pos my) (Z.pos my)) m' (Z.pos my)
              ltac:(lia) ltac:(lia) eq_refl eq_refl Hcanon)
    as (R & HR0 & Herr & Hrel & Hres).
  cbv zeta in Herr, Hrel.
  set (er := fexp prec emax (Zdigits2 q + e')) in *.
  assert (Her : emin64 <= er)
    by (destruct (fexp_cases (Zdigits2 q + e')) as [[E L]|[E L]]; unfold er; lia).
  exists R. split; [exact HR0|]. split; [exact Hres|].
  unfold magnitude, scale.
  set (n := er - e') in *.
  assert (Hn : 0 <= n) by (unfold n; lia).
  assert (HN : 0 < 2 ^ n) by (apply Z.pow_pos_nonneg; lia).
  assert (HW : 0 < 2 ^ (ey - emin64)) by (apply Z.pow_pos_nonneg; lia).
  assert (HP : 0 < 2 ^ (er - emin64)) by (apply Z.pow_pos_nonneg; lia).
  assert (HX : 0 < 2 ^ (ex - emin64)) by (apply Z.pow_pos_nonneg; lia).
  assert (HS : 0 < 2 ^ 1074) by (apply Z.pow_pos_nonneg; lia).
  assert (Hexp : 2 ^ sh * 2 ^ (er - emin64) * 2 ^ (ey - emin64)
                 = 2 ^ (ex - emin64) * 2 ^ 1074 * 2 ^ n).
  { rewrite <- !Z.pow_add_r by lia. f_equal. unfold sh, n, emin64. lia. }
  set (N := 2 ^ n) in *. set (W := 2 ^ (ey - emin64)) in *.
  set (P := 2 ^ (er - emin64)) in *. set (X := 2 ^ (ex - emin64)) in *.
  set (S := 2 ^ 1074) in *. set (SH := 2 ^ sh) in *.
  assert (Hmain : 2 * Z.abs (R * (Z.pos my * W) - Z.pos mx * X * S) <= Z.pos my * W * P).
  { assert (E : (R * (N * Z.pos my) - m' * P) * W
                = N * (R * (Z.pos my * W) - Z.pos mx * X * S)).
    { rewrite Hm'. 
      replace (Z.pos mx * SH * P) with (Z.pos mx * (SH * P)) by ring.
      rewrite Z.mul_sub_distr_r.
      replace (Z.pos mx * (SH * P) * W) with (Z.pos mx * (SH * P * W)) by ring.
      rewrite Hexp. ring. }
    assert (E2 : 2 * Z.abs ((R * (N * Z.pos my) - m' * P) * W) <= N * Z.pos my * P * W).
    { rewrite Z.abs_mul, (Z.abs_eq W) by lia. nia. }
    rewrite E, Z.abs_mul, (Z.abs_eq N) in E2 by lia. nia. }
  destruct Hrel as [Hmin|Hnorm].
  - assert (P = 1) by (unfold P; rewrite Hmin; reflexivity).
    change (2 ^ 53) with (2 * 2 ^ 52). nia.
  - assert (2 ^ 52 * (Z.pos my * W * P) <= Z.pos mx * X * S).
    { assert (E : 2 ^ 52 * (N * Z.pos my) * (P * W) <= m' * (P * W))
        by (apply Z.mul_le_mono_nonneg_r; nia).
      rewrite Hm' in E.
      replace (Z.pos mx * SH * (P * W)) with (Z.pos mx * (SH * P * W)) in E by ring.
      rewrite Hexp in E. nia. }
    change (2 ^ 53) with (2 * 2 ^ 52). nia.
Qed.

End RoundingError.

(** *** The same, on numbers *)

Section NumberError.

Local Open Scope Z_scope.

Lemma isFinite_SFfinite (x : number) : isFinite x = SFfinite (Prim2SF x).
Proof. reflexivity. Qed.

Lemma sub_error (x y : number) :
  isFinite x = true -> isFinite y = true ->
  let K := number_key x - number_key y in
  Z.abs K < 2 ^ 2097 ->
  isFinite (x - y)%float = true
  /\ 2 ^ 53 * Z.abs (number_key (x - y)%float - K) <= Z.abs K.
Proof.
  intros Hx Hy K HK. unfold number_key, isFinite in *. rewrite sub_spec.
  destruct (SFsub_error (Prim2SF x) (Prim2SF y) (Prim2SF_valid x) (Prim2SF_valid y)
              Hx Hy) as [Hbig|H]; [|exact H].
  unfold K, number_key in HK. lia.
Qed.

Lemma add_error (x y : number) :
  isFinite x = true -> isFinite y = true ->
  let K := number_key x + number_key y in
  Z.abs K < 2 ^ 2097 ->
  isFinite (x + y)%float = true
  /\ 2 ^ 53 * Z.abs (number_key (x + y)%float - K) <= Z.abs K.
Proof.
  intros Hx Hy K HK. unfold number_key, isFinite in *. rewrite add_spec.
  destruct (SFadd_error (Prim2SF x) (Prim2SF y) (Prim2SF_valid x) (Prim2SF_valid y)
              Hx Hy) as [Hbig|H]; [|exact H].
  unfold K, number_key in HK. lia.
Qed.

Lemma cond_Zopp_mul (s t : bool) (a b : Z) :
  cond_Zopp s a * cond_Zopp t b = cond_Zopp (xorb s t) (a * b).
Proof. destruct s, t; cbn [cond_Zopp xorb]; ring. Qed.

Lemma abs_cond_Zopp (s : bool) (a : Z) : Z.abs (cond_Zopp s a) = Z.abs a.
Proof. destruct s; cbn [cond_Zopp]; [apply Z.abs_opp|reflexivity]. Qed.

Lemma cond_Zopp_sub (s : bool) (a b : Z) :
  cond_Zopp s a - cond_Zopp s b = cond_Zopp s (a - b).
Proof. destruct s; cbn [cond_Zopp]; ring. Qed.

Lemma mul_error (x y : number) :
  isFinite x = true -> isFinite y = true ->
  let K := number_key x * number_key y in
  Z.abs K < 2 ^ 2097 * scale ->
  isFinite (x * y)%float = true
  /\ 2 ^ 53 * Z.abs (number_key (x * y)%float * scale - K) <= Z.abs K + 2 ^ 52 * scale.
Proof.
  intros Hx Hy K HK. unfold number_key, isFinite in *. rewrite mul_spec.
  pose proof scale_pos as HS.
  pose proof (Prim2SF_valid x) as Vx. pose proof (Prim2SF_valid y) as Vy.
  unfold K, number_key in *. clear K.
  destruct (Prim2SF x) as [sx|sx| |sx mx ex], (Prim2SF y) as [sy|sy| |sy my ey];
    try discriminate;
    try (split; [reflexivity|cbn [SF64mul SFmul key];
                 rewrite ?Z.mul_0_r, ?Z.mul_0_l; cbn; lia]).
  destruct (SFmul_finite_error sx mx ex sy my ey Vx Vy) as (R & HR0 & Hres & Herr).
  destruct (valid_digits _ _ _ Vx) as (Hex & _).
  destruct (valid_digits _ _ _ Vy) as (Hey & _).
  pose proof (magnitude_pos mx ex ltac:(lia)) as HMx.
  pose proof (magnitude_pos my ey ltac:(lia)) as HMy.
  cbn [key] in HK |- *. rewrite cond_Zopp_mul, abs_cond_Zopp in HK |- *.
  rewrite (Z.abs_eq (magnitude mx ex * magnitude my ey)) in HK |- * by nia.
  assert (HR : R < 2 ^ 2098).
  { assert (H53 : 0 < 2 ^ 53) by (apply Z.pow_pos_nonneg; lia).
    assert (H2097 : 0 < 2 ^ 2097) by (apply Z.pow_pos_nonneg; lia).
    change (2 ^ 2098) with (2 * 2 ^ 2097).
    change (2 ^ 53) with (2 * 2 ^ 52) in Herr.
    assert (H52 : 0 < 2 ^ 52) by (apply Z.pow_pos_nonneg; lia).
    set (MM := magnitude mx ex * magnitude my ey) in *.
    destruct (Z.lt_ge_cases R (2 * 2 ^ 2097)) as [|Hge]; [assumption|exfalso].
    assert (2 * 2 ^ 2097 * scale <= R * scale) by nia.
    rewrite Z.abs_eq in Herr by lia. nia. }
  destruct (rounds_to_key _ _ _ Hres HR) as [Hf Hk].
  split; [exact Hf|]. rewrite Hk.
  replace (cond_Zopp (xorb sx sy) R * scale) with (cond_Zopp (xorb sx sy) (R * scale))
    by (destruct (xorb sx sy); cbn [cond_Zopp]; ring).
  rewrite cond_Zopp_sub, abs_cond_Zopp. exact Herr.
Qed.

Lemma div_error (x y : number) :
  isFinite x = true -> isFinite y = true ->
  number_key y <> 0 ->
  Z.abs (number_key x) * scale < 2 ^ 2097 * Z.abs (number_key y) ->
  isFinite (x / y)%float = true
  /\ 2 ^ 53 * Z.abs (number_key (x / y)%float * number_key y - number_key x * scale)
     <= Z.abs (number_key x) * scale + 2 ^ 52 * Z.abs (number_key y).
Proof.
  intros Hx Hy Hy0 HK. unfold number_key, isFinite in *. rewrite div_spec.
  pose proof scale_pos as HS.
  pose proof (Prim2SF_valid x) as Vx. pose proof (Prim2SF_valid y) as Vy.
  destruct (Prim2SF x) as [sx|sx| |sx mx ex], (Prim2SF y) as [sy|sy| |sy my ey];
    try discriminate;
    try (cbn [key] in Hy0; congruence).
  { split; [reflexivity|]. cbn [SF64div SFdiv key].
    rewrite !Z.mul_0_l, Z.sub_diag. change (Z.abs 0) with 0.
    assert (0 <= 2 ^ 52 * Z.abs (cond_Zopp sy (magnitude my ey)))
      by (apply Z.mul_nonneg_nonneg; [apply Z.pow_nonneg|apply Z.abs_nonneg]; lia).
    lia. }
  destruct (SFdiv_finite_error sx mx ex sy my ey Vx Vy) as (R & HR0 & Hres & Herr).
  destruct (valid_digits _ _ _ Vx) as (Hex & _).
  destruct (valid_digits _ _ _ Vy) as (Hey & _).
  pose proof (magnitude_pos mx ex ltac:(lia)) as HMx.
  pose proof (magnitude_pos my ey ltac:(lia)) as HMy.
  cbn [key] in HK |- *. rewrite !abs_cond_Zopp in HK |- *.
  rewrite (Z.abs_eq (magnitude mx ex)), (Z.abs_eq (magnitude my ey)) in HK |- * by lia.
  assert (HR : R < 2 ^ 2098).
  { assert (H2097 : 0 < 2 ^ 2097) by (apply Z.pow_pos_nonneg; lia).
    change (2 ^ 2098) with (2 * 2 ^ 2097).
    change (2 ^ 53) with (2 * 2 ^ 52) in Herr.
    assert (H52 : 0 < 2 ^ 52) by (apply Z.pow_pos_nonneg; lia).
    destruct (Z.lt_ge_cases R (2 * 2 ^ 2097)) as [|Hge]; [assumption|exfalso].
    assert (2 * 2 ^ 2097 * magnitude my ey <= R * magnitude my ey) by nia.
    assert (1 <= 2 ^ 2097) by lia.
    rewrite Z.abs_eq in Herr by nia. nia. }
  destruct (rounds_to_key _ _ _ Hres HR) as [Hf Hk].
  split; [exact Hf|]. rewrite Hk.
  rewrite cond_Zopp_mul.
  replace (xorb (xorb sx sy) sy) with sx by (now destruct sx, sy).
  replace (cond_Zopp sx (magnitude mx ex) * scale)
    with (cond_Zopp sx (magnitude mx ex * scale))
    by (destruct sx; cbn [cond_Zopp]; ring).
  rewrite cond_Zopp_sub, abs_cond_Zopp. exact Herr.
Qed.

End NumberError.

(** *** The same, on exact values *)

Section ValueError.

Local Open Scope Q_scope.

Lemma Qabs_cases (x : Q) : (0 <= x /\ Qabs x == x) \/ (x <= 0 /\ Qabs x == - x).
Proof.
  destruct (Qlt_le_dec x 0) as [H|H].
  - right. split; [lra|]. apply Qabs_neg. lra.
  - left. split; [assumption|]. now apply Qabs_pos.
Qed.

Lemma Qabs_mult_le (x y X Y : Q) :
  Qabs x <= X -> Qabs y <= Y -> Qabs (x * y) <= X * Y.
Proof.
  intros Hx Hy. rewrite Qabs_Qmult.
  apply Qmult_le_compat_nonneg; split; (apply Qabs_nonneg || assumption).
Qed.

Lemma inject_Z_pos (z : Z) : (0 < z)%Z -> 0 < inject_Z z.
Proof. intros H. change (inject_Z 0 < inject_Z z). now rewrite <- Zlt_Qlt. Qed.

Definition Zscale : Q := inject_Z scale.

Lemma Zscale_pos : 0 < Zscale.
Proof. apply inject_Z_pos. exact scale_pos. Qed.

(** The exact value is the key over [2^1074]. *)
Lemma value_key (x : number) :
  isFinite x = true -> value x == inject_Z (number_key x) / Zscale.
Proof.
  unfold isFinite, value, number_key. pose proof (Prim2SF_valid x) as V.
  pose proof Zscale_pos as HS.
  destruct (Prim2SF x) as [s|s| |s m e]; try discriminate; intros _.
  - cbn [key]. unfold Qdiv. now rewrite Qmult_0_l.
  - destruct (valid_digits _ _ _ V) as (He & _).
    cbn [key]. unfold dyadic, magnitude.
    assert (Hk : cond_Zopp s (Z.pos m * 2 ^ (e - emin64))
                 = (cond_Zopp s (Z.pos m) * 2 ^ (e - emin64))%Z)
      by (destruct s; cbn [cond_Zopp]; ring).
    rewrite Hk. set (v := cond_Zopp s (Z.pos m)).
    destruct (Z.leb_spec 0 e) as [H0|H0].
    + replace (e - emin64)%Z with (e + 1074)%Z by (unfold emin64; lia).
      rewrite Z.pow_add_r by lia. fold scale.
      rewrite Z.mul_assoc, !inject_Z_mult. fold Zscale. field. lra.
    + rewrite Qmake_Qdiv. rewrite Z2Pos.id by (apply Z.pow_pos_nonneg; lia).
      assert (Hsplit : scale = (2 ^ (e - emin64) * 2 ^ (- e))%Z).
      { unfold scale. rewrite <- Z.pow_add_r by (unfold emin64 in *; lia).
        f_equal. unfold emin64. lia. }
      unfold Zscale. rewrite Hsplit, !inject_Z_mult.
      assert (0 < inject_Z (2 ^ (- e)))
        by (apply inject_Z_pos, Z.pow_pos_nonneg; lia).
      assert (0 < inject_Z (2 ^ (e - emin64)))
        by (apply inject_Z_pos, Z.pow_pos_nonneg; unfold emin64 in *; lia).
      field. split; lra.
Qed.

Lemma Qabs_inject_Z (a : Z) : Qabs (inject_Z a) == inject_Z (Z.abs a).
Proof. reflexivity. Qed.

Lemma Qabs_over_scale (a : Z) :
  Qabs (inject_Z a / Zscale) == inject_Z (Z.abs a) / Zscale.
Proof.
  pose proof Zscale_pos as HS. unfold Qdiv.
  rewrite Qabs_Qmult, Qabs_Qinv, Qabs_inject_Z, (Qabs_pos Zscale) by lra.
  reflexivity.
Qed.

Lemma over_scale_le (a b : Q) : a <= b -> a / Zscale <= b / Zscale.
Proof.
  intros H. pose proof Zscale_pos as HS. unfold Qdiv.
  apply Qmult_le_compat_r; [assumption|].
  apply Qlt_le_weak, Qinv_lt_0_compat. assumption.
Qed.

Lemma over_scale_lt_inv (a b : Q) : a / Zscale < b -> a < b * Zscale.
Proof.
  intros H. pose proof Zscale_pos as HS.
  apply (Qmult_lt_r _ _ Zscale HS) in H.
  assert (E : a / Zscale * Zscale == a) by (field; lra).
  now rewrite E in H.
Qed.

(** Half a unit in the last place of 1, and half the least positive
    number. *)
Definition half_ulp : Q := 1 # 9007199254740992.
Definition half_least : Q := 1 # (2 ^ 1075).

(** Far below the largest number. *)
Definition below_overflow (q : Q) : Prop := Qabs q < inject_Z (2 ^ 1023).

Lemma inject_Z_minus (a b : Z) : inject_Z (a - b) = inject_Z a - inject_Z b.
Proof. unfold Z.sub. now rewrite inject_Z_plus, inject_Z_opp. Qed.

Lemma key_below_overflow (K : Z) :
  below_overflow (inject_Z K / Zscale) -> (Z.abs K < 2 ^ 2097)%Z.
Proof.
  unfold below_overflow. rewrite Qabs_over_scale. intros H.
  apply over_scale_lt_inv in H. unfold Zscale in H.
  rewrite <- inject_Z_mult, <- Zlt_Qlt in H.
  replace (2 ^ 2097)%Z with (2 ^ 1023 * scale)%Z; [exact H|].
  unfold scale. rewrite <- Z.pow_add_r by lia. reflexivity.
Qed.

Lemma half_ulp_le (A B : Z) :
  (2 ^ 53 * A <= B)%Z -> inject_Z A <= half_ulp * inject_Z B.
Proof.
  intros H. rewrite Zle_Qle, inject_Z_mult in H.
  change (inject_Z (2 ^ 53)) with 9007199254740992 in H. unfold half_ulp. lra.
Qed.

Lemma sub_near (x y : number) :
  isFinite x = true -> isFinite y = true ->
  below_overflow (value x - value y) ->
  isFinite (x - y)%float = true
  /\ Qabs (value (x - y)%float - (value x - value y))
     <= half_ulp * Qabs (value x - value y).
Proof.
  intros Hx Hy Hlt. pose proof Zscale_pos as HS.
  assert (HK : value x - value y
               == inject_Z (number_key x - number_key y) / Zscale).
  { rewrite (value_key x Hx), (value_key y Hy), inject_Z_minus. field. lra. }
  unfold below_overflow in Hlt. rewrite HK in Hlt |- *.
  apply key_below_overflow in Hlt.
  destruct (sub_error x y Hx Hy Hlt) as [Hf Herr]. split; [exact Hf|].
  rewrite (value_key _ Hf).
  set (K := (number_key x - number_key y)%Z) in *.
  set (kz := number_key (x - y)%float) in *.
  assert (E : inject_Z kz / Zscale - inject_Z K / Zscale == inject_Z (kz - K) / Zscale).
  { rewrite inject_Z_minus. field. lra. }
  rewrite E, !Qabs_over_scale.
  assert (E2 : half_ulp * (inject_Z (Z.abs K) / Zscale)
               == half_ulp * inject_Z (Z.abs K) / Zscale) by (field; lra).
  rewrite E2. apply over_scale_le. now apply half_ulp_le.
Qed.

Lemma add_near (x y : number) :
  isFinite x = true -> isFinite y = true ->
  below_overflow (value x + value y) ->
  isFinite (x + y)%float = true
  /\ Qabs (value (x + y)%float - (value x + value y))
     <= half_ulp * Qabs (value x + value y).
Proof.
  intros Hx Hy Hlt. pose proof Zscale_pos as HS.
  assert (HK : value x + value y
               == inject_Z (number_key x + number_key y) / Zscale).
  { rewrite (value_key x Hx), (value_key y Hy), inject_Z_plus. field. lra. }
  unfold below_overflow in Hlt. rewrite HK in Hlt |- *.
  apply key_below_overflow in Hlt.
  destruct (add_error x y Hx Hy Hlt) as [Hf Herr]. split; [exact Hf|].
  rewrite (value_key _ Hf).
  set (K := (number_key x + number_key y)%Z) in *.
  set (kz := number_key (x + y)%float) in *.
  assert (E : inject_Z kz / Zscale - inject_Z K / Zscale == inject_Z (kz - K) / Zscale).
  { rewrite inject_Z_minus. field. lra. }
  rewrite E, !Qabs_over_scale.
  assert (E2 : half_ulp * (inject_Z (Z.abs K) / Zscale)
               == half_ulp * inject_Z (Z.abs K) / Zscale) by (field; lra).
  rewrite E2. apply over_scale_le. now apply half_ulp_le.
Qed.

Lemma half_least_scale : half_least * Zscale == 1 # 2.
Proof.
  unfold half_least, Zscale, scale.
  rewrite (Qmake_Qdiv 1 (2 ^ 1075)).
  change (Z.pos (2 ^ 1075)) with (2 * 2 ^ 1074)%Z.
  rewrite inject_Z_mult.
  assert (0 < inject_Z (2 ^ 1074)) by (apply inject_Z_pos, Z.pow_pos_nonneg; lia).
  change (inject_Z 2) with 2. change (inject_Z 1) with 1. field. lra.
Qed.

Lemma mul_near (x y : number) :
  isFinite x = true -> isFinite y = true ->
  below_overflow (value x * value y) ->
  isFinite (x * y)%float = true
  /\ Qabs (value (x * y)%float - value x * value y)
     <= half_ulp * Qabs (value x * value y) + half_least.
Proof.
  intros Hx Hy Hlt. pose proof Zscale_pos as HS.
  assert (HK : value x * value y
               == inject_Z (number_key x * number_key y) / Zscale / Zscale).
  { rewrite (value_key x Hx), (value_key y Hy), inject_Z_mult. field. lra. }
  set (kx := number_key x) in *. set (ky := number_key y) in *.
  unfold below_overflow in Hlt. rewrite HK in Hlt |- *.
  assert (HZ : (Z.abs (kx * ky) < 2 ^ 2097 * scale)%Z).
  {
    assert (E : inject_Z (kx * ky) / Zscale / Zscale
                == inject_Z (kx * ky) / Zscale * / Zscale) by reflexivity.
    rewrite E, Qabs_Qmult, Qabs_over_scale, Qabs_Qinv, (Qabs_pos Zscale) in Hlt by lra.
    fold (Qdiv (inject_Z (Z.abs (kx * ky)) / Zscale) Zscale) in Hlt.
    apply over_scale_lt_inv, over_scale_lt_inv in Hlt.
    unfold Zscale in Hlt. rewrite <- !inject_Z_mult, <- Zlt_Qlt in Hlt.
    replace (2 ^ 2097)%Z with (2 ^ 1023 * scale)%Z; [exact Hlt|].
    unfold scale. rewrite <- Z.pow_add_r by lia. reflexivity. }
  destruct (mul_error x y Hx Hy HZ) as [Hf Herr]. split; [exact Hf|].
  rewrite (value_key _ Hf). fold kx ky in Herr.
  set (K := (kx * ky)%Z) in *. set (kz := number_key (x * y)%float) in *.
  assert (E : inject_Z kz / Zscale - inject_Z K / Zscale / Zscale
              == inject_Z (kz * scale - K) / Zscale / Zscale).
  { rewrite inject_Z_minus, inject_Z_mult. fold Zscale. field. lra. }
  rewrite E.
  assert (Eabs : forall a, Qabs (inject_Z a / Zscale / Zscale)
                           == inject_Z (Z.abs a) / Zscale / Zscale).
  { intros a. unfold Qdiv at 1. rewrite Qabs_Qmult, Qabs_over_scale, Qabs_Qinv,
      (Qabs_pos Zscale) by lra. reflexivity. }
  rewrite !Eabs.
  assert (E2 : half_ulp * (inject_Z (Z.abs K) / Zscale / Zscale) + half_least
               == (half_ulp * inject_Z (Z.abs K) + half_least * Zscale * Zscale)
                  / Zscale / Zscale) by (field; lra).
  rewrite E2. apply over_scale_le, over_scale_le.
  rewrite half_least_scale.
  rewrite Zle_Qle, inject_Z_mult, inject_Z_plus, inject_Z_mult in Herr.
  fold Zscale in Herr.
  change (inject_Z (2 ^ 53)) with 9007199254740992 in Herr.
  change (inject_Z (2 ^ 52)) with 4503599627370496 in Herr.
  unfold half_ulp. lra.
Qed.

Lemma div_near (x y : number) :
  isFinite x = true -> isFinite y = true ->
  ~ value y == 0 ->
  below_overflow (value x / value y) ->
  isFinite (x / y)%float = true
  /\ Qabs (value (x / y)%float - value x / value y)
     <= half_ulp * Qabs (value x / value y) + half_least.
Proof.
  intros Hx Hy Hy0 Hlt. pose proof Zscale_pos as HS.
  assert (Hky : number_key y <> 0%Z).
  { intros E. apply Hy0. rewrite (value_key y Hy), E.
    unfold Qdiv. now rewrite Qmult_0_l. }
  assert (Hqy : ~ inject_Z (number_key y) == 0).
  { intros E. apply Hky. now apply (inject_Z_injective (number_key y) 0). }
  assert (Habsy : 0 < inject_Z (Z.abs (number_key y))) by (apply inject_Z_pos; lia).
  assert (HK : value x / value y
               == inject_Z (number_key x * scale) / Zscale / inject_Z (number_key y)).
  { rewrite (value_key x Hx), (value_key y Hy), inject_Z_mult.
    fold Zscale. field. split; first [assumption|lra]. }
  set (kx := number_key x) in *. set (ky := number_key y) in *.
  unfold below_overflow in Hlt. rewrite HK in Hlt |- *.
  assert (Eabs : forall a, Qabs (inject_Z a / Zscale / inject_Z ky)
                           == inject_Z (Z.abs a) / Zscale / inject_Z (Z.abs ky)).
  { intros a. unfold Qdiv at 1. rewrite Qabs_Qmult, Qabs_over_scale, Qabs_Qinv,
      Qabs_inject_Z. reflexivity. }
  assert (HZ : (Z.abs kx * scale < 2 ^ 2097 * Z.abs ky)%Z).
  { rewrite Eabs in Hlt.
    assert (Hlt' : inject_Z (Z.abs (kx * scale)) / Zscale
                   < inject_Z (2 ^ 1023) * inject_Z (Z.abs ky)).
    { apply (Qmult_lt_r _ _ _ Habsy) in Hlt.
      assert (E : inject_Z (Z.abs (kx * scale)) / Zscale / inject_Z (Z.abs ky)
                  * inject_Z (Z.abs ky)
                  == inject_Z (Z.abs (kx * scale)) / Zscale) by (field; split; first [assumption|lra]).
      now rewrite E in Hlt. }
    apply over_scale_lt_inv in Hlt'. unfold Zscale in Hlt'.
    rewrite <- !inject_Z_mult, <- Zlt_Qlt in Hlt'.
    rewrite Z.abs_mul, (Z.abs_eq scale) in Hlt' by (pose proof scale_pos; lia).
    pose proof scale_pos as Hs.
    replace (2 ^ 2097)%Z with (2 ^ 1023 * scale)%Z
      by (unfold scale; rewrite <- Z.pow_add_r by lia; reflexivity).
    nia. }
  destruct (div_error x y Hx Hy Hky HZ) as [Hf Herr]. split; [exact Hf|].
  rewrite (value_key _ Hf). fold kx ky in Herr.
  set (kz := number_key (x / y)%float) in *.
  assert (E : inject_Z kz / Zscale - inject_Z (kx * scale) / Zscale / inject_Z ky
              == inject_Z (kz * ky - kx * scale) / Zscale / inject_Z ky).
  { rewrite inject_Z_minus, !inject_Z_mult. fold Zscale. field. split; first [assumption|lra]. }
  rewrite E, !Eabs.
  assert (E2 : half_ulp * (inject_Z (Z.abs (kx * scale)) / Zscale / inject_Z (Z.abs ky))
               + half_least
               == (half_ulp * inject_Z (Z.abs (kx * scale))
                   + half_least * Zscale * inject_Z (Z.abs ky))
                  / Zscale / inject_Z (Z.abs ky)) by (field; split; first [assumption|lra]).
  rewrite E2.
  unfold Qdiv at 1 3. apply Qmult_le_compat_r;
    [|apply Qlt_le_weak, Qinv_lt_0_compat; assumption].
  apply over_scale_le. rewrite half_least_scale.
  rewrite Zle_Qle, inject_Z_mult, inject_Z_plus, !inject_Z_mult in Herr.
  fold Zscale in Herr.
  rewrite Z.abs_mul, (Z.abs_eq scale), inject_Z_mult by (pose proof scale_pos; lia).
  fold Zscale.
  change (inject_Z (2 ^ 53)) with 9007199254740992 in Herr.
  change (inject_Z (2 ^ 52)) with 4503599627370496 in Herr.
  unfold half_ulp. lra.
Qed.

End ValueError.

(** ** The crossing test, up to rounding *)

Section CrossingTest.

Local Open Scope Q_scope.

(** Splits on the sign of the argument of each absolute value, so that
    linear arithmetic can go on. *)
Ltac qabs :=
  repeat match goal with
         | |- context [Qabs ?x] =>
             let H := fresh "Habs" in
             destruct (Qabs_cases x) as [[? H]|[? H]];
             rewrite ?H in *; clear H
         | H : context [Qabs ?x] |- _ =>
             let H' := fresh "Habs" in
             destruct (Qabs_cases x) as [[? H']|[? H']];
             rewrite ?H' in *; clear H'
         end.

(** Replaces a closed rational by its numeral. *)
Ltac numeral c := let v := eval vm_compute in c in change c with v in *.

(** The least span in latitude of an edge the bound below applies to. *)
Definition least_span : Q := 1 # (2 ^ 500).

(** The largest coordinate the bound below applies to. *)
Definition largest_coordinate : Q := inject_Z (2 ^ 500).

Ltac numerals :=
  numeral (2 / least_span);
  unfold half_ulp, half_least, least_span, largest_coordinate, below_overflow in *;
  numeral (1 # 2 ^ 1075); numeral (1 # 2 ^ 500);
  numeral (inject_Z (2 ^ 500)); numeral (inject_Z (2 ^ 1023)).

Lemma Qabs_between (x y z : Q) : Qabs (x - z) <= Qabs (x - y) + Qabs (y - z).
Proof.
  assert (E : x - z == (x - y) + (y - z)) by ring.
  rewrite E. apply Qabs_triangle.
Qed.

Lemma Qabs_from (x y : Q) : Qabs x <= Qabs (x - y) + Qabs y.
Proof.
  assert (E : x == (x - y) + y) by ring.
  rewrite E at 1. apply Qabs_triangle.
Qed.

Lemma Qabs_fraction_le (t x : Q) : 0 <= t <= 1 -> Qabs (t * x) <= Qabs x.
Proof.
  intros [H0 H1]. rewrite Qabs_Qmult, (Qabs_pos t) by assumption.
  pose proof (Qabs_nonneg x) as Hx.
  rewrite <- (Qmult_1_l (Qabs x)) at 2.
  apply Qmult_le_compat_r; assumption.
Qed.

Lemma Qabs_quotient_le (x d k : Q) :
  ~ d == 0 -> Qabs x <= k * Qabs d -> Qabs (x / d) <= k.
Proof.
  intros Hd H. unfold Qdiv. rewrite Qabs_Qmult, Qabs_Qinv.
  assert (Hpos : 0 < Qabs d).
  { destruct (Qabs_cases d) as [[H0 E]|[H0 E]]; rewrite E.
    - destruct (Qle_lt_or_eq _ _ H0) as [|E0]; [assumption|].
      exfalso. apply Hd. now symmetry.
    - destruct (Qle_lt_or_eq _ _ H0) as [|E0]; [lra|]. exfalso. now apply Hd. }
  apply Qle_shift_div_r; assumption.
Qed.

(** The quotient of the two rounded differences in latitude. *)
Lemma ratio_error (B D t b d : Q) :
  B == t * D -> 0 <= t <= 1 -> least_span <= Qabs D ->
  Qabs (b - B) <= half_ulp * Qabs B ->
  Qabs (d - D) <= half_ulp * Qabs D ->
  ~ d == 0
  /\ least_span <= 2 * Qabs d
  /\ Qabs (b / d - t) <= 4 * half_ulp
  /\ Qabs (b / d) <= 2.
Proof.
  intros HB Ht Hspan Hb Hd.
  assert (H1 : Qabs D <= 2 * Qabs d) by (numerals; qabs; lra).
  assert (H2 : least_span <= 2 * Qabs d) by lra.
  assert (H3 : ~ d == 0).
  { intros E. rewrite E in H2. numerals. change (Qabs 0) with 0 in H2. lra. }
  assert (H4 : Qabs B <= Qabs D) by (rewrite HB; now apply Qabs_fraction_le).
  assert (H5 : Qabs (t * (d - D)) <= Qabs (d - D)) by now apply Qabs_fraction_le.
  assert (H6 : Qabs (b - t * d) <= 4 * half_ulp * Qabs d).
  { assert (E : b - t * d == (b - B) - t * (d - D)) by (rewrite HB; ring).
    rewrite E. clear E.
    pose proof (Qabs_triangle (b - B) (- (t * (d - D)))) as Htri.
    rewrite Qabs_opp in Htri.
    assert (E : b - B + - (t * (d - D)) == b - B - t * (d - D)) by ring.
    rewrite E in Htri. clear E.
    set (z := Qabs (b - B - t * (d - D))) in *.
    set (z1 := Qabs (t * (d - D))) in *.
    clearbody z z1. numerals. qabs; lra. }
  assert (H7 : Qabs (b / d - t) <= 4 * half_ulp).
  { assert (E : b / d - t == (b - t * d) / d) by (field; assumption).
    rewrite E. now apply Qabs_quotient_le. }
  split; [exact H3|]. split; [exact H2|]. split; [exact H7|].
  numerals. destruct Ht. clear - H7 H H0. qabs; lra.
Qed.

Lemma Qabs_inverse_le (d e : Q) :
  0 < e -> e <= 2 * Qabs d -> Qabs (/ d) <= 2 / e.
Proof.
  intros He H. rewrite Qabs_Qinv.
  assert (Hd : 0 < Qabs d) by lra.
  apply Qle_shift_div_l; [assumption|].
  assert (E : / Qabs d * e == e / Qabs d) by (field; lra).
  rewrite E. apply Qle_shift_div_r; [assumption|]. lra.
Qed.

(** Finite and at most [largest_coordinate] in magnitude. *)
Definition moderate (x : number) : Prop :=
  isFinite x = true /\ Qabs (value x) <= largest_coordinate.

(** The longitude [pointInPolygon] compares [px] with. *)
Definition crossing_number (py xi yi xj yj : number) : number :=
  (((xj - xi) * (py - yi)) / (yj - yi) + xi)%float.

(** The bound on its distance from the exact crossing. *)
Definition rounding_margin (xi xj : Q) : Q :=
  (1 # 2 ^ 48) * (Qabs xi + Qabs xj) + (1 # 2 ^ 500).

Lemma crossing_number_error (py xi yi xj yj : number) (t : Q) :
  moderate py -> moderate xi -> moderate yi -> moderate xj -> moderate yj ->
  value py - value yi == t * (value yj - value yi) ->
  0 <= t <= 1 ->
  least_span <= Qabs (value yj - value yi) ->
  isFinite (crossing_number py xi yi xj yj) = true
  /\ Qabs (value (crossing_number py xi yi xj yj)
           - ((value xj - value xi) * t + value xi))
     <= rounding_margin (value xi) (value xj).
Proof.
  intros [Fpy Mpy] [Fxi Mxi] [Fyi Myi] [Fxj Mxj] [Fyj Myj] HB Ht Hspan.
  unfold crossing_number, rounding_margin.
  set (W := Qabs (value xi) + Qabs (value xj)).
  set (A := value xj - value xi) in *.
  set (B := value py - value yi) in *.
  set (D := value yj - value yi) in *.
  assert (HW0 : 0 <= W /\ W <= 2 * largest_coordinate /\ Qabs A <= W
                /\ Qabs (value xi) <= W).
  { unfold W, A. clear - Mxi Mxj. numerals. qabs; lra. }
  destruct HW0 as (HW0 & HWM & HAW & HxiW).
  (* the three differences *)
  destruct (sub_near xj xi Fxj Fxi) as [Fa Ha].
  { fold A. clear - HAW HWM. numerals. lra. }
  destruct (sub_near py yi Fpy Fyi) as [Fb Hb].
  { clear - Mpy Myi. numerals. qabs; lra. }
  destruct (sub_near yj yi Fyj Fyi) as [Fd Hd].
  { clear - Myj Myi. numerals. qabs; lra. }
  fold A in Ha. fold B in Hb. fold D in Hd.
  set (a := value (xj - xi)%float) in *.
  set (b := value (py - yi)%float) in *.
  set (d := value (yj - yi)%float) in *.
  destruct (ratio_error B D t b d HB Ht Hspan Hb Hd) as (Hd0 & Hd2 & Hr & Hr2).
  assert (HaW : Qabs a <= 2 * W /\ Qabs (a - A) <= half_ulp * W).
  { clear - Ha HAW HW0. numerals. qabs; lra. }
  destruct HaW as [HaW HaA].
  assert (HbM : Qabs b <= 4 * largest_coordinate).
  { assert (HBM : Qabs B <= 2 * largest_coordinate)
      by (unfold B; clear - Mpy Myi; numerals; qabs; lra).
    clear - Hb HBM. numerals. qabs; lra. }
  (* the product *)
  destruct (mul_near (xj - xi)%float (py - yi)%float Fa Fb) as [Fc Hc].
  { fold a b. pose proof (Qabs_mult_le a b _ _ HaW HbM) as H.
    clear - H HWM HW0. numerals. lra. }
  fold a b in Hc.
  set (c := value ((xj - xi) * (py - yi))%float) in *.
  (* the quotient *)
  assert (Hinv : Qabs (/ d) <= 2 / least_span).
  { apply Qabs_inverse_le; [reflexivity|exact Hd2]. }
  assert (Hcd : Qabs (c / d - a * (b / d))
                <= half_ulp * (2 * W * 2) + half_least * (2 / least_span)).
  { assert (E : c / d - a * (b / d) == (c - a * b) * / d) by (field; assumption).
    rewrite E, Qabs_Qmult.
    apply Qle_trans with ((half_ulp * Qabs (a * b) + half_least) * Qabs (/ d)).
    { apply Qmult_le_compat_r; [exact Hc|apply Qabs_nonneg]. }
    assert (E2 : (half_ulp * Qabs (a * b) + half_least) * Qabs (/ d)
                 == half_ulp * (Qabs a * Qabs (b / d)) + half_least * Qabs (/ d)).
    { unfold Qdiv. rewrite !Qabs_Qmult. ring. }
    rewrite E2.
    assert (H1 : Qabs a * Qabs (b / d) <= 2 * W * 2).
    { apply Qmult_le_compat_nonneg; split; (apply Qabs_nonneg || assumption). }
    clear - H1 Hinv. numerals.
    set (z := Qabs a * Qabs (b / d)) in *. clearbody z.
    set (i := Qabs (/ d)) in *. clearbody i.
    lra. }
  assert (Hat : Qabs (a * (b / d) - A * t) <= 9 * half_ulp * W).
  { assert (E : a * (b / d) - A * t == a * (b / d - t) + t * (a - A)) by ring.
    rewrite E.
    pose proof (Qabs_triangle (a * (b / d - t)) (t * (a - A))) as Htri.
    pose proof (Qabs_mult_le _ _ _ _ HaW Hr) as H1.
    pose proof (Qabs_fraction_le t (a - A) Ht) as H2.
    clear - Htri H1 H2 HaA HW0. numerals. lra. }
  assert (HAt : Qabs (A * t) <= W).
  { rewrite Qmult_comm. pose proof (Qabs_fraction_le t A Ht). lra. }
  assert (Hcd2 : Qabs (c / d - A * t)
                 <= 13 * half_ulp * W + half_least * (2 / least_span)).
  { assert (E : c / d - A * t == (c / d - a * (b / d)) + (a * (b / d) - A * t)) by ring.
    rewrite E.
    pose proof (Qabs_triangle (c / d - a * (b / d)) (a * (b / d) - A * t)) as Htri.
    clear - Htri Hcd Hat HW0. numerals. lra. }
  destruct (div_near ((xj - xi) * (py - yi))%float (yj - yi)%float Fc Fd Hd0)
    as [Fq Hq].
  { fold c d. pose proof (Qabs_from (c / d) (A * t)) as Htri.
    clear - Htri Hcd2 HAt HWM HW0. numerals. lra. }
  fold c d in Hq.
  set (q := value (((xj - xi) * (py - yi)) / (yj - yi))%float) in *.
  assert (HqA : Qabs (q - A * t)
                <= 15 * half_ulp * W + 2 * (half_least * (2 / least_span)) + half_least).
  { pose proof (Qabs_between q (c / d) (A * t)) as Htri.
    pose proof (Qabs_from (c / d) (A * t)) as Htri2.
    pose proof (Qabs_nonneg (c / d - A * t)) as Hnn.
    clear - Htri Htri2 Hnn Hq Hcd2 HAt HW0. numerals. lra. }
  (* the sum *)
  destruct (add_near (((xj - xi) * (py - yi)) / (yj - yi))%float xi Fq Fxi)
    as [Ff Hf].
  { fold q. pose proof (Qabs_triangle q (value xi)) as Htri.
    pose proof (Qabs_from q (A * t)) as Htri2.
    clear - Htri Htri2 HqA HAt HxiW HWM HW0. numerals. lra. }
  fold q in Hf.
  split; [exact Ff|].
  set (f := value (((xj - xi) * (py - yi)) / (yj - yi) + xi)%float) in *.
  pose proof (Qabs_between f (q + value xi) (A * t + value xi)) as Htri.
  assert (E : q + value xi - (A * t + value xi) == q - A * t) by ring.
  rewrite E in Htri. clear E.
  pose proof (Qabs_triangle q (value xi)) as Htri2.
  pose proof (Qabs_from q (A * t)) as Htri3.
  pose proof (Qabs_nonneg (q - A * t)) as Hnn.
  clear - Htri Htri2 Htri3 Hnn Hf HqA HAt HxiW HW0.
  numerals. numeral (1 # 2 ^ 48). lra.
Qed.

End CrossingTest.

Section Orientation.

Local Open Scope Q_scope.

Lemma isFinite_not_NaN (x : number) : isFinite x = true -> is_NaN x = false.
Proof.
  rewrite is_NaN_spec. unfold isFinite. now destruct (Prim2SF x).
Qed.

(** Comparing two finite numbers is comparing their exact values. *)
Lemma lt_value (x y : number) :
  isFinite x = true -> isFinite y = true ->
  (lt x y = true <-> value x < value y).
Proof.
  intros Hx Hy. pose proof Zscale_pos as HS.
  rewrite (lt_number_key x y) by now apply isFinite_not_NaN.
  rewrite Z.ltb_lt, (value_key x Hx), (value_key y Hy), Zlt_Qlt.
  split; intros H.
  - unfold Qdiv. apply Qmult_lt_compat_r; [now apply Qinv_lt_0_compat|assumption].
  - apply (Qmult_lt_r _ _ (/ Zscale)); [now apply Qinv_lt_0_compat|exact H].
Qed.

(** The longitude at which the line through [vi] and [vj] passes the
    latitude of [p], in exact arithmetic. *)
Definition crossing (p vi vj : point) : Q :=
  (value (fst vj) - value (fst vi)) * (value (snd p) - value (snd vi))
  / (value (snd vj) - value (snd vi))
  + value (fst vi).

(** The point is not within rounding error of the line through the edge:
    its longitude differs from the exact crossing by more than
    [2^-48 (|xi| + |xj|) + 2^-500], on an edge whose ends differ in
    latitude by [2^-500] at least. *)
Definition clear_of_edge (p vi vj : point) : Prop :=
  least_span <= Qabs (value (snd vj) - value (snd vi))
  /\ rounding_margin (value (fst vi)) (value (fst vj))
     < Qabs (value (fst p) - crossing p vi vj).

Definition moderate_point (v : point) : Prop :=
  moderate (fst v) /\ moderate (snd v).

Lemma fraction_between (B D : Q) :
  (D < 0 /\ D <= B /\ B <= 0) \/ (0 < D /\ 0 <= B /\ B <= D) ->
  0 <= B / D <= 1 /\ B == B / D * D.
Proof.
  intros [(HD & H1 & H2)|(HD & H1 & H2)].
  - assert (E : B / D == (- B) / (- D)) by (field; lra).
    split; [|field; lra]. rewrite E. split.
    + apply Qle_shift_div_l; lra.
    + apply Qle_shift_div_r; lra.
  - split; [|field; lra]. split.
    + apply Qle_shift_div_l; lra.
    + apply Qle_shift_div_r; lra.
Qed.

Lemma straddles_sym (p vi vj : point) : straddles p vj vi = straddles p vi vj.
Proof. unfold straddles, bool_neq. apply xorb_comm. Qed.

Lemma crossing_sym (p vi vj : point) :
  ~ value (snd vj) - value (snd vi) == 0 ->
  crossing p vj vi == crossing p vi vj.
Proof. intros H. unfold crossing. field. split; lra. Qed.

(** On an edge the point is clear of, the test of the code is the test of
    exact arithmetic. *)
Lemma intersects_exact (p vi vj : point) :
  moderate_point p -> moderate_point vi -> moderate_point vj ->
  straddles p vi vj = true ->
  clear_of_edge p vi vj ->
  (intersects p vi vj = true <-> value (fst p) < crossing p vi vj).
Proof.
  destruct p as [px py], vi as [xi yi], vj as [xj yj].
  unfold moderate_point, clear_of_edge, crossing. cbn [fst snd].
  intros [Mpx Mpy] [Mxi Myi] [Mxj Myj] Hs [Hspan Hclear].
  unfold intersects, intersects_eval. unfold straddles in Hs. cbn [fst snd] in Hs.
  rewrite Hs. cbn [fst].
  fold (crossing_number py xi yi xj yj).
  (* the point's latitude is between those of the ends *)
  assert (Hbetween :
            (value yj - value yi < 0
             /\ value yj - value yi <= value py - value yi
             /\ value py - value yi <= 0)
            \/ (0 < value yj - value yi
                /\ 0 <= value py - value yi
                /\ value py - value yi <= value yj - value yi)).
  { unfold bool_neq, gt in Hs. fold (lt py yi) (lt py yj) in Hs.
    pose proof (lt_value py yi (proj1 Mpy) (proj1 Myi)) as Hi.
    pose proof (lt_value py yj (proj1 Mpy) (proj1 Myj)) as Hj.
    destruct (lt py yi) eqn:Ei, (lt py yj) eqn:Ej; try discriminate Hs.
    - left. assert (value py < value yi) by now apply Hi.
      assert (~ value py < value yj) by (intros H'; apply Hj in H'; discriminate).
      lra.
    - right. assert (value py < value yj) by now apply Hj.
      assert (~ value py < value yi) by (intros H'; apply Hi in H'; discriminate).
      lra. }
  destruct (fraction_between _ _ Hbetween) as [Ht HB].
  set (t := (value py - value yi) / (value yj - value yi)) in *.
  destruct (crossing_number_error py xi yi xj yj t Mpy Mxi Myi Mxj Myj HB Ht Hspan)
    as [Ff Herr].
  rewrite (lt_value px _ (proj1 Mpx) Ff).
  assert (EX : (value xj - value xi) * (value py - value yi) / (value yj - value yi)
               + value xi
               == (value xj - value xi) * t + value xi).
  { unfold t. field. clear - Hbetween. lra. }
  rewrite EX in Hclear |- *.
  set (X := (value xj - value xi) * t + value xi) in *.
  set (f := value (crossing_number py xi yi xj yj)) in *.
  set (m := rounding_margin (value xi) (value xj)) in *.
  clearbody X f m. clear - Herr Hclear.
  apply Qabs_Qle_condition in Herr.
  destruct (Qabs_cases (value px - X)) as [[H0 E]|[H0 E]]; rewrite E in Hclear;
    split; intros H; lra.
Qed.

Lemma clear_of_edge_sym (p vi vj : point) :
  clear_of_edge p vi vj -> clear_of_edge p vj vi.
Proof.
  unfold clear_of_edge, rounding_margin. intros [Hspan Hclear].
  assert (Hne : ~ value (snd vj) - value (snd vi) == 0).
  { intros E. rewrite E in Hspan. unfold least_span in Hspan.
    change (Qabs 0) with 0 in Hspan.
    apply (Qle_not_lt _ _ Hspan). reflexivity. }
  split.
  - assert (E : value (snd vi) - value (snd vj)
                == - (value (snd vj) - value (snd vi))) by ring.
    now rewrite E, Qabs_opp.
  - rewrite (crossing_sym p vi vj Hne).
    now rewrite (Qplus_comm (Qabs (value (fst vj)))).
Qed.

(** On an edge the point is clear of, or that does not straddle its
    latitude, the test gives the same answer in both directions. *)
Lemma intersects_rev_clear (p vi vj : point) :
  moderate_point p -> moderate_point vi -> moderate_point vj ->
  (straddles p vi vj = true -> clear_of_edge p vi vj) ->
  intersects p vj vi = intersects p vi vj.
Proof.
  intros Mp Mi Mj Hclear.
  destruct (straddles p vi vj) eqn:Hs.
  - pose proof (Hclear eq_refl) as Hc.
    pose proof (intersects_exact p vi vj Mp Mi Mj Hs Hc) as H1.
    assert (Hs' : straddles p vj vi = true) by now rewrite straddles_sym.
    pose proof (intersects_exact p vj vi Mp Mj Mi Hs'
                  (clear_of_edge_sym _ _ _ Hc)) as H2.
    assert (Hne : ~ value (snd vj) - value (snd vi) == 0).
    { destruct Hc as [Hspan _]. intros E. rewrite E in Hspan.
      unfold least_span in Hspan. change (Qabs 0) with 0 in Hspan.
      apply (Qle_not_lt _ _ Hspan). reflexivity. }
    rewrite (crossing_sym p vi vj Hne) in H2.
    destruct (intersects p vj vi), (intersects p vi vj); try reflexivity.
    + assert (H : false = true) by (apply H1, H2; reflexivity). discriminate H.
    + assert (H : false = true) by (apply H2, H1; reflexivity). discriminate H.
  - assert (Hs' : straddles p vj vi = false) by now rewrite straddles_sym.
    rewrite (intersects_same_side p vi vj), (intersects_same_side p vj vi);
      [reflexivity| |].
    + unfold straddles, bool_neq in Hs'. now apply xorb_eq.
    + unfold straddles, bool_neq in Hs. now apply xorb_eq.
Qed.

End Orientation.

Definition slanted_triangle : list point := [(0, 0); (10, 10); (0, 10)]%float.

(** C4, amended. On the unit square the point (0.5, 0.5) is inside and the
    point (2, 2) is outside, in both vertex orders. For every polygon and
    every point with finite coordinates of magnitude at most 2^500,
    reversing the vertex order gives the same answer, provided that on
    each edge whose ends are on different sides of the point's latitude
    the ends differ in latitude by at least 2^-500 and the point's
    longitude differs from the longitude where the line through the edge
    passes that latitude, taken in exact arithmetic, by more than
    2^-48 (|xi| + |xj|) + 2^-500: the answer can depend on the vertex
    order only for a point within that rounding error of an edge. *)
Theorem pointInPolygon_unit_square_orientation :
  pointInPolygon (0.5, 0.5)%float unit_square = true
  /\ pointInPolygon (2, 2)%float unit_square = false
  /\ pointInPolygon (0.5, 0.5)%float (rev unit_square) = true
  /\ pointInPolygon (2, 2)%float (rev unit_square) = false
  /\ forall (p : point) (polygon : list point),
      moderate_point p ->
      (forall v, In v polygon -> moderate_point v) ->
      (forall vi vj,
          In (vi, vj) (edges polygon) ->
          straddles p vi vj = true ->
          clear_of_edge p vi vj) ->
      pointInPolygon p (rev polygon) = pointInPolygon p polygon.
Proof.
  split; [vm_compute; reflexivity|].
  split; [vm_compute; reflexivity|].
  split; [vm_compute; reflexivity|].
  split; [vm_compute; reflexivity|].
  intros p polygon Mp Mv Hclear. apply pointInPolygon_rev.
  intros vi vj Hin. destruct (edges_In _ _ _ Hin) as [Hi Hj].
  now apply intersects_rev_clear; auto.
Qed.

Lemma pointInPolygon_unit_square_orientation_witness :
  pointInPolygon (5, 2)%float (rev slanted_triangle)
  = pointInPolygon (5, 2)%float slanted_triangle.
Proof.
  apply (proj2 (proj2 (proj2 (proj2 pointInPolygon_unit_square_orientation)))).
  - split; split; [reflexivity|vm_compute; discriminate
                  |reflexivity|vm_compute; discriminate].
  - intros v Hv. vm_compute in Hv.
    repeat (destruct Hv as [<-|Hv];
            [split; split; [reflexivity|vm_compute; discriminate
                           |reflexivity|vm_compute; discriminate]|]).
    destruct Hv.
  - intros vi vj Hin Hs. vm_compute in Hin.
    repeat (destruct Hin as [Hin|Hin];
            [injection Hin as <- <-;
             first [discriminate Hs
                   |split; [vm_compute; discriminate|vm_compute; reflexivity]]|]).
    destruct Hin.
Defined.

(** * Further properties of the code *)

Open Scope list_scope.

(** ** Point in polygon: starting vertex, closing vertex, latitude band *)

Lemma last_app_nonempty (l1 l2 : list point) (d d' : point) :
  l2 <> [] -> last (l1 ++ l2) d = last l2 d'.
Proof.
  intros H. induction l1 as [|v l1 IH]; cbn [app].
  - destruct l2 as [|w l2]; [congruence|].
    now rewrite !(last_cons_default w _ l2).
  - destruct (l1 ++ l2)%list as [|w t] eqn:E.
    + destruct l1; [cbn in E; congruence|discriminate E].
    + change (last (v :: w :: t) d) with (last (w :: t) d). exact IH.
Qed.

Lemma edges_app (l1 l2 : list point) (d : point) :
  l1 <> [] -> l2 <> [] ->
  edges (l1 ++ l2) = pairs_from (last l2 d) l1 ++ pairs_from (last l1 d) l2.
Proof.
  intros H1 H2. unfold edges.
  destruct (l1 ++ l2)%list as [|v t] eqn:E.
  - destruct l1; [congruence|discriminate E].
  - rewrite <- E, pairs_from_app.
    rewrite (last_app_nonempty l1 l2 v d H2).
    destruct l1 as [|w l1]; [congruence|].
    now rewrite !(last_cons_default w _ l1).
Qed.

(** The answer does not depend on the vertex the ring starts with. *)
Theorem pointInPolygon_rotate (p : point) (l1 l2 : list point) :
  pointInPolygon p (l1 ++ l2) = pointInPolygon p (l2 ++ l1).
Proof.
  destruct l1 as [|v1 t1]; [now rewrite app_nil_r|].
  destruct l2 as [|v2 t2]; [now rewrite app_nil_r|].
  rewrite !pointInPolygon_parity.
  rewrite (edges_app (v1 :: t1) (v2 :: t2) v1) by discriminate.
  rewrite (edges_app (v2 :: t2) (v1 :: t1) v1) by discriminate.
  rewrite !map_app, !parity_app. apply xorb_comm.
Qed.

Lemma intersects_same_vertex (p v : point) : intersects p v v = false.
Proof.
  unfold intersects.
  pose proof (straddles_equal_latitude p v v (or_introl eq_refl)) as H.
  destruct p as [px py], v as [x y]. unfold intersects_eval.
  unfold straddles in H; cbn [fst snd] in H. now rewrite H.
Qed.

(** A ring given closed, with its first vertex repeated at the end (as
    GeoJSON rings are), gives the same answer as the open ring. *)
Theorem pointInPolygon_closed_ring (p v : point) (l : list point) :
  pointInPolygon p (v :: l ++ [v]) = pointInPolygon p (v :: l).
Proof.
  rewrite !pointInPolygon_parity. rewrite (edges_cons v l).
  change (v :: l ++ [v]) with ((v :: l) ++ [v]).
  rewrite (edges_app (v :: l) [v] v) by discriminate.
  change (last [v] v) with v.
  cbn [pairs_from app map fst snd].
  rewrite (last_cons_default v v l).
  rewrite parity_cons, map_app, parity_app. cbn [map fst snd].
  rewrite parity_cons, intersects_same_vertex.
  unfold parity at 2; cbn [fold_right]. rewrite xorb_false_r.
  rewrite parity_cons, xorb_false_l. apply xorb_comm.
Qed.

Lemma parity_all_false (bs : list bool) :
  (forall b, In b bs -> b = false) -> parity bs = false.
Proof.
  induction bs as [|b bs IH]; intros H; [reflexivity|].
  rewrite parity_cons, (H b (or_introl eq_refl)), IH; [reflexivity|].
  intros c Hc. apply H. now right.
Qed.

(** When no vertex lies on the other side of the point's latitude than the
    others (all of them above it, or none), the point is outside. *)
Theorem pointInPolygon_outside_latitude_band (p : point) (polygon : list point)
        (side : bool) :
  (forall v, In v polygon -> gt (snd v) (snd p) = side) ->
  pointInPolygon p polygon = false.
Proof.
  intros H. rewrite pointInPolygon_parity. apply parity_all_false.
  intros b Hb. apply in_map_iff in Hb. destruct Hb as ([vi vj] & <- & Hin).
  cbn [fst snd]. apply edges_In in Hin. destruct Hin as [Hi Hj].
  apply intersects_same_side. now rewrite (H _ Hi), (H _ Hj).
Qed.

Lemma pointInPolygon_outside_latitude_band_witness :
  pointInPolygon (0.5, 1.5)%float unit_square = false.
Proof.
  apply (pointInPolygon_outside_latitude_band (0.5, 1.5)%float unit_square false).
  intros v Hv. vm_compute in Hv.
  repeat (destruct Hv as [<-|Hv]; [vm_compute; reflexivity|]).
  destruct Hv.
Defined.

Lemma lt_NaN_l (x y : number) : is_NaN x = true -> lt x y = false.
Proof.
  rewrite is_NaN_spec. unfold lt. rewrite ltb_spec. intros H.
  destruct (Prim2SF x); try discriminate. reflexivity.
Qed.

Lemma lt_NaN_r (x y : number) : is_NaN y = true -> lt x y = false.
Proof.
  rewrite is_NaN_spec. unfold lt. rewrite ltb_spec. intros H.
  destruct (Prim2SF y); try discriminate. now destruct (Prim2SF x).
Qed.

(** A point with a NaN coordinate is outside every polygon. *)
Theorem pointInPolygon_NaN_point (p : point) (polygon : list point) :
  is_NaN (fst p) = true \/ is_NaN (snd p) = true ->
  pointInPolygon p polygon = false.
Proof.
  intros [Hx|Hy].
  - rewrite pointInPolygon_parity. apply parity_all_false.
    intros b Hb. apply in_map_iff in Hb. destruct Hb as ([vi vj] & <- & _).
    cbn [fst snd]. unfold intersects.
    destruct p as [px py], vi as [xi yi], vj as [xj yj]. unfold intersects_eval.
    cbn [fst] in Hx. destruct (bool_neq _ _); [|reflexivity].
    cbn [fst]. now apply lt_NaN_l.
  - rewrite pointInPolygon_parity. apply parity_all_false.
    intros b Hb. apply in_map_iff in Hb. destruct Hb as ([vi vj] & <- & _).
    cbn [fst snd]. apply intersects_same_side.
    unfold gt. fold (lt (snd p) (snd vi)) (lt (snd p) (snd vj)).
    now rewrite !lt_NaN_l.
Qed.

Lemma pointInPolygon_NaN_point_witness :
  pointInPolygon (nan, 0.5)%float unit_square = false.
Proof.
  apply (pointInPolygon_NaN_point (nan, 0.5)%float unit_square).
  left. vm_compute. reflexivity.
Defined.

(** ** Negation and the rounded operations *)

Section Negation.

Local Open Scope Z_scope.

Lemma binary_round_aux_opp (s : bool) (m e : Z) (l : location) :
  binary_round_aux prec emax (negb s) m e l
  = SFopp (binary_round_aux prec emax s m e l).
Proof.
  unfold binary_round_aux.
  destruct (shr_fexp prec emax m e l) as [mrs' e'].
  destruct (shr_fexp prec emax _ e' loc_Exact) as [mrs'' e''].
  destruct (shr_m mrs''); try reflexivity.
  destruct (e'' <=? emax - prec); reflexivity.
Qed.

Lemma binary_round_opp (s : bool) (p : positive) (e : Z) :
  binary_round prec emax (negb s) p e = SFopp (binary_round prec emax s p e).
Proof.
  unfold binary_round. destruct (shl_align p e _) as [mz ez].
  apply binary_round_aux_opp.
Qed.

Lemma binary_normalize_opp (m e : Z) :
  m <> 0 ->
  binary_normalize prec emax (- m) e false
  = SFopp (binary_normalize prec emax m e false).
Proof.
  intros Hm. destruct m as [|p|p]; [congruence| |]; cbn [Z.opp binary_normalize].
  - apply (binary_round_opp false).
  - apply (binary_round_opp true).
Qed.

Lemma SFopp_involutive (x : spec_float) : SFopp (SFopp x) = x.
Proof. destruct x as [s|s| |s m e]; cbn; try rewrite negb_involutive; reflexivity. Qed.

(** Swapping the operands of a subtraction negates the difference, unless
    the difference is the zero both ways. *)
Lemma SFsub_swap (x y : spec_float) :
  SF64sub y x = SFopp (SF64sub x y)
  \/ (SF64sub y x = S754_zero false /\ SF64sub x y = S754_zero false).
Proof.
  destruct x as [sx|sx| |sx mx ex], y as [sy|sy| |sy my ey];
    try (left; reflexivity); try (right; split; reflexivity);
    try (destruct sx, sy; (left; reflexivity) || (right; split; reflexivity));
    try (destruct sx; (left; reflexivity) || (right; split; reflexivity));
    try (destruct sy; (left; reflexivity) || (right; split; reflexivity)).
  unfold SF64sub, SFsub. rewrite (Z.min_comm ey ex).
  set (ez := Z.min ex ey).
  set (X := cond_Zopp sx (Z.pos (fst (shl_align mx ex ez)))).
  set (Y := cond_Zopp sy (Z.pos (fst (shl_align my ey ez)))).
  destruct (Z.eq_dec (X - Y) 0) as [H0|H0].
  - right. replace (Y - X) with 0 by lia. now rewrite H0.
  - left. replace (Y - X) with (- (X - Y)) by lia.
    now apply binary_normalize_opp.
Qed.

Lemma SFmul_opp_l (x y : spec_float) :
  SF64mul (SFopp x) y = SFopp (SF64mul x y).
Proof.
  destruct x as [sx|sx| |sx mx ex], y as [sy|sy| |sy my ey];
    try reflexivity; cbn [SFopp SF64mul SFmul];
    try (now rewrite <- negb_xorb_l).
  - rewrite <- binary_round_aux_opp. now rewrite negb_xorb_l.
Qed.

Lemma SFmul_comm (x y : spec_float) : SF64mul x y = SF64mul y x.
Proof.
  destruct x as [sx|sx| |sx mx ex], y as [sy|sy| |sy my ey];
    try reflexivity; cbn [SF64mul SFmul]; try (now rewrite xorb_comm).
  now rewrite xorb_comm, Pos.mul_comm, Z.add_comm.
Qed.

Lemma SFdiv_opp_l (x y : spec_float) :
  SF64div (SFopp x) y = SFopp (SF64div x y).
Proof.
  destruct x as [sx|sx| |sx mx ex], y as [sy|sy| |sy my ey];
    try reflexivity; cbn [SFopp SF64div SFdiv];
    try (now rewrite <- negb_xorb_l).
  destruct (SFdiv_core_binary prec emax (Z.pos mx) ex (Z.pos my) ey) as [[mz ez] lz].
  rewrite <- binary_round_aux_opp. now rewrite negb_xorb_l.
Qed.

End Negation.

Lemma sub_swap (x y : number) :
  (y - x)%float = (- (x - y))%float \/ (y - x)%float = (x - y)%float.
Proof.
  destruct (SFsub_swap (Prim2SF x) (Prim2SF y)) as [H|[H1 H2]].
  - left. apply Prim2SF_inj. now rewrite opp_spec, !sub_spec.
  - right. apply Prim2SF_inj. rewrite !sub_spec. now rewrite H1, H2.
Qed.

Lemma mul_opp_l (x y : number) : (- x * y)%float = (- (x * y))%float.
Proof. apply Prim2SF_inj. rewrite opp_spec, !mul_spec, opp_spec. apply SFmul_opp_l. Qed.

Lemma mul_comm (x y : number) : (x * y)%float = (y * x)%float.
Proof. apply Prim2SF_inj. rewrite !mul_spec. apply SFmul_comm. Qed.

Lemma div_opp_l (x y : number) : (- x / y)%float = (- (x / y))%float.
Proof. apply Prim2SF_inj. rewrite opp_spec, !div_spec, opp_spec. apply SFdiv_opp_l. Qed.

Lemma opp_involutive (x : number) : (- - x)%float = x.
Proof. apply Prim2SF_inj. rewrite !opp_spec. apply SFopp_involutive. Qed.

Lemma toRad_opp (d : number) : toRad (- d)%float = (- toRad d)%float.
Proof. unfold toRad. now rewrite mul_opp_l, div_opp_l. Qed.

(** The engine's sine is odd and its squaring is even, as those of every
    engine are (ECMAScript leaves both implementation-approximated). *)
Definition odd_sine_even_square (M : MathObject) : Prop :=
  (forall x, Math_sin M (- x)%float = (- Math_sin M x)%float)
  /\ (forall x, Math_pow M (- x)%float 2%float = Math_pow M x 2%float).

Definition half_angle_square (M : MathObject) (d : number) : number :=
  Math_pow M (Math_sin M (toRad d / 2)%float) 2%float.

Lemma half_angle_square_swap (M : MathObject) (x y : number) :
  odd_sine_even_square M ->
  half_angle_square M (y - x)%float = half_angle_square M (x - y)%float.
Proof.
  intros [Hsin Hpow]. unfold half_angle_square.
  destruct (sub_swap x y) as [-> | ->]; [|reflexivity].
  now rewrite toRad_opp, div_opp_l, Hsin, Hpow.
Qed.

(** The distance is the same in both directions. *)
Theorem haversineDistance_symmetric (M : MathObject) (lat1 lon1 lat2 lon2 : number) :
  odd_sine_even_square M ->
  haversineDistance M lat1 lon1 lat2 lon2 = haversineDistance M lat2 lon2 lat1 lon1.
Proof.
  intros HM. unfold haversineDistance. cbv zeta.
  fold (half_angle_square M (lat2 - lat1)%float).
  fold (half_angle_square M (lon2 - lon1)%float).
  fold (half_angle_square M (lat1 - lat2)%float).
  fold (half_angle_square M (lon1 - lon2)%float).
  rewrite (half_angle_square_swap M lat1 lat2 HM).
  rewrite (half_angle_square_swap M lon1 lon2 HM).
  now rewrite (mul_comm (Math_cos M (toRad lat1)) (Math_cos M (toRad lat2))).
Qed.

Lemma sample_Math_odd_even : odd_sine_even_square sample_Math.
Proof.
  split; intros x; cbn [sample_Math Math_sin Math_pow]; [reflexivity|].
  rewrite mul_opp_l, (mul_comm x (- x)%float), mul_opp_l. apply opp_involutive.
Qed.

Lemma haversineDistance_symmetric_witness :
  haversineDistance sample_Math 0.25%float 0.5%float 0.75%float 0.25%float
  = haversineDistance sample_Math 0.75%float 0.25%float 0.25%float 0.5%float.
Proof.
  apply (haversineDistance_symmetric sample_Math 0.25%float 0.5%float 0.75%float 0.25%float).
  exact sample_Math_odd_even.
Defined.

(** ** The comparator of the sort *)

Lemma SFltb_opp_zero (r : spec_float) :
  SFltb (S754_zero false) (SFopp r) = SFltb r (S754_zero false).
Proof. destruct r as [s|s| |s m e]; try reflexivity; destruct s; reflexivity. Qed.

Lemma sub_negative_iff_lt (x y : number) :
  (x - y <? 0)%float = (x <? y)%float.
Proof.
  rewrite <- (sub_positive_iff_lt y x). rewrite !ltb_spec, !sub_spec.
  change (Prim2SF 0%float) with (S754_zero false).
  destruct (SFsub_swap (Prim2SF x) (Prim2SF y)) as [H|[H1 H2]].
  - fold SF64sub. rewrite H. symmetry. apply SFltb_opp_zero.
  - fold SF64sub. rewrite H1, H2. reflexivity.
Qed.

(** The comparator [(a, b) => a.distance - b.distance] is negative exactly
    when [a] is strictly nearer and positive exactly when [b] is, for all
    numbers; with a NaN distance it is neither. *)
Theorem by_distance_sign (a b : ranked_school) :
  lt (by_distance a b) 0%float = lt (distance a) (distance b)
  /\ gt (by_distance a b) 0%float = lt (distance b) (distance a)
  /\ (is_NaN (distance a) = true \/ is_NaN (distance b) = true ->
      lt (by_distance a b) 0%float = false /\ gt (by_distance a b) 0%float = false).
Proof.
  assert (H1 : lt (by_distance a b) 0%float = lt (distance a) (distance b))
    by apply sub_negative_iff_lt.
  assert (H2 : gt (by_distance a b) 0%float = lt (distance b) (distance a))
    by apply sub_positive_iff_lt.
  split; [exact H1|]. split; [exact H2|].
  rewrite H1, H2. intros [H|H]; split;
    (now apply lt_NaN_l) || (now apply lt_NaN_r).
Qed.

(** ** Distance from a point to itself *)

Lemma sub_self (x : number) : isFinite x = true -> (x - x)%float = 0%float.
Proof.
  unfold isFinite. intros H. apply Prim2SF_inj. rewrite sub_spec.
  change (Prim2SF 0%float) with (S754_zero false).
  destruct (Prim2SF x) as [s|s| |s m e]; try discriminate.
  - now destruct s.
  - unfold SF64sub, SFsub. now rewrite Z.sub_diag.
Qed.

Lemma mul_zero_r (x : number) :
  isFinite x = true -> (x * 0)%float = 0%float \/ (x * 0)%float = (-0)%float.
Proof.
  unfold isFinite. intros H.
  destruct (Prim2SF x) as [s|s| |s m e] eqn:E; try discriminate.
  - destruct s; [right|left]; apply Prim2SF_inj; rewrite mul_spec, E; reflexivity.
  - destruct s; [right|left]; apply Prim2SF_inj; rewrite mul_spec, E; reflexivity.
Qed.

(** The values ECMAScript prescribes at zero: [Math.sin(+0)], [(+0) ** 2]
    and [Math.sqrt(+0)] are [+0], and [Math.atan2(+0, x)] is [+0] for the
    positive [x] that [Math.sqrt(1)] is. *)
Definition exact_at_zero (M : MathObject) : Prop :=
  Math_sin M 0%float = 0%float
  /\ Math_pow M 0%float 2%float = 0%float
  /\ Math_sqrt M 0%float = 0%float
  /\ Math_atan2 M 0%float (Math_sqrt M 1%float) = 0%float.

(** The distance from a point with finite coordinates to itself is [+0]. *)
Theorem haversineDistance_same_point (M : MathObject) (lat lon : number) :
  exact_at_zero M ->
  isFinite lat = true -> isFinite lon = true ->
  isFinite (Math_cos M (toRad lat) * Math_cos M (toRad lat))%float = true ->
  haversineDistance M lat lon lat lon = 0%float.
Proof.
  intros (Hsin & Hpow & Hsqrt & Hatan) Hlat Hlon Hcos.
  unfold haversineDistance. cbv zeta.
  rewrite (sub_self lat Hlat), (sub_self lon Hlon).
  replace (toRad 0 / 2)%float with 0%float by (vm_compute; reflexivity).
  rewrite Hsin, Hpow.
  assert (Ha : (0 + Math_cos M (toRad lat) * Math_cos M (toRad lat) * 0)%float = 0%float).
  { destruct (mul_zero_r _ Hcos) as [-> | ->]; vm_compute; reflexivity. }
  rewrite Ha, Hsqrt.
  replace (1 - 0)%float with 1%float by (vm_compute; reflexivity).
  rewrite Hatan. vm_compute. reflexivity.
Qed.

Lemma haversineDistance_same_point_witness :
  haversineDistance sample_Math 0.75%float 0.25%float 0.75%float 0.25%float = 0%float.
Proof.
  apply (haversineDistance_same_point sample_Math 0.75%float 0.25%float);
    try (vm_compute; reflexivity).
  repeat split; vm_compute; reflexivity.
Defined.

(** ** What the user reads when a request fails *)

Section Messages.

Local Open Scope string_scope.

Lemma includes_cons (c : ascii) (s pat : string) :
  includes (String c s) pat = (prefix pat (String c s) || includes s pat)%bool.
Proof.
  unfold includes. cbn [String.index].
  destruct (prefix pat (String c s)); [reflexivity|].
  now destruct (String.index 0 pat s).
Qed.

(** [pat] and [q] differ at a position both have. *)
Fixpoint clash (pat q : string) : bool :=
  match pat, q with
  | String a pat', String b q' => if Ascii.eqb a b then clash pat' q' else true
  | _, _ => false
  end.

(** [pat] clashes with every non-empty suffix of [p]. *)
Fixpoint clash_throughout (pat p : string) : bool :=
  match p with
  | EmptyString => true
  | String _ p' => (clash pat p && clash_throughout pat p')%bool
  end.

(** No character of [s] is [a]. *)
Fixpoint without_char (a : ascii) (s : string) : bool :=
  match s with
  | EmptyString => true
  | String c s' => (negb (Ascii.eqb a c) && without_char a s')%bool
  end.

Lemma clash_prefix (pat q t : string) :
  clash pat q = true -> prefix pat (q ++ t) = false.
Proof.
  revert q. induction pat as [|a pat IH]; intros q H; [destruct q; discriminate|].
  destruct q as [|b q]; [discriminate|]. cbn [clash] in H. cbn [append prefix].
  destruct (ascii_dec a b) as [->|Hne]; [|reflexivity].
  rewrite Ascii.eqb_refl in H. now apply IH.
Qed.

Lemma includes_app_clash (pat p t : string) :
  clash_throughout pat p = true -> includes (p ++ t) pat = includes t pat.
Proof.
  induction p as [|c p IH]; intros H; [reflexivity|].
  cbn [clash_throughout] in H. apply andb_true_iff in H. destruct H as [H1 H2].
  cbn [append]. rewrite includes_cons.
  change (String c (p ++ t)) with (String c p ++ t).
  rewrite (clash_prefix pat (String c p) t H1). now apply IH.
Qed.

Lemma prefix_app (pat p t : string) :
  prefix pat p = true -> prefix pat (p ++ t) = true.
Proof.
  revert p. induction pat as [|a pat IH]; intros p H; [now destruct (p ++ t)|].
  destruct p as [|b p]; [discriminate|]. cbn [append prefix] in *.
  destruct (ascii_dec a b); [now apply IH|discriminate].
Qed.

Lemma includes_prefix (pat s : string) :
  prefix pat s = true -> includes s pat = true.
Proof.
  intros H. destruct s as [|c s].
  - destruct pat; [reflexivity|discriminate].
  - now rewrite includes_cons, H.
Qed.

Lemma includes_without_first_char (a : ascii) (pat s : string) :
  without_char a s = true -> includes s (String a pat) = false.
Proof.
  induction s as [|c s IH]; intros H; [reflexivity|].
  cbn [without_char] in H. apply andb_true_iff in H. destruct H as [H1 H2].
  rewrite includes_cons, (IH H2). cbn [prefix].
  destruct (ascii_dec a c) as [->|]; [|reflexivity].
  now rewrite Ascii.eqb_refl in H1.
Qed.

Lemma without_char_app (a : ascii) (s t : string) :
  without_char a s = true -> without_char a t = true ->
  without_char a (s ++ t) = true.
Proof.
  induction s as [|c s IH]; intros Hs Ht; [exact Ht|].
  cbn [without_char append] in *. apply andb_true_iff in Hs. destruct Hs as [H1 H2].
  now rewrite H1, IH.
Qed.

Definition is_digit (a : ascii) : bool :=
  (Nat.leb 48 (nat_of_ascii a) && Nat.leb (nat_of_ascii a) 57)%bool.

Lemma without_char_string_of_uint (a : ascii) (u : Decimal.uint) :
  is_digit a = false -> without_char a (NilEmpty.string_of_uint u) = true.
Proof.
  intros Ha. induction u as [|u IH|u IH|u IH|u IH|u IH|u IH|u IH|u IH|u IH|u IH];
    cbn [NilEmpty.string_of_uint without_char]; [reflexivity| | | | | | | | | |];
    rewrite IH, andb_true_r; apply negb_true_iff, Ascii.eqb_neq;
    intros ->; discriminate Ha.
Qed.

Lemma without_char_string_of_nat (a : ascii) (n : nat) :
  is_digit a = false -> without_char a (string_of_nat n) = true.
Proof.
  intros Ha. unfold string_of_nat, NilZero.string_of_uint.
  destruct (Nat.to_uint n) eqn:E;
    try (rewrite <- E; now apply without_char_string_of_uint).
  cbn [without_char]. rewrite andb_true_r. apply negb_true_iff, Ascii.eqb_neq.
  intros ->. discriminate Ha.
Qed.

(** No phrase starting with [a] occurs in ["<head><status>)"], when it
    occurs nowhere in the head and [a] is not a digit nor the bracket. *)
Lemma includes_status_message (a : ascii) (pat head : string) (status : nat) :
  clash_throughout (String a pat) head = true ->
  is_digit a = false -> Ascii.eqb a ")" = false ->
  includes (head ++ string_of_nat status ++ ")") (String a pat) = false.
Proof.
  intros Hhead Ha Hb. rewrite (includes_app_clash _ _ _ Hhead).
  apply includes_without_first_char. apply without_char_app.
  - now apply without_char_string_of_nat.
  - cbn [without_char]. now rewrite Hb.
Qed.

Lemma userMessage_geocoding_status (status : nat) :
  userMessage (Error ("Geocoding failed (HTTP " ++ string_of_nat status ++ ")"))
  = "Could not look up that address. Please check your input and try again.".
Proof.
  unfold userMessage. cbn [error_message Error].
  rewrite (includes_status_message "A" "ddress not found" "Geocoding failed (HTTP " status)
    by (vm_compute; reflexivity).
  rewrite (includes_prefix "Geocoding failed")
    by (apply prefix_app; vm_compute; reflexivity).
  reflexivity.
Qed.

Lemma userMessage_isochrone_status (status : nat) :
  userMessage (Error ("Isochrone API failed (HTTP " ++ string_of_nat status ++ ")"))
  = "Could not calculate walking distance from this location. Try a different address.".
Proof.
  unfold userMessage. cbn [error_message Error].
  rewrite (includes_status_message "A" "ddress not found" "Isochrone API failed (HTTP " status)
    by (vm_compute; reflexivity).
  rewrite (includes_status_message "G" "eocoding failed" "Isochrone API failed (HTTP " status)
    by (vm_compute; reflexivity).
  rewrite (includes_prefix "Isochrone")
    by (apply prefix_app; vm_compute; reflexivity).
  reflexivity.
Qed.

End Messages.

(** A failed geocoding request ends the run there: no isochrone request
    follows, the overlay goes, results and map stay as they were, and the
    status line reads "Could not look up that address..." for every
    status that is not a success, and the "Address not found..." text
    when the response has no feature. *)
Theorem geocoding_failure_reported
        (s : page) (id : nat) (query : string) (status : nat) (data : body place) :
  lookup id (searches s) = Some (AwaitGeocode query) ->
  (let s' := on_geocode id (HttpResponse false status data) s in
   statusMessage s'
   = Some ("Could not look up that address. Please check your input and try again.",
           true)%string
   /\ loadingOverlay_shown s' = false
   /\ lookup id (searches s') = None
   /\ resultsList s' = resultsList s /\ mapLayers s' = mapLayers s)
  /\ (no_features data ->
      let s' := on_geocode id (HttpResponse true status data) s in
      statusMessage s'
      = Some ("Address not found. Please try a more specific address.", true)%string
      /\ loadingOverlay_shown s' = false
      /\ lookup id (searches s') = None
      /\ resultsList s' = resultsList s /\ mapLayers s' = mapLayers s).
Proof.
  intros Hid. split.
  - cbv zeta. unfold on_geocode. rewrite Hid. cbn [geocodeAddress negb].
    split; [|repeat split; apply lookup_remove_same].
    unfold showLoading; cbn [statusMessage].
    rewrite statusMessage_handleError. now rewrite userMessage_geocoding_status.
  - intros Hno. cbv zeta. unfold on_geocode. rewrite Hid.
    assert (Hg : geocodeAddress (HttpResponse true status data)
                 = Rejected (Error "Address not found. Please try a more specific address.")).
    { cbn [geocodeAddress negb]. now destruct Hno as [-> | ->]. }
    rewrite Hg. split; [|repeat split; apply lookup_remove_same].
    unfold showLoading; cbn [statusMessage]. now rewrite statusMessage_handleError.
Qed.

(** The same for the isochrone request, except that a response without
    features is reported with the generic text: its error message has none
    of the phrases [handleError] looks for. *)
Theorem isochrone_failure_reported
        (M : MathObject) (SFUSD_SCHOOLS : list school)
        (s : page) (id : nat) (query : string) (c : coords)
        (status : nat) (data : body contour) :
  lookup id (searches s) = Some (AwaitIsochrone query c) ->
  (let s' := on_isochrone M SFUSD_SCHOOLS id (HttpResponse false status data) s in
   statusMessage s'
   = Some ("Could not calculate walking distance from this location. Try a different address.",
           true)%string
   /\ loadingOverlay_shown s' = false
   /\ lookup id (searches s') = None
   /\ resultsList s' = resultsList s /\ mapLayers s' = mapLayers s)
  /\ (no_features data ->
      let s' := on_isochrone M SFUSD_SCHOOLS id (HttpResponse true status data) s in
      statusMessage s'
      = Some ("An unexpected error occurred. Please try again.", true)%string
      /\ loadingOverlay_shown s' = false
      /\ lookup id (searches s') = None
      /\ resultsList s' = resultsList s /\ mapLayers s' = mapLayers s).
Proof.
  intros Hid. split.
  - cbv zeta. unfold on_isochrone. rewrite Hid. cbn [fetchIsochrone negb].
    split; [|repeat split; apply lookup_remove_same].
    unfold showLoading; cbn [statusMessage].
    rewrite statusMessage_handleError. now rewrite userMessage_isochrone_status.
  - intros Hno. cbv zeta. unfold on_isochrone. rewrite Hid.
    assert (Hg : fetchIsochrone (HttpResponse true status data)
                 = Rejected (Error "Could not generate walking distance area for this location.")).
    { cbn [fetchIsochrone negb]. now destruct Hno as [-> | ->]. }
    rewrite Hg. split; [|repeat split; apply lookup_remove_same].
    unfold showLoading; cbn [statusMessage]. now rewrite statusMessage_handleError.
Qed.

Lemma geocoding_failure_reported_witness :
  statusMessage (on_geocode 0 (HttpResponse false 503 {| features := None |})
                   (on_submit (on_input "Market St" initial_page)))
  = Some ("Could not look up that address. Please check your input and try again.",
          true)%string.
Proof.
  apply (geocoding_failure_reported
           (on_submit (on_input "Market St" initial_page)) 0 "Market St" 503
           {| features := None |}).
  vm_compute. reflexivity.
Defined.

Lemma isochrone_failure_reported_witness :
  statusMessage
    (on_isochrone sample_Math sample_schools 0
       (HttpResponse true 200 {| features := Some [] |}) awaiting_isochrone)
  = Some ("An unexpected error occurred. Please try again.", true)%string.
Proof.
  apply (proj2 (isochrone_failure_reported sample_Math sample_schools
                  awaiting_isochrone 0 "Market St" market_street_coords 200
                  {| features := Some [] |} ltac:(vm_compute; reflexivity))).
  right. reflexivity.
Defined.


(** ** What every reachable page satisfies *)

(** The markers on the map, as [displayOnMap] pushes them on
    [currentMarkers]: the address first, then one per school. *)
Inductive marker :=
| AddressMarker (c : coords)
| SchoolMarker (r : ranked_school).

Definition currentMarkers (s : page) : list marker :=
  match mapLayers s with
  | None => []
  | Some (c, _, schools) => AddressMarker c :: map SchoolMarker schools
  end.

(** The marker whose popup the click listener of the result item [index]
    toggles: [currentMarkers[index + 1]]. *)
Definition clicked_marker (index : nat) (s : page) : option marker :=
  nth_error (currentMarkers s) (index + 1).

Definition query_of (a : activation) : string :=
  match a with
  | AwaitGeocode query => query
  | AwaitIsochrone query _ => query
  end.

(** What a suggestion request is sent for: a trimmed text of at least
    [AUTOCOMPLETE_MIN_CHARS] UTF-16 code units. *)
Definition suggestion_query (q : string) : Prop :=
  AUTOCOMPLETE_MIN_CHARS <= utf16_length q /\ exists value, q = trim value.

(** What a search is started for: a trimmed text that is not empty. *)
Definition search_query (q : string) : Prop :=
  q <> EmptyString /\ exists value, q = trim value.

Record page_invariant (SFUSD_SCHOOLS : list school) (s : page) : Prop := {
  inv_loading :
    loadingOverlay_shown s = true ->
    searches s <> [] /\ statusMessage s = None /\ resultsList s = []
    /\ noResults_hidden s = true /\ mapLayers s = None;
  inv_no_school : SFUSD_SCHOOLS = [] -> resultsList s = [];
  inv_results :
    resultsList s <> [] ->
    resultsHeader_hidden s = false /\ noResults_hidden s = true
    /\ exists c iso, mapLayers s = Some (c, iso, resultsList s);
  inv_header : resultsList s = [] -> resultsHeader_hidden s = true;
  inv_none : noResults_hidden s = false -> mapLayers s <> None;
  inv_requests :
    forall id q, In (id, q) (suggestionRequests s) -> suggestion_query q;
  inv_timer :
    forall q, autocompleteDebounceTimer s = Some q -> suggestion_query q;
  inv_queries :
    forall id a, In (id, a) (searches s) -> search_query (query_of a)
}.

Lemma page_invariant_initial (SFUSD_SCHOOLS : list school) :
  page_invariant SFUSD_SCHOOLS initial_page.
Proof.
  constructor; cbn; try discriminate; try congruence; try tauto.
Qed.

Lemma page_invariant_on_submit (SFUSD_SCHOOLS : list school) (s : page) :
  page_invariant SFUSD_SCHOOLS s -> page_invariant SFUSD_SCHOOLS (on_submit s).
Proof.
  intros H. unfold on_submit.
  destruct (trim (addressInput_value s)) as [|ch rest] eqn:E; [exact H|].
  destruct H. constructor; page_fields; try congruence; try tauto.
  - intros _. repeat split; try reflexivity.
    destruct (searches s); discriminate.
  - intros id a Hin. apply in_app_or in Hin. destruct Hin as [Hin|[Hin|[]]].
    + eauto.
    + injection Hin as _ <-. cbn [query_of]. rewrite <- E.
      split; [rewrite E; discriminate|now exists (addressInput_value s)].
Qed.

Lemma page_invariant_autocomplete (SFUSD_SCHOOLS : list school) (s : page)
      (value : string) (items : list suggestion) (hidden : bool) (active : Z) :
  page_invariant SFUSD_SCHOOLS s ->
  page_invariant SFUSD_SCHOOLS (set_autocomplete value items hidden active s).
Proof. intros []. constructor; assumption. Qed.

Lemma page_invariant_selectSuggestion (SFUSD_SCHOOLS : list school) (s : page)
      (placeName : string) :
  page_invariant SFUSD_SCHOOLS s ->
  page_invariant SFUSD_SCHOOLS (selectSuggestion placeName s).
Proof.
  intros H. unfold selectSuggestion.
  now apply page_invariant_on_submit, page_invariant_autocomplete.
Qed.

Lemma In_remove_id {A : Type} (id k : nat) (a : A) (l : list (nat * A)) :
  In (k, a) (remove_id id l) -> In (k, a) l.
Proof. unfold remove_id. intros H. now apply filter_In in H. Qed.

Lemma rank_schools_no_school (M : MathObject) (c : coords) (ring : list point) :
  rank_schools M [] c ring = [].
Proof. reflexivity. Qed.

Lemma page_invariant_step (M : MathObject) (SFUSD_SCHOOLS : list school)
      (s : page) (e : event) :
  page_invariant SFUSD_SCHOOLS s ->
  page_invariant SFUSD_SCHOOLS (step M SFUSD_SCHOOLS s e).
Proof.
  intros H. destruct e as [v | | id r | k | | | i | | id r | id r]; cbn [step].
  - (* input *)
    unfold on_input. destruct (Nat.ltb_spec (utf16_length (trim v)) AUTOCOMPLETE_MIN_CHARS).
    + destruct H. constructor; page_fields; try assumption. discriminate.
    + destruct H. constructor; page_fields; try assumption.
      intros q Hq. injection Hq as <-. split; [assumption|now exists v].
  - (* debounce *)
    unfold on_debounce. destruct (autocompleteDebounceTimer s) as [q|] eqn:E; [|exact H].
    destruct H. constructor; page_fields; try assumption; try discriminate.
    intros id q' Hin. apply in_app_or in Hin. destruct Hin as [Hin|[Hin|[]]]; [eauto|].
    injection Hin as _ <-. auto.
  - (* suggestions *)
    unfold on_suggestions. destruct (lookup id (suggestionRequests s)); [|exact H].
    assert (H' : page_invariant SFUSD_SCHOOLS
                   (set_pending (autocompleteDebounceTimer s)
                      (remove_id id (suggestionRequests s)) (blurTimeouts s)
                      (searches s) (next_id s) s)).
    { destruct H. constructor; page_fields; try assumption.
      intros k q Hin. apply In_remove_id in Hin. eauto. }
    destruct (fetchSuggestions r) as [l|err]; [|exact H'].
    unfold renderSuggestions. destruct l; now apply page_invariant_autocomplete.
  - (* keydown *)
    unfold on_keydown. destruct (autocompleteList_hidden s); [exact H|].
    destruct (autocompleteList_items s); [exact H|].
    repeat match goal with
           | |- context [if ?b then _ else _] => destruct b
           end;
      try (now apply page_invariant_autocomplete); try exact H.
    destruct (nth_error _ _); [now apply page_invariant_selectSuggestion|exact H].
  - (* blur *)
    destruct H. constructor; assumption.
  - (* blur timeout *)
    unfold on_blur_timeout. destruct (blurTimeouts s); [exact H|].
    apply page_invariant_autocomplete. destruct H. constructor; assumption.
  - (* mousedown *)
    unfold on_mousedown. destruct (autocompleteList_hidden s); [exact H|].
    destruct (nth_error _ _); [now apply page_invariant_selectSuggestion|exact H].
  - now apply page_invariant_on_submit.
  - (* geocode *)
    unfold on_geocode.
    destruct (lookup id (searches s)) as [[query|query c]|] eqn:E; try exact H.
    destruct (geocodeAddress r) as [c|err].
    + destruct H. constructor; page_fields; try assumption.
      * intros Hl. destruct (inv_loading0 Hl) as (Hs & Hrest).
        split; [|exact Hrest]. destruct (searches s); [congruence|discriminate].
      * intros k a Hin. apply in_map_iff in Hin. destruct Hin as ([k' a'] & Heq & Hin).
        cbn [fst] in Heq. destruct (Nat.eqb_spec k' id) as [->|].
        -- injection Heq as _ <-. cbn [query_of].
           unfold lookup in E. destruct (find _ (searches s)) as [[k0 a0]|] eqn:F;
             [|discriminate]. cbn in E. injection E as ->.
           apply find_some in F. destruct F as [F _].
           apply (inv_queries0 _ _ F).
        -- injection Heq as <- <-. eauto.
    + unfold handleError, setStatus, showLoading.
      destruct H. constructor; page_fields; try assumption; try discriminate.
      intros k a Hin. apply In_remove_id in Hin. eauto.
  - (* isochrone *)
    unfold on_isochrone.
    destruct (lookup id (searches s)) as [[query|query c]|] eqn:E; try exact H.
    assert (Hq : forall k a, In (k, a) (remove_id id (searches s)) ->
                             search_query (query_of a)).
    { intros k a Hin. apply In_remove_id in Hin. destruct H. eauto. }
    destruct (fetchIsochrone r) as [fs|err].
    + unfold show_results. destruct fs as [|f fs'].
      { unfold handleError, setStatus, showLoading.
        destruct H. constructor; page_fields; try assumption; try discriminate. }
      destruct (coordinates f) as [|ring rings].
      { destruct SFUSD_SCHOOLS as [|sch rest] eqn:ES.
        - unfold handleError, setStatus, showLoading, displayOnMap, set_results.
          destruct H. constructor; page_fields; try assumption; try discriminate.
          + intros Hne. exfalso. apply Hne. now apply inv_no_school0.
        - unfold handleError, setStatus, showLoading.
          destruct H. constructor; page_fields; try assumption; try discriminate. }
      unfold displayResultsList, displayOnMap, set_results, showLoading.
      destruct (rank_schools M SFUSD_SCHOOLS c ring) as [|r0 ranked] eqn:ER.
      * destruct H. constructor; page_fields; try assumption; try discriminate;
          try congruence.
      * destruct H. constructor; page_fields; try assumption; try discriminate.
        -- intros ->. now rewrite rank_schools_no_school in ER.
        -- intros _. repeat split. now exists c, (f :: fs').
    + unfold handleError, setStatus, showLoading.
      destruct H. constructor; page_fields; try assumption; try discriminate.
Qed.

Lemma page_invariant_run (M : MathObject) (SFUSD_SCHOOLS : list school)
      (es : list event) (s : page) :
  page_invariant SFUSD_SCHOOLS s ->
  page_invariant SFUSD_SCHOOLS (run M SFUSD_SCHOOLS s es).
Proof.
  revert s. induction es as [|e es IH]; intros s H; [exact H|].
  cbn. apply IH. now apply page_invariant_step.
Qed.

(** While the loading overlay is shown (and the search button disabled), a
    search is in flight and nothing of an earlier search is on the page:
    no status message, no result, no "no results" notice, no map layer. *)
Theorem loading_overlay_only_while_searching
        (M : MathObject) (SFUSD_SCHOOLS : list school) (es : list event) :
  let s := run M SFUSD_SCHOOLS initial_page es in
  loadingOverlay_shown s = true ->
  searches s <> []
  /\ statusMessage s = None
  /\ resultsList s = []
  /\ resultsHeader_hidden s = true
  /\ noResults_hidden s = true
  /\ mapLayers s = None.
Proof.
  cbv zeta. intros Hl.
  destruct (page_invariant_run M SFUSD_SCHOOLS es initial_page
              (page_invariant_initial SFUSD_SCHOOLS)) as [H1 _ _ H4 _ _ _ _].
  destruct (H1 Hl) as (Ha & Hb & Hc & Hd & He).
  repeat split; auto.
Qed.

Definition loading_events : list event :=
  [InputEvent "Market St"; SubmitEvent; GeocodeSettles 0 (ok_response [market_street])].

Lemma loading_overlay_only_while_searching_witness :
  searches (run sample_Math sample_schools initial_page loading_events) <> []
  /\ resultsList (run sample_Math sample_schools initial_page loading_events) = [].
Proof.
  destruct (loading_overlay_only_while_searching sample_Math sample_schools
              loading_events ltac:(vm_compute; reflexivity)) as (H1 & _ & H3 & _).
  split; assumption.
Defined.

(** The result header is shown exactly when results are listed, the "no
    results" notice only over an empty list and a drawn isochrone, never
    both; and the click listener of each listed result toggles the popup
    of the marker of that very school, also after overlapping searches. *)
Theorem results_and_markers_in_step
        (M : MathObject) (SFUSD_SCHOOLS : list school) (es : list event) :
  let s := run M SFUSD_SCHOOLS initial_page es in
  (resultsHeader_hidden s = false <-> resultsList s <> [])
  /\ (noResults_hidden s = false -> resultsList s = [] /\ mapLayers s <> None)
  /\ (forall index r,
         nth_error (resultsList s) index = Some r ->
         clicked_marker index s = Some (SchoolMarker r)).
Proof.
  cbv zeta.
  destruct (page_invariant_run M SFUSD_SCHOOLS es initial_page
              (page_invariant_initial SFUSD_SCHOOLS)) as [_ _ H3 H4 H5 _ _ _].
  set (s := run M SFUSD_SCHOOLS initial_page es) in *.
  split; [|split].
  - split.
    + intros Hh Hnil. rewrite (H4 Hnil) in Hh. discriminate.
    + intros Hne. now destruct (H3 Hne).
  - intros Hn. split; [|now apply H5].
    destruct (resultsList s) as [|r l] eqn:E; [reflexivity|].
    destruct (H3 ltac:(discriminate)) as (_ & Hn' & _). congruence.
  - intros index r Hr.
    assert (Hne : resultsList s <> []) by (intros E; rewrite E in Hr; now destruct index).
    destruct (H3 Hne) as (_ & _ & c & iso & Hm).
    unfold clicked_marker, currentMarkers. rewrite Hm.
    rewrite Nat.add_1_r. cbn [nth_error].
    now rewrite nth_error_map, Hr.
Qed.

(** In every reachable state, Enter on a highlighted suggestion finds it:
    the listener never reads [dataset] of [undefined]; it puts the
    suggestion's place name in the field and submits the form. *)
Theorem enter_selects_highlighted_suggestion
        (M : MathObject) (SFUSD_SCHOOLS : list school) (es : list event) :
  let s := run M SFUSD_SCHOOLS initial_page es in
  autocompleteList_hidden s = false ->
  (0 <= activeAutocompleteIndex s)%Z ->
  exists sg,
    nth_error (autocompleteList_items s) (Z.to_nat (activeAutocompleteIndex s)) = Some sg
    /\ step M SFUSD_SCHOOLS s (KeyDown "Enter") = selectSuggestion (s_placeName sg) s
    /\ addressInput_value (step M SFUSD_SCHOOLS s (KeyDown "Enter")) = s_placeName sg.
Proof.
  cbv zeta. intros Hh Ha.
  assert (Hinit : index_invariant initial_page)
    by (unfold index_invariant; cbn; split; [lia|discriminate]).
  pose proof (index_invariant_run M SFUSD_SCHOOLS es initial_page Hinit) as [_ H2].
  set (s := run M SFUSD_SCHOOLS initial_page es) in *.
  destruct (H2 Hh) as [Hne Hle].
  destruct (nth_error (autocompleteList_items s) (Z.to_nat (activeAutocompleteIndex s)))
    as [sg|] eqn:E.
  - exists sg. split; [reflexivity|].
    assert (Hstep : step M SFUSD_SCHOOLS s (KeyDown "Enter")
                    = selectSuggestion (s_placeName sg) s).
    { cbn [step]. unfold on_keydown. rewrite Hh.
      destruct (autocompleteList_items s) as [|i0 items] eqn:Ei; [congruence|].
      cbn [String.eqb Ascii.eqb Bool.eqb andb].
      destruct (Z.leb_spec 0 (activeAutocompleteIndex s)) as [_|]; [|lia].
      now rewrite E. }
    split; [exact Hstep|]. rewrite Hstep.
    unfold selectSuggestion, on_submit. page_fields.
    destruct (trim (s_placeName sg)); reflexivity.
  - exfalso. apply nth_error_None in E. lia.
Qed.

Definition highlighted_events : list event := [
  InputEvent "Mis";
  DebounceFires;
  SuggestionsSettle 0 (ok_response sample_places);
  KeyDown "ArrowDown";
  KeyDown "ArrowDown"
].

Lemma enter_selects_highlighted_suggestion_witness :
  exists sg,
    nth_error (autocompleteList_items
                 (run sample_Math sample_schools initial_page highlighted_events))
              (Z.to_nat (activeAutocompleteIndex
                           (run sample_Math sample_schools initial_page highlighted_events)))
    = Some sg
    /\ s_placeName sg = "Mission Bay, San Francisco, California"%string.
Proof.
  destruct (enter_selects_highlighted_suggestion sample_Math sample_schools
              highlighted_events ltac:(vm_compute; reflexivity)
              ltac:(vm_compute; discriminate)) as (sg & Hsg & _).
  exists sg. split; [exact Hsg|].
  vm_compute in Hsg. now injection Hsg as <-.
Defined.

(** No request leaves for too short a text: every suggestion request in
    flight, and the pending debounce timer, is for a trimmed text of at
    least three UTF-16 code units, as [query.length] counts them, and
    every search in flight is for a trimmed text that is not empty. *)
Theorem requests_respect_thresholds
        (M : MathObject) (SFUSD_SCHOOLS : list school) (es : list event) :
  let s := run M SFUSD_SCHOOLS initial_page es in
  (forall id q,
      In (id, q) (suggestionRequests s) ->
      3 <= utf16_length q /\ exists value, q = trim value)
  /\ (forall q,
         autocompleteDebounceTimer s = Some q ->
         3 <= utf16_length q /\ exists value, q = trim value)
  /\ (forall id a,
         In (id, a) (searches s) ->
         query_of a <> EmptyString /\ exists value, query_of a = trim value).
Proof.
  cbv zeta.
  destruct (page_invariant_run M SFUSD_SCHOOLS es initial_page
              (page_invariant_initial SFUSD_SCHOOLS)) as [_ _ _ _ _ H6 H7 H8].
  split; [exact H6|]. split; [exact H7|exact H8].
Qed.


(** ** Debounce *)

Lemma on_input_pending (value : string) (s : page) :
  suggestionRequests (on_input value s) = suggestionRequests s
  /\ next_id (on_input value s) = next_id s
  /\ autocompleteDebounceTimer (on_input value s)
     = if Nat.ltb (utf16_length (trim value)) AUTOCOMPLETE_MIN_CHARS
       then None else Some (trim value).
Proof.
  unfold on_input. destruct (Nat.ltb _ _); repeat split; reflexivity.
Qed.

Lemma run_app (M : MathObject) (SFUSD_SCHOOLS : list school) (s : page)
      (es es' : list event) :
  run M SFUSD_SCHOOLS s (es ++ es')
  = run M SFUSD_SCHOOLS (run M SFUSD_SCHOOLS s es) es'.
Proof. unfold run. apply fold_left_app. Qed.

Lemma run_inputs_pending (M : MathObject) (SFUSD_SCHOOLS : list school)
      (values : list string) (s : page) :
  suggestionRequests (run M SFUSD_SCHOOLS s (map InputEvent values))
  = suggestionRequests s
  /\ next_id (run M SFUSD_SCHOOLS s (map InputEvent values)) = next_id s.
Proof.
  revert s. induction values as [|v values IH]; intros s; [split; reflexivity|].
  cbn [map run fold_left step]. fold (run M SFUSD_SCHOOLS (on_input v s) (map InputEvent values)).
  destruct (IH (on_input v s)) as [H1 H2].
  destruct (on_input_pending v s) as (H3 & H4 & _).
  split; congruence.
Qed.

(** A burst of edits followed by the timer firing sends at most one
    suggestion request, for the trimmed text of the last edit, and none
    when that text has fewer than three UTF-16 code units, which is what
    [query.length] counts; the timers of the earlier edits, and one
    pending before the burst, are cancelled. *)
Theorem debounce_sends_one_request_for_last_edit
        (M : MathObject) (SFUSD_SCHOOLS : list school) (s : page)
        (values : list string) (value : string) :
  let s' := run M SFUSD_SCHOOLS s
                (map InputEvent (values ++ [value]) ++ [DebounceFires]) in
  suggestionRequests s'
  = suggestionRequests s
    ++ (if Nat.ltb (utf16_length (trim value)) 3 then []
        else [(next_id s, trim value)])
  /\ autocompleteDebounceTimer s' = None.
Proof.
  cbv zeta. rewrite map_app, <- app_assoc, run_app. cbn [map app].
  destruct (run_inputs_pending M SFUSD_SCHOOLS values s) as [H1 H2].
  set (t := run M SFUSD_SCHOOLS s (map InputEvent values)) in *.
  cbn [run fold_left step].
  destruct (on_input_pending value t) as (H3 & H4 & H5).
  change AUTOCOMPLETE_MIN_CHARS with 3 in H5.
  unfold on_debounce.
  destruct (Nat.ltb (utf16_length (trim value)) 3); rewrite H5.
  - split; [|exact H5]. rewrite H3, H1. now rewrite app_nil_r.
  - page_fields. split; [|reflexivity]. now rewrite H3, H4, H1, H2.
Qed.

(** ** Submitting *)

Lemma trim_start_white_space (s : string) :
  trim_start s = match white_space s with
                 | Some rest => trim_start rest
                 | None => s
                 end.
Proof.
  destruct s as [|a r1]; [reflexivity|]. cbn [trim_start white_space].
  destruct (is_space1 a); [reflexivity|].
  destruct r1 as [|b r2]; [reflexivity|].
  destruct (is_space2 a b); [reflexivity|].
  destruct r2 as [|c r3]; [reflexivity|].
  destruct (is_space3 a b c); reflexivity.
Qed.

Lemma blank_white_space (s : string) :
  blank s = match s with
            | EmptyString => true
            | _ => match white_space s with
                   | Some rest => blank rest
                   | None => false
                   end
            end.
Proof.
  destruct s as [|a r1]; [reflexivity|]. cbn [blank white_space].
  destruct (is_space1 a); [reflexivity|].
  destruct r1 as [|b r2]; [reflexivity|].
  destruct (is_space2 a b); [reflexivity|].
  destruct r2 as [|c r3]; [reflexivity|].
  destruct (is_space3 a b c); reflexivity.
Qed.

Lemma white_space_shorter (s rest : string) :
  white_space s = Some rest -> String.length rest < String.length s.
Proof.
  unfold white_space.
  destruct s as [|a [|b [|c r3]]]; try discriminate;
    repeat match goal with
           | |- context [if ?b then _ else _] => destruct b
           end;
    intros H; try discriminate H; injection H as <-; cbn [String.length]; lia.
Qed.

(** Induction along the white space a text starts with. *)
Lemma white_space_ind (P : string -> Prop) :
  (forall s, white_space s = None -> P s) ->
  (forall s rest, white_space s = Some rest -> P rest -> P s) ->
  forall s, P s.
Proof.
  intros Hnone Hsome s.
  assert (H : forall n t, String.length t < n -> P t).
  { induction n as [|n IH]; intros t Ht; [lia|].
    destruct (white_space t) as [rest|] eqn:E; [|now apply Hnone].
    apply (Hsome t rest E). apply IH.
    pose proof (white_space_shorter t rest E). lia. }
  apply (H (S (String.length s))). lia.
Qed.

Lemma trim_start_empty_iff (s : string) :
  trim_start s = EmptyString <-> blank s = true.
Proof.
  induction s as [s E|s rest E IH] using white_space_ind;
    rewrite trim_start_white_space, blank_white_space, E.
  - destruct s; [tauto|]. split; discriminate.
  - destruct s; [discriminate E|]. exact IH.
Qed.

Lemma trim_start_idempotent (s : string) : trim_start (trim_start s) = trim_start s.
Proof.
  induction s as [s E|s rest E IH] using white_space_ind;
    rewrite (trim_start_white_space s), E.
  - now rewrite trim_start_white_space, E.
  - exact IH.
Qed.

Lemma trim_empty_iff (s : string) : trim s = EmptyString <-> blank s = true.
Proof.
  rewrite <- trim_start_empty_iff. unfold trim. split.
  - destruct (trim_start s) as [|a rest] eqn:E; [reflexivity|].
    cbn [trim_end].
    destruct (blank (String a rest)) eqn:B; [|discriminate].
    apply trim_start_empty_iff in B.
    rewrite <- E, trim_start_idempotent, E in B. discriminate B.
  - intros ->. reflexivity.
Qed.

(** A submission of a text that is empty or holds nothing but white space
    (all of what [trim] takes away, U+00A0 and the other spaces of Unicode
    included) changes nothing and sends nothing. Any other submission
    starts exactly one search, for the trimmed text: the overlay is shown, the status line, the results and
    the map are cleared and the suggestion list is emptied and hidden;
    the pending debounce timer and the suggestion requests in flight are
    left alone. *)
Theorem submit_starts_one_search_unless_blank (s : page) :
  (blank (addressInput_value s) = true -> on_submit s = s)
  /\ (blank (addressInput_value s) = false ->
      let s' := on_submit s in
      searches s'
      = searches s ++ [(next_id s, AwaitGeocode (trim (addressInput_value s)))]
      /\ lastSearchedAddress s' = trim (addressInput_value s)
      /\ loadingOverlay_shown s' = true
      /\ statusMessage s' = None
      /\ resultsList s' = [] /\ mapLayers s' = None
      /\ resultsHeader_hidden s' = true /\ noResults_hidden s' = true
      /\ autocompleteList_items s' = [] /\ autocompleteList_hidden s' = true
      /\ autocompleteDebounceTimer s' = autocompleteDebounceTimer s
      /\ suggestionRequests s' = suggestionRequests s).
Proof.
  split.
  - intros H. apply trim_empty_iff in H. unfold on_submit. now rewrite H.
  - intros H. cbv zeta. unfold on_submit.
    destruct (trim (addressInput_value s)) as [|c t] eqn:E.
    + apply trim_empty_iff in E. congruence.
    + repeat split; reflexivity.
Qed.

(** ** Rings that enclose nothing, and schools never lost *)

(** A ring of fewer than two vertices encloses no point, so no school is
    retained. *)
Theorem ring_below_two_vertices_encloses_nothing
        (M : MathObject) (SFUSD_SCHOOLS : list school) (c : coords)
        (ring : list point) :
  List.length ring <= 1 ->
  (forall p, pointInPolygon p ring = false)
  /\ rank_schools M SFUSD_SCHOOLS c ring = [].
Proof.
  intros Hlen.
  assert (Hp : forall p, pointInPolygon p ring = false).
  { intros p. destruct ring as [|v [|w ring]]; [reflexivity| |cbn in Hlen; lia].
    rewrite pointInPolygon_parity. unfold edges. cbn [last pairs_from map fst snd].
    rewrite parity_cons, intersects_same_vertex. reflexivity. }
  split; [exact Hp|]. unfold rank_schools.
  replace (filter (inside_isochrone ring) SFUSD_SCHOOLS) with (@nil school);
    [reflexivity|].
  symmetry. induction SFUSD_SCHOOLS as [|sch l IH]; [reflexivity|].
  cbn [filter]. unfold inside_isochrone at 1. now rewrite Hp.
Qed.

Lemma ring_below_two_vertices_encloses_nothing_witness :
  rank_schools sample_Math sample_schools mission_street_coords [(0.5, 0.5)%float] = [].
Proof.
  apply (ring_below_two_vertices_encloses_nothing sample_Math sample_schools
           mission_street_coords [(0.5, 0.5)%float]).
  cbn. lia.
Defined.

(** Whatever the distances, NaN included, the ranked list holds each
    school inside the ring exactly as often as the catalogue does, and no
    other. *)
Theorem rank_schools_keeps_enclosed_schools
        (M : MathObject) (SFUSD_SCHOOLS : list school) (c : coords)
        (ring : list point) :
  Permutation (map facility (rank_schools M SFUSD_SCHOOLS c ring))
              (filter (fun s => pointInPolygon (lng s, lat s) ring) SFUSD_SCHOOLS)
  /\ List.length (rank_schools M SFUSD_SCHOOLS c ring)
     = List.length (filter (fun s => pointInPolygon (lng s, lat s) ring) SFUSD_SCHOOLS)
  /\ Forall (fun r => distance r
                      = haversineDistance M (coords_lat c) (coords_lng c)
                                          (lat (facility r)) (lng (facility r)))
            (rank_schools M SFUSD_SCHOOLS c ring).
Proof.
  unfold rank_schools.
  change (fun s => pointInPolygon (lng s, lat s) ring) with (inside_isochrone ring).
  set (inside := filter (inside_isochrone ring) SFUSD_SCHOOLS).
  pose proof (array_sort_Permutation by_distance (map (with_distance M c) inside)) as Hp.
  assert (Hm : Permutation (map facility (array_sort by_distance
                                            (map (with_distance M c) inside))) inside).
  { rewrite (Permutation_map facility Hp), map_map. cbn [facility with_distance].
    now rewrite map_id. }
  split; [exact Hm|]. split.
  - rewrite <- (Permutation_length Hm). now rewrite length_map.
  - apply Forall_forall. intros r Hr.
    apply (Permutation_in _ Hp) in Hr. apply in_map_iff in Hr.
    destruct Hr as (sch & <- & _). reflexivity.
Qed.


(** ** The two lines of a suggestion *)

Section SuggestionLines.

Local Open Scope string_scope.

Lemma prefix_append (a b : string) : prefix a (a ++ b) = true.
Proof.
  induction a as [|c a IH]; [now destruct b|].
  cbn [append prefix]. destruct (ascii_dec c c); [exact IH|congruence].
Qed.

Lemma index_prefix (a b : string) : String.index 0 a (a ++ b) = Some 0.
Proof.
  pose proof (prefix_append a b) as H.
  destruct (a ++ b) as [|c s] eqn:E.
  - destruct a; [reflexivity|discriminate E].
  - cbn [String.index]. now rewrite H.
Qed.

Lemma length_append (a b : string) :
  String.length (a ++ b) = String.length a + String.length b.
Proof. induction a as [|c a IH]; cbn [append String.length]; [reflexivity|now rewrite IH]. Qed.

Lemma substring_all (s : string) : substring 0 (String.length s) s = s.
Proof. induction s as [|c s IH]; cbn [substring String.length]; [reflexivity|now rewrite IH]. Qed.

Lemma substring_drop (a b : string) :
  substring (String.length a) (String.length b) (a ++ b) = b.
Proof.
  induction a as [|c a IH]; cbn [append String.length substring]; [apply substring_all|exact IH].
Qed.

Lemma substring_0_0 (s : string) : substring 0 0 s = "".
Proof. now destruct s. Qed.

Lemma remove_first_prefix (a b : string) : remove_first (a ++ b) a = b.
Proof.
  unfold remove_first. rewrite index_prefix, substring_0_0.
  cbn [append Nat.add]. rewrite length_append.
  replace (String.length a + String.length b - String.length a)
    with (String.length b) by lia.
  apply substring_drop.
Qed.

(** For a place named ["<text>, <rest>"], the suggestion carries the full
    name to fill the field with, [text] as its main line and [rest],
    without the white space it starts with (the class [\s] of the regular
    expression), as its context line; and a response that is [ok] gives
    one suggestion per feature, in the order of the response. *)
Theorem suggestion_lines (headline rest : string) (c : number * number) :
  let f := {| center := c; place_name := headline ++ ", " ++ rest; text := headline |} in
  suggestion_of_place f
  = {| s_placeName := headline ++ ", " ++ rest;
       s_text := headline;
       s_context := trim_start rest |}
  /\ forall status fs,
      fetchSuggestions (HttpResponse true status {| features := Some fs |})
      = Resolved (map suggestion_of_place fs).
Proof.
  cbv zeta. split; [|reflexivity].
  unfold suggestion_of_place. cbn [place_name text].
  rewrite remove_first_prefix. reflexivity.
Qed.

End SuggestionLines.


(** ** Links and request addresses

    [encodeURIComponent] escapes the UTF-8 bytes of the text, which are
    what a [string] holds. *)

Section Links.

Local Open Scope string_scope.

Definition MAPBOX_TOKEN : string :=
  "pk.eyJ1IjoidHdvZiIsImEiOiJjbWt6eXdzZWIwN2toM2dvaG56N2xldXBnIn0.UNp3hM0WgWhlNTCQL6zTdQ".

Definition GOOGLE_FORM_BASE : string :=
  "https://docs.google.com/forms/d/e/1FAIpQLSdnlQ4sv94yMJheM67Ez-ceeHZvVJNsuVctMJ0A73aYWgqHnA/viewform?usp=pp_url".

Definition in_range (lo hi : nat) (c : ascii) : bool :=
  (Nat.leb lo (nat_of_ascii c) && Nat.leb (nat_of_ascii c) hi)%bool.

(** The characters [encodeURIComponent] leaves alone: letters, digits and
    [- _ . ! ~ * ' ( )]. *)
Definition uriUnreserved (c : ascii) : bool :=
  (in_range 65 90 c || in_range 97 122 c || in_range 48 57 c
   || negb (without_char c "-_.!~*'()"))%bool.

Definition hex_digit (n : nat) : ascii :=
  match String.get n "0123456789ABCDEF" with Some c => c | None => "0"%char end.

Definition percent_encode (c : ascii) : string :=
  String "%" (String (hex_digit (nat_of_ascii c / 16))
                     (String (hex_digit (nat_of_ascii c mod 16)) "")).

Definition encode_char (c : ascii) : string :=
  if uriUnreserved c then String c "" else percent_encode c.

Fixpoint encodeURIComponent (s : string) : string :=
  match s with
  | EmptyString => ""
  | String c s' => encode_char c ++ encodeURIComponent s'
  end.

(** [buildFormUrl], reading [lastSearchedAddress] off the page. *)
Definition buildFormUrl (schoolName : string) (s : page) : string :=
  GOOGLE_FORM_BASE
  ++ "&entry.317760060=" ++ encodeURIComponent schoolName
  ++ "&entry.1583157200=" ++ encodeURIComponent (lastSearchedAddress s).

(** The address [geocodeAddress] fetches. *)
Definition geocode_url (query : string) : string :=
  "https://api.mapbox.com/geocoding/v5/mapbox.places/"
  ++ encodeURIComponent query ++ ".json"
  ++ "?access_token=" ++ MAPBOX_TOKEN
  ++ "&limit=1"
  ++ "&types=address,place,postcode".

(** The address [fetchSuggestions] fetches. *)
Definition suggestions_url (query : string) : string :=
  "https://api.mapbox.com/geocoding/v5/mapbox.places/"
  ++ encodeURIComponent query ++ ".json"
  ++ "?access_token=" ++ MAPBOX_TOKEN
  ++ "&autocomplete=true"
  ++ "&limit=5"
  ++ "&types=address,place,postcode".

(** Every character is unreserved or the percent sign. *)
Fixpoint escaped (s : string) : bool :=
  match s with
  | EmptyString => true
  | String c s' => ((uriUnreserved c || Ascii.eqb c "%") && escaped s')%bool
  end.

Lemma escaped_app (a b : string) : escaped (a ++ b) = (escaped a && escaped b)%bool.
Proof.
  induction a as [|c a IH]; [reflexivity|]. cbn [append escaped].
  now rewrite IH, andb_assoc.
Qed.

Lemma escaped_encode_char (c : ascii) : escaped (encode_char c) = true.
Proof.
  destruct c as [[] [] [] [] [] [] [] []]; vm_compute; reflexivity.
Qed.

Lemma escaped_encodeURIComponent (s : string) : escaped (encodeURIComponent s) = true.
Proof.
  induction s as [|c s IH]; [reflexivity|].
  cbn [encodeURIComponent]. now rewrite escaped_app, escaped_encode_char, IH.
Qed.

(** The character an escape of one character stands for. *)
Definition unhex (c : ascii) : nat :=
  match String.index 0 (String c "") "0123456789ABCDEF" with
  | Some n => n
  | None => 0
  end.

Definition decode_head (s : string) : option (ascii * string) :=
  match s with
  | String "%" (String h (String l rest)) =>
      Some (ascii_of_nat (unhex h * 16 + unhex l), rest)
  | String c rest => Some (c, rest)
  | EmptyString => None
  end.

Lemma decode_head_encode_char (c : ascii) (rest : string) :
  decode_head (encode_char c ++ rest) = Some (c, rest).
Proof.
  destruct c as [[] [] [] [] [] [] [] []]; vm_compute; reflexivity.
Qed.

Lemma encodeURIComponent_injective (x y : string) :
  encodeURIComponent x = encodeURIComponent y -> x = y.
Proof.
  revert y. induction x as [|c x IH]; intros [|d y] H.
  - reflexivity.
  - exfalso. cbn [encodeURIComponent] in H.
    pose proof (decode_head_encode_char d (encodeURIComponent y)) as Hd.
    rewrite <- H in Hd. discriminate Hd.
  - exfalso. cbn [encodeURIComponent] in H.
    pose proof (decode_head_encode_char c (encodeURIComponent x)) as Hd.
    rewrite H in Hd. discriminate Hd.
  - cbn [encodeURIComponent] in H.
    pose proof (decode_head_encode_char c (encodeURIComponent x)) as Hc.
    pose proof (decode_head_encode_char d (encodeURIComponent y)) as Hd.
    rewrite H, Hd in Hc. injection Hc as -> Hrest.
    f_equal. apply IH. now symmetry.
Qed.

Lemma append_cancel_l (a b c : string) : a ++ b = a ++ c -> b = c.
Proof.
  induction a as [|ch a IH]; cbn [append]; [auto|].
  intros H. injection H as H. auto.
Qed.

(** Two texts that end in the same text and are equal start equal. *)
Lemma append_cancel_r (a b c : string) : a ++ c = b ++ c -> a = b.
Proof.
  revert b. induction a as [|ch a IH]; intros [|dh b] H.
  - reflexivity.
  - exfalso. cbn [append] in H. apply (f_equal String.length) in H.
    cbn [String.length] in H. rewrite length_append in H. lia.
  - exfalso. cbn [append] in H. apply (f_equal String.length) in H.
    cbn [String.length] in H. rewrite length_append in H. lia.
  - cbn [append] in H. injection H as -> H. f_equal. now apply IH.
Qed.

(** Escaped texts followed by an ampersand split in one way only. *)
Lemma split_at_ampersand (a b r r' : string) :
  escaped a = true -> escaped b = true ->
  a ++ String "&" r = b ++ String "&" r' -> a = b /\ r = r'.
Proof.
  revert b. induction a as [|c a IH]; intros [|d b] Ha Hb H.
  - cbn [append] in H. injection H as H. auto.
  - exfalso. cbn [append] in H. injection H as <- _.
    cbn [escaped] in Hb. discriminate Hb.
  - exfalso. cbn [append] in H. injection H as -> _.
    cbn [escaped] in Ha. discriminate Ha.
  - cbn [append] in H. injection H as -> H.
    cbn [escaped] in Ha, Hb. apply andb_true_iff in Ha, Hb.
    destruct (IH b (proj2 Ha) (proj2 Hb) H) as [-> ->]. auto.
Qed.

(** The school name and the searched address appear in the form link
    escaped, so that neither can add, end or alter a parameter, and both
    can be read back from the link: different names or addresses give
    different links. *)
Theorem buildFormUrl_keeps_name_and_address
        (schoolName schoolName' : string) (s s' : page) :
  buildFormUrl schoolName s = buildFormUrl schoolName' s' ->
  schoolName = schoolName'
  /\ lastSearchedAddress s = lastSearchedAddress s'
  /\ escaped (encodeURIComponent schoolName) = true
  /\ escaped (encodeURIComponent (lastSearchedAddress s)) = true.
Proof.
  intros H. unfold buildFormUrl in H.
  apply append_cancel_l in H.
  change ("&entry.317760060=" ++ ?x) with (String "&" ("entry.317760060=" ++ x)) in H.
  apply (append_cancel_l "&entry.317760060=") in H.
  apply split_at_ampersand in H; try apply escaped_encodeURIComponent.
  destruct H as [H1 H2]. apply (append_cancel_l "entry.1583157200=") in H2.
  apply encodeURIComponent_injective in H1, H2.
  repeat split; auto using escaped_encodeURIComponent.
Qed.

Lemma buildFormUrl_keeps_name_and_address_witness :
  "Lowell High School" = "Lowell High School"
  /\ escaped (encodeURIComponent "Lowell High School") = true.
Proof.
  destruct (buildFormUrl_keeps_name_and_address
              "Lowell High School" "Lowell High School" initial_page initial_page
              eq_refl) as (H1 & _ & H3 & _).
  split; assumption.
Defined.

(** The query is escaped in the address of the geocoding and suggestion
    requests: it stays within its path segment, and different queries
    are different requests. *)
Theorem request_url_keeps_query (query query' : string) :
  (geocode_url query = geocode_url query' -> query = query')
  /\ (suggestions_url query = suggestions_url query' -> query = query')
  /\ escaped (encodeURIComponent query) = true.
Proof.
  split; [|split; [|apply escaped_encodeURIComponent]].
  - unfold geocode_url. intros H. apply append_cancel_l in H.
    apply append_cancel_r in H. now apply encodeURIComponent_injective.
  - unfold suggestions_url. intros H. apply append_cancel_l in H.
    apply append_cancel_r in H. now apply encodeURIComponent_injective.
Qed.

End Links.
